(** * Background command-execution session manager of system.py

    A shallow embedding of [comprehensive_terminal_session_manager_with_background_support]
    (system.py, lines 279-696): the session records, the reader thread, the
    four public operations and the private move to the archive.

    What the Python code gets from its environment is passed in explicitly:
    - whether the process is spawned and its reader thread started
      ([start_failure]) and what the child later writes ([process_behaviour]);
    - the clock: [datetime.now()] is an integer argument (microseconds), and
      each iteration of a [while time.time() - start_time < timeout_seconds]
      loop is one [tick], so the list of ticks is as long as the loop is
      allowed to run; a timeout that [timeout_milliseconds / 1000.0] cannot
      divide gives no loop at all ([timeout_window]);
    - whether the stop sequence of [force_terminate_session_with_cleanup]
      raises ([stop_outcome]).
    The four operations are functions of the manager, for calls made one at a
    time.  The class takes no lock; the writes a call makes to the two dicts
    and to the id counter are also given one by one, for calls that overlap
    ([thread_step], [write_archive_entry], [delete_active_session]). *)

From stdpp Require Import gmap strings pretty sorting.

#[local] Open Scope Z_scope.

(** ** Strings *)

(** [str(x)] inside an f-string for a Python [int]. *)
Definition str_of_int (z : Z) : string := pretty z.

(** [str(x)] inside an f-string for an [Optional[int]]. *)
Definition str_of_optional_int (c : option Z) : string :=
  match c with
  | Some z => str_of_int z
  | None => "None"
  end.

(** The character written [\n] in the source. *)
Definition newline : string := String (Ascii.ascii_of_nat 10) EmptyString.

(** Truth value of a Python [str]: non-empty. *)
Definition truthy (s : string) : bool :=
  match s with
  | EmptyString => false
  | String _ _ => true
  end.

(** ** Data model (lines 279-307) *)

(** The tuples put on a session's [output_queue]:
    [('output', text)], [('completed', returncode)], [('error', str(e))]. *)
Inductive queue_item : Type :=
| Output (content : string)
| Completed (content : option Z)
| Error (content : string).

(** [terminal_session_with_process_tracking].  The [process] and
    [output_reading_thread] handles are not data: what they do is given by
    the environment arguments of the operations.  [output_queue] holds, in
    FIFO order, the items of the session's reader thread that no [get] has
    taken yet, those the thread is still to put included: the thread is the
    only producer, so they come out in this order, and when they are there
    to be taken is told by the [tick]s of each call. *)
Record terminal_session_with_process_tracking : Type := {
  ts_process_id : Z;
  accumulated_output_buffer : string;
  newly_available_output_since_last_read : string;
  command_execution_has_completed : bool;
  session_creation_timestamp : Z;
  output_queue : list queue_item;
  last_exit_code : option Z
}.

(** [completed_terminal_session_with_full_history]. *)
Record completed_terminal_session_with_full_history : Type := {
  cs_process_id : Z;
  complete_output_text : string;
  final_exit_code : option Z;
  session_start_time : Z;
  session_end_time : Z
}.

(** [command_execution_result_with_background_support]. *)
Record command_execution_result_with_background_support : Type := {
  process_id : Z;
  initial_output_text : string;
  command_is_still_running_in_background : bool;
  error_message : option string
}.

(** The manager object: the two dicts, the id counter and the capacity. *)
Record comprehensive_terminal_session_manager_with_background_support : Type := {
  active_terminal_sessions : gmap Z terminal_session_with_process_tracking;
  completed_session_history : gmap Z completed_terminal_session_with_full_history;
  next_session_id : Z;
  maximum_completed_sessions_to_retain : Z
}.

(** [__init__] (lines 312-316). *)
Definition init : comprehensive_terminal_session_manager_with_background_support :=
  {| active_terminal_sessions := ∅;
     completed_session_history := ∅;
     next_session_id := 1;
     maximum_completed_sessions_to_retain := 100 |}.

(** In-place updates of a session's fields. *)
Definition set_output_queue (q : list queue_item)
    (s : terminal_session_with_process_tracking) : terminal_session_with_process_tracking :=
  {| ts_process_id := ts_process_id s;
     accumulated_output_buffer := accumulated_output_buffer s;
     newly_available_output_since_last_read := newly_available_output_since_last_read s;
     command_execution_has_completed := command_execution_has_completed s;
     session_creation_timestamp := session_creation_timestamp s;
     output_queue := q;
     last_exit_code := last_exit_code s |}.

(** [session.accumulated_output_buffer += content]. *)
Definition append_accumulated (content : string)
    (s : terminal_session_with_process_tracking) : terminal_session_with_process_tracking :=
  {| ts_process_id := ts_process_id s;
     accumulated_output_buffer := accumulated_output_buffer s +:+ content;
     newly_available_output_since_last_read := newly_available_output_since_last_read s;
     command_execution_has_completed := command_execution_has_completed s;
     session_creation_timestamp := session_creation_timestamp s;
     output_queue := output_queue s;
     last_exit_code := last_exit_code s |}.

(** [session.newly_available_output_since_last_read = text]. *)
Definition set_newly_available (text : string)
    (s : terminal_session_with_process_tracking) : terminal_session_with_process_tracking :=
  {| ts_process_id := ts_process_id s;
     accumulated_output_buffer := accumulated_output_buffer s;
     newly_available_output_since_last_read := text;
     command_execution_has_completed := command_execution_has_completed s;
     session_creation_timestamp := session_creation_timestamp s;
     output_queue := output_queue s;
     last_exit_code := last_exit_code s |}.

(** [session.command_execution_has_completed = True;
     session.last_exit_code = code]. *)
Definition mark_completed (code : option Z)
    (s : terminal_session_with_process_tracking) : terminal_session_with_process_tracking :=
  {| ts_process_id := ts_process_id s;
     accumulated_output_buffer := accumulated_output_buffer s;
     newly_available_output_since_last_read := newly_available_output_since_last_read s;
     command_execution_has_completed := true;
     session_creation_timestamp := session_creation_timestamp s;
     output_queue := output_queue s;
     last_exit_code := code |}.

(** ** The reader thread (lines 437-455) *)

(** One call of [process.stdout.readline()] inside the [for] loop: a line
    together with what [process.poll()] returns right after it, or an
    exception.  End of file ([readline] returns [''], the sentinel of [iter])
    is the end of the list, or a line with no text. *)
Inductive readline_result : Type :=
| Line (text : string) (poll : option Z)
| ReadlineRaises (message : string).

(** What a spawned process shows its reader thread. [stdout_rest] is the
    result of the final [process.stdout.read()] ([inr] when it raises) and
    [returncode_at_eof] is [process.returncode] when the loop ended on end of
    file (it is [None] unless some [poll] or [wait] has seen the exit). *)
Record process_behaviour : Type := {
  stdout_lines : list readline_result;
  stdout_rest : string + string;
  returncode_at_eof : option Z
}.

(** How the [for line in iter(process.stdout.readline, '')] loop ends. *)
Inductive reader_loop_exit : Type :=
| LoopEndOfFile
| LoopBreak (returncode : Z)
| LoopRaised (message : string).

Fixpoint reader_loop (rs : list readline_result) : list queue_item * reader_loop_exit :=
  match rs with
  | [] => ([], LoopEndOfFile)
  | ReadlineRaises message :: _ => ([], LoopRaised message)
  | Line text poll :: rs' =>
      if truthy text then
        match poll with
        | Some returncode => ([Output text], LoopBreak returncode)
        | None => let '(items, e) := reader_loop rs' in (Output text :: items, e)
        end
      else ([], LoopEndOfFile)
  end.

(** [output_reader_thread]: every item the thread puts on the queue, in order. *)
Definition output_reader_thread (p : process_behaviour) : list queue_item :=
  let '(items, e) := reader_loop (stdout_lines p) in
  match e with
  | LoopRaised message => items ++ [Error message]
  | _ =>
      match stdout_rest p with
      | inr message => items ++ [Error message]
      | inl remaining_output =>
          items
          ++ (if truthy remaining_output then [Output remaining_output] else [])
          ++ [Completed (match e with
                         | LoopBreak returncode => Some returncode
                         | _ => returncode_at_eof p
                         end)]
      end
  end.

(** The text a process writes, as its reader thread sees it. *)
Fixpoint output_of (items : list queue_item) : string :=
  match items with
  | [] => ""
  | Output content :: items' => content +:+ output_of items'
  | _ :: items' => output_of items'
  end.

(** ** Draining the queue *)

(** One iteration of a drain loop: whether the reader thread's next item is
    on the queue before [output_queue.get(timeout=0.1)] gives up, and what
    [process.poll()] returns in that iteration. *)
Record tick : Type := {
  item_arrived : bool;
  process_poll : option Z
}.

(** [output_queue.get(timeout=0.1)]: the next item, or [None] for
    [queue.Empty] (nothing arrived in time, or the thread has put its last
    item already). *)
Definition queue_get (t : tick) (q : list queue_item) : option (queue_item * list queue_item) :=
  if item_arrived t then
    match q with
    | item :: rest => Some (item, rest)
    | [] => None
    end
  else None.

(** *** The initial window of [start] (lines 476-508) *)

(** The ways the [while] loop of [start] is left. *)
Inductive start_loop_exit : Type :=
| WindowElapsed                     (* the [while] test fails *)
| BreakOnCompleted                  (* a ['completed'] item, line 493 *)
| BreakOnPoll                       (* [queue.Empty] and [process.poll()] is not [None], line 507 *)
| ReturnOnError (content : string). (* an ['error'] item, line 495 *)

Fixpoint start_drain (ticks : list tick) (session : terminal_session_with_process_tracking)
    (initial_output : string)
    : terminal_session_with_process_tracking * string * start_loop_exit :=
  match ticks with
  | [] => (session, initial_output, WindowElapsed)
  | t :: ticks' =>
      match queue_get t (output_queue session) with
      | Some (Output content, rest) =>
          let session := set_output_queue rest session in
          let session := append_accumulated content session in
          let session :=
            set_newly_available
              (newly_available_output_since_last_read session +:+ content) session in
          start_drain ticks' session (initial_output +:+ content)
      | Some (Completed content, rest) =>
          (mark_completed content (set_output_queue rest session),
           initial_output, BreakOnCompleted)
      | Some (Error content, rest) =>
          (set_output_queue rest session, initial_output, ReturnOnError content)
      | None =>
          match process_poll t with
          | Some returncode =>
              (mark_completed (Some returncode) session, initial_output, BreakOnPoll)
          | None => start_drain ticks' session initial_output
          end
      end
  end.

(** *** The blocking part of [read] (lines 552-592) *)

(** The [return] statements of [read_new_output_from_session_with_timeout],
    with the values they are computed from. *)
Inductive read_return : Type :=
| ReturnArchived (completed : completed_terminal_session_with_full_history) (* line 543 *)
| ReturnNoSession                                                           (* line 544 *)
| ReturnPending (output : string)                                           (* line 550 *)
| ReturnCompleted (content : option Z) (new_output : string)                (* lines 571-574 *)
| ReturnError (content : string)                                            (* line 576 *)
| ReturnOutput (new_output : string)                                        (* line 580 *)
| ReturnAlreadyCompleted (code : option Z) (new_output : string)            (* lines 585-588 *)
| ReturnTimeout (new_output : string).                                      (* line 592 *)

Fixpoint read_drain (ticks : list tick) (session : terminal_session_with_process_tracking)
    (new_output : string) : terminal_session_with_process_tracking * read_return :=
  match ticks with
  | [] => (session, ReturnTimeout new_output)
  | t :: ticks' =>
      match queue_get t (output_queue session) with
      | Some (Output content, rest) =>
          let new_output := new_output +:+ content in
          let session := append_accumulated content (set_output_queue rest session) in
          if truthy new_output then (session, ReturnOutput new_output)
          else read_drain ticks' session new_output
      | Some (Completed content, rest) =>
          (mark_completed content (set_output_queue rest session),
           ReturnCompleted content new_output)
      | Some (Error content, rest) =>
          (set_output_queue rest session, ReturnError content)
      | None =>
          if command_execution_has_completed session
          then (session, ReturnAlreadyCompleted (last_exit_code session) new_output)
          else read_drain ticks' session new_output
      end
  end.

(** ** The archive (lines 670-693) *)

(** [min(d.keys())]; [None] stands for the [ValueError] on an empty dict. *)
Definition min_key {A : Type} (d : gmap Z A) : option Z :=
  foldr (λ k acc, Some (match acc with Some k' => Z.min k k' | None => k end))
        None (map_to_list d).*1.

Definition set_maps
    (active : gmap Z terminal_session_with_process_tracking)
    (history : gmap Z completed_terminal_session_with_full_history)
    (m : comprehensive_terminal_session_manager_with_background_support)
    : comprehensive_terminal_session_manager_with_background_support :=
  {| active_terminal_sessions := active;
     completed_session_history := history;
     next_session_id := next_session_id m;
     maximum_completed_sessions_to_retain := maximum_completed_sessions_to_retain m |}.

(** Lines 687-690: drop the lowest id when the archive is over capacity. *)
Definition keep_most_recent (maximum : Z)
    (history : gmap Z completed_terminal_session_with_full_history)
    : gmap Z completed_terminal_session_with_full_history :=
  if decide (maximum < Z.of_nat (size history)) then
    match min_key history with
    | Some oldest_session_id => delete oldest_session_id history
    | None => history
    end
  else history.

(** The [completed_terminal_session_with_full_history] built at lines 677-683. *)
Definition archive_entry (session_id : Z) (session : terminal_session_with_process_tracking)
    (now : Z) : completed_terminal_session_with_full_history :=
  {| cs_process_id := session_id;
     complete_output_text := accumulated_output_buffer session;
     final_exit_code := last_exit_code session;
     session_start_time := session_creation_timestamp session;
     session_end_time := now |}.

(** The three writes of [_move_session_to_completed], in the order of the
    source.  Line 685:
    [self.completed_session_history[session_id] = completed_session]. *)
Definition write_archive_entry
    (m : comprehensive_terminal_session_manager_with_background_support)
    (session_id : Z) (completed_session : completed_terminal_session_with_full_history)
    : comprehensive_terminal_session_manager_with_background_support :=
  set_maps (active_terminal_sessions m)
           (<[session_id := completed_session]> (completed_session_history m)) m.

(** Lines 688-690. *)
Definition evict_oldest_session
    (m : comprehensive_terminal_session_manager_with_background_support)
    : comprehensive_terminal_session_manager_with_background_support :=
  set_maps (active_terminal_sessions m)
           (keep_most_recent (maximum_completed_sessions_to_retain m)
              (completed_session_history m)) m.

(** Line 693: [del self.active_terminal_sessions[session_id]]. *)
Definition delete_active_session
    (m : comprehensive_terminal_session_manager_with_background_support)
    (session_id : Z)
    : comprehensive_terminal_session_manager_with_background_support :=
  set_maps (delete session_id (active_terminal_sessions m))
           (completed_session_history m) m.

Definition _move_session_to_completed
    (m : comprehensive_terminal_session_manager_with_background_support)
    (session_id : Z) (now : Z)
    : comprehensive_terminal_session_manager_with_background_support :=
  match active_terminal_sessions m !! session_id with
  | None => m
  | Some session =>
      let completed_session := archive_entry session_id session now in
      let m := write_archive_entry m session_id completed_session in
      let m := evict_oldest_session m in
      delete_active_session m session_id
  end.

(** ** start (lines 318-528) *)

(** The session object created at lines 462-472; its queue is fed by the
    reader thread started at line 459. *)
Definition new_session (session_id : Z) (process : process_behaviour) (now : Z)
    : terminal_session_with_process_tracking :=
  {| ts_process_id := session_id;
     accumulated_output_buffer := "";
     newly_available_output_since_last_read := "";
     command_execution_has_completed := false;
     session_creation_timestamp := now;
     output_queue := output_reader_thread process;
     last_exit_code := None |}.

(** The body of [start] is one [try] (lines 326-528): whatever raises inside
    it ends in the [except] of line 521.  Before the session is registered
    this can happen in two places. *)
Inductive start_failure : Type :=
| RaisedBeforeSpawn (e : string)  (* lines 327-428: the choice of the shell, the
                                     logging or [subprocess.Popen] raises *)
| ThreadStartRaised (e : string). (* line 459: [reader_thread.start()] raises,
                                     after lines 431-432 *)

(** What line 478 and the clock make of [timeout_milliseconds]: the division
    [timeout_milliseconds / 1000.0] raises (the text is [str(e)]), or the
    [while] loop runs for these iterations. *)
Inductive timeout_window : Type :=
| TimeoutRaises (e : string)
| Window (ticks : list tick).

(** Line 432: [self.next_session_id += 1]. *)
Definition increment_next_session_id
    (m : comprehensive_terminal_session_manager_with_background_support)
    : comprehensive_terminal_session_manager_with_background_support :=
  {| active_terminal_sessions := active_terminal_sessions m;
     completed_session_history := completed_session_history m;
     next_session_id := next_session_id m + 1;
     maximum_completed_sessions_to_retain := maximum_completed_sessions_to_retain m |}.

(** Line 474: [self.active_terminal_sessions[session_id] = session].  The
    same write stands for an update in place of the session object that the
    dict holds under [session_id]. *)
Definition register_session
    (m : comprehensive_terminal_session_manager_with_background_support)
    (session_id : Z) (session : terminal_session_with_process_tracking)
    : comprehensive_terminal_session_manager_with_background_support :=
  set_maps (<[session_id := session]> (active_terminal_sessions m))
           (completed_session_history m) m.

(** The result built by the [except] branch (lines 521-528). *)
Definition failed_to_execute (e : string)
    : command_execution_result_with_background_support :=
  {| process_id := -1;
     initial_output_text := "";
     command_is_still_running_in_background := false;
     error_message := Some ("Failed to execute command: " +:+ e) |}.

(** [popen] is what lines 327-459 come to for the command text, the shell and
    the platform: [inl] when they raise, [inr p] when the process is spawned
    and its reader thread started.  [now] is [datetime.now()] and [window] is
    what the timeout allows. *)
Definition start_command_execution_with_timeout_and_background_support
    (m : comprehensive_terminal_session_manager_with_background_support)
    (popen : start_failure + process_behaviour) (now : Z) (window : timeout_window)
    : comprehensive_terminal_session_manager_with_background_support
      * command_execution_result_with_background_support :=
  match popen with
  | inl (RaisedBeforeSpawn e) => (m, failed_to_execute e)
  | inl (ThreadStartRaised e) => (increment_next_session_id m, failed_to_execute e)
  | inr process =>
      let session_id := next_session_id m in
      let m := increment_next_session_id m in
      let session := new_session session_id process now in
      let m := register_session m session_id session in
      match window with
      | TimeoutRaises e => (m, failed_to_execute e)
      | Window ticks =>
          let '(session, initial_output, exit) := start_drain ticks session "" in
          let m := register_session m session_id session in
          match exit with
          | ReturnOnError content =>
              (m, {| process_id := session_id;
                     initial_output_text := initial_output;
                     command_is_still_running_in_background := false;
                     error_message := Some ("Process error: " +:+ content) |})
          | _ =>
              (m, {| process_id := session_id;
                     initial_output_text := initial_output;
                     command_is_still_running_in_background :=
                       negb (command_execution_has_completed session);
                     error_message := None |})
          end
      end
  end.

(** ** terminate (lines 594-649) *)

(** The stop sequence (signal, wait up to 2 s, kill, wait): it ends normally
    or an exception reaches the outer handler. *)
Inductive stop_outcome : Type :=
| Stopped
| StopRaises.

Definition force_terminate_session_with_cleanup
    (m : comprehensive_terminal_session_manager_with_background_support)
    (session_id : Z) (stop : stop_outcome) (now : Z)
    : comprehensive_terminal_session_manager_with_background_support * bool :=
  match active_terminal_sessions m !! session_id with
  | None => (m, false)
  | Some _ =>
      match stop with
      | Stopped => (_move_session_to_completed m session_id now, true)
      | StopRaises => (m, false)
      end
  end.

(** ** list (lines 651-668) *)

(** One dict of the returned list. [runtime] stands for the float
    [round((current_time - created).total_seconds(), 2)] of ["runtime_seconds"]
    by the integer it is computed from, the difference of the two timestamps
    in microseconds. *)
Record session_status : Type := {
  session_id : Z;
  is_completed : bool;
  runtime : Z;
  has_new_output : bool;
  total_output_length : nat
}.

(** The items of the dict in the order of the loop of line 657.  A dict
    iterates in insertion order; entries are inserted by [start] only, under
    ids that grow from call to call, and never re-inserted, so this is the
    order of the ids. *)
Definition active_sessions_in_order
    (m : comprehensive_terminal_session_manager_with_background_support)
    : list (Z * terminal_session_with_process_tracking) :=
  merge_sort (λ a b, a.1 <=? b.1) (map_to_list (active_terminal_sessions m)).

Definition get_list_of_all_active_sessions_with_status
    (m : comprehensive_terminal_session_manager_with_background_support) (current_time : Z)
    : list session_status :=
  (λ '(id, session),
     {| session_id := id;
        is_completed := command_execution_has_completed session;
        runtime := current_time - session_creation_timestamp session;
        has_new_output :=
          bool_decide (0 < String.length (newly_available_output_since_last_read session))%nat;
        total_output_length := String.length (accumulated_output_buffer session) |})
  <$> active_sessions_in_order m.

(** ** read (lines 530-592) *)

(** The function up to its [return] statement: the new state of the manager
    and which [return] is taken. *)
Definition read_session
    (m : comprehensive_terminal_session_manager_with_background_support)
    (session_id : Z) (now : Z) (ticks : list tick)
    : comprehensive_terminal_session_manager_with_background_support * read_return :=
  match active_terminal_sessions m !! session_id with
  | None =>
      match completed_session_history m !! session_id with
      | Some completed => (m, ReturnArchived completed)
      | None => (m, ReturnNoSession)
      end
  | Some session =>
      if truthy (newly_available_output_since_last_read session) then
        (set_maps (<[session_id := set_newly_available "" session]> (active_terminal_sessions m))
                  (completed_session_history m) m,
         ReturnPending (newly_available_output_since_last_read session))
      else
        let '(session, ret) := read_drain ticks session "" in
        let m :=
          set_maps (<[session_id := session]> (active_terminal_sessions m))
                   (completed_session_history m) m in
        match ret with
        | ReturnCompleted _ _ => (_move_session_to_completed m session_id now, ret)
        | _ => (m, ret)
        end
  end.

(** Line 553 divides the timeout, after the lookups (lines 537-544) and the
    pending buffer (lines 547-550) have had their [return]s, which do not look
    at the timeout.  For a timeout that cannot be divided the method raises
    there ([inl], with the manager as it was); otherwise it is [read_session]. *)
Definition read_session_in_window
    (m : comprehensive_terminal_session_manager_with_background_support)
    (session_id : Z) (now : Z) (window : timeout_window)
    : comprehensive_terminal_session_manager_with_background_support
      * (string + read_return) :=
  match window with
  | Window ticks =>
      let '(m, ret) := read_session m session_id now ticks in (m, inr ret)
  | TimeoutRaises e =>
      match active_terminal_sessions m !! session_id with
      | Some session =>
          if truthy (newly_available_output_since_last_read session) then
            let '(m, ret) := read_session m session_id now [] in (m, inr ret)
          else (m, inl e)
      | None =>
          let '(m, ret) := read_session m session_id now [] in (m, inr ret)
      end
  end.

Section Rendering.

(** [f"{runtime:.2f}"] for [runtime = (end - start).total_seconds()]: the
    rendering of a float, taken as given; its argument is [end - start]. *)
Variable format_runtime : Z → string.

(** The tuple [(output, timeout_reached)] of each [return]. *)
Definition read_value (session_id : Z) (ret : read_return) : string * bool :=
  match ret with
  | ReturnArchived completed =>
      ("Process completed with exit code "
         +:+ str_of_optional_int (final_exit_code completed) +:+ newline
         +:+ "Runtime: "
         +:+ format_runtime (session_end_time completed - session_start_time completed)
         +:+ "s" +:+ newline
         +:+ "Final output:" +:+ newline
         +:+ complete_output_text completed,
       false)
  | ReturnNoSession => ("No session found for ID " +:+ str_of_int session_id, false)
  | ReturnPending output => (output, false)
  | ReturnCompleted content new_output =>
      (if truthy new_output then new_output
       else "Process completed with exit code " +:+ str_of_optional_int content,
       false)
  | ReturnError content => ("Process error: " +:+ content, false)
  | ReturnOutput new_output => (new_output, false)
  | ReturnAlreadyCompleted code new_output =>
      (if truthy new_output then new_output
       else "Process completed with exit code " +:+ str_of_optional_int code,
       false)
  | ReturnTimeout new_output =>
      (if truthy new_output then new_output else "No new output available", true)
  end.

Definition read_new_output_from_session_with_timeout
    (m : comprehensive_terminal_session_manager_with_background_support)
    (session_id : Z) (now : Z) (ticks : list tick)
    : comprehensive_terminal_session_manager_with_background_support * (string * bool) :=
  let '(m, ret) := read_session m session_id now ticks in
  (m, read_value session_id ret).

End Rendering.

(** ** Sequences of calls *)

(** A call of one of the four operations with what the environment gives
    it.  [OpRead] is a [read] with a timeout that line 553 can divide; with
    one it cannot divide, the call returns before that line, as this one
    does, or raises and leaves the manager as it was
    ([read_session_in_window]). *)
Inductive operation : Type :=
| OpStart (popen : start_failure + process_behaviour) (now : Z) (window : timeout_window)
| OpRead (session_id : Z) (now : Z) (ticks : list tick)
| OpTerminate (session_id : Z) (stop : stop_outcome) (now : Z)
| OpList (current_time : Z).

(** The manager after one call. *)
Definition step (m : comprehensive_terminal_session_manager_with_background_support)
    (op : operation) : comprehensive_terminal_session_manager_with_background_support :=
  match op with
  | OpStart popen now window =>
      (start_command_execution_with_timeout_and_background_support m popen now window).1
  | OpRead session_id now ticks => (read_session m session_id now ticks).1
  | OpTerminate session_id stop now =>
      (force_terminate_session_with_cleanup m session_id stop now).1
  | OpList _ => m
  end.

(** The manager after a sequence of calls on the fresh instance. *)
Definition run (ops : list operation)
    : comprehensive_terminal_session_manager_with_background_support :=
  foldl step init ops.

(** ** Calls that overlap *)

(** The accesses of a [start] to the manager when the process is spawned and
    the reader thread started, as the steps of a thread: line 431 reads the
    counter into the local [session_id], line 432 writes the counter, line 474
    writes the active map.  Nothing orders the steps of two threads: the class
    holds no lock. *)
Record start_thread : Type := {
  thread_process : process_behaviour;
  thread_now : Z;
  accesses_done : nat;
  local_session_id : Z
}.

(** A thread that enters [start]. *)
Definition entering (process : process_behaviour) (now : Z) : start_thread :=
  {| thread_process := process;
     thread_now := now;
     accesses_done := 0;
     local_session_id := 0 |}.

(** The next access of a thread. *)
Definition thread_step
    (m : comprehensive_terminal_session_manager_with_background_support)
    (t : start_thread)
    : comprehensive_terminal_session_manager_with_background_support * start_thread :=
  match accesses_done t with
  | 0%nat =>                                   (* line 431 *)
      (m, {| thread_process := thread_process t;
             thread_now := thread_now t;
             accesses_done := 1;
             local_session_id := next_session_id m |})
  | 1%nat =>                                   (* line 432 *)
      (increment_next_session_id m,
       {| thread_process := thread_process t;
          thread_now := thread_now t;
          accesses_done := 2;
          local_session_id := local_session_id t |})
  | 2%nat =>                                   (* line 474 *)
      (register_session m (local_session_id t)
         (new_session (local_session_id t) (thread_process t) (thread_now t)),
       {| thread_process := thread_process t;
          thread_now := thread_now t;
          accesses_done := 3;
          local_session_id := local_session_id t |})
  | _ => (m, t)
  end.

(** The threads run in the order of [schedule], which names the thread that
    makes its next access. *)
Fixpoint interleave (schedule : list nat)
    (m : comprehensive_terminal_session_manager_with_background_support)
    (threads : list start_thread)
    : comprehensive_terminal_session_manager_with_background_support * list start_thread :=
  match schedule with
  | [] => (m, threads)
  | i :: schedule' =>
      match threads !! i with
      | Some t =>
          let '(m, t) := thread_step m t in
          interleave schedule' m (<[i := t]> threads)
      | None => interleave schedule' m threads
      end
  end.

(** ** Notions used in the statements *)

(** The results of the [start] calls in a sequence of calls made from the
    state [m], in order. *)
Fixpoint start_results (m : comprehensive_terminal_session_manager_with_background_support)
    (ops : list operation) : list command_execution_result_with_background_support :=
  match ops with
  | [] => []
  | op :: ops' =>
      match op with
      | OpStart popen now window =>
          [(start_command_execution_with_timeout_and_background_support
              m popen now window).2]
      | _ => []
      end ++ start_results (step m op) ops'
  end.

(** The ids of the sessions that a list of results names. *)
Definition named_sessions (results : list command_execution_result_with_background_support)
    : list Z :=
  filter (λ id, id ≠ -1) (process_id <$> results).

(** How many of the iterations [ticks] found an item in time. *)
Definition arrivals (ticks : list tick) : nat :=
  length (filter (λ t, item_arrived t = true) ticks).

(** What iteration [k] of [start]'s loop gets from the queue [q] if the loop
    is still running then: each earlier iteration that found an item took
    one from the front. *)
Definition got_at (ticks : list tick) (q : list queue_item) (k : nat) : option queue_item :=
  match ticks !! k with
  | Some t => if item_arrived t then q !! arrivals (take k ticks) else None
  | None => None
  end.

(** Iteration [k] ends the loop if the loop gets there: it gets an item that
    is not output, or it gets nothing while [process.poll()] reports the
    exit. *)
Definition ends_loop (ticks : list tick) (q : list queue_item) (k : nat) : Prop :=
  match ticks !! k with
  | Some t =>
      match got_at ticks q k with
      | Some (Output _) => False
      | Some _ => True
      | None => is_Some (process_poll t)
      end
  | None => False
  end.

(** Iteration [k] is the one that ends the loop. *)
Definition ends_loop_first (ticks : list tick) (q : list queue_item) (k : nat) : Prop :=
  ends_loop ticks q k ∧ ∀ j, (j < k)%nat → ¬ ends_loop ticks q j.

Definition is_output (item : queue_item) : bool :=
  match item with
  | Output _ => true
  | _ => false
  end.

(** The items a call took from a queue: what [before] has in front of [after]. *)
Definition taken_items (before after : list queue_item) : list queue_item :=
  take (length before - length after) before.

(** Concatenation of a list of texts. *)
Definition join (texts : list string) : string := foldr String.append "" texts.

(** The output a [read] took from the queue in the call that returned [ret]
    (the local [new_output]); the other [return]s take none. *)
Definition fresh_output (ret : read_return) : string :=
  match ret with
  | ReturnCompleted _ new_output
  | ReturnOutput new_output
  | ReturnAlreadyCompleted _ new_output
  | ReturnTimeout new_output => new_output
  | ReturnArchived _ | ReturnNoSession | ReturnPending _ | ReturnError _ => ""
  end.

(** The [return]s of the [read] calls on one session id in a sequence of
    calls made from the state [m], in order. *)
Fixpoint read_returns (m : comprehensive_terminal_session_manager_with_background_support)
    (id : Z) (ops : list operation) : list read_return :=
  match ops with
  | [] => []
  | op :: ops' =>
      match op with
      | OpRead session_id now ticks =>
          if decide (session_id = id)
          then [(read_session m session_id now ticks).2]
          else []
      | _ => []
      end ++ read_returns (step m op) id ops'
  end.

(** What every call keeps true of the manager: ids handed out so far lie
    between 1 and the counter, the two dicts share no id, and the archive
    respects the capacity set by [__init__]. *)
Definition registry_inv
    (m : comprehensive_terminal_session_manager_with_background_support) : Prop :=
  maximum_completed_sessions_to_retain m = 100
  ∧ 1 ≤ next_session_id m
  ∧ (∀ id, is_Some (active_terminal_sessions m !! id) → 1 ≤ id < next_session_id m)
  ∧ (∀ id, is_Some (completed_session_history m !! id) → 1 ≤ id < next_session_id m)
  ∧ (∀ id, is_Some (active_terminal_sessions m !! id)
           → completed_session_history m !! id = None)
  ∧ (size (completed_session_history m) ≤ 100)%nat.

(** The output of one session handed out so far: [delivered] is the
    accumulated buffer of the session while it is active and the archived
    text once it is archived, it is a prefix of the process output [total],
    and the pending buffer is [initial] (what [start] returned) or empty. *)
Definition session_delivered
    (m : comprehensive_terminal_session_manager_with_background_support)
    (id : Z) (initial delivered total : string) : Prop :=
  (∀ session, active_terminal_sessions m !! id = Some session →
              accumulated_output_buffer session = delivered
              ∧ delivered +:+ output_of (output_queue session) = total
              ∧ (newly_available_output_since_last_read session = initial
                 ∨ newly_available_output_since_last_read session = ""))
  ∧ (active_terminal_sessions m !! id = None →
     ∀ completed, completed_session_history m !! id = Some completed →
                  complete_output_text completed = delivered)
  ∧ ∃ rest, total = delivered +:+ rest.

(** ** Scenarios *)

Definition got_item : tick := {| item_arrived := true; process_poll := None |}.
Definition nothing_yet : tick := {| item_arrived := false; process_poll := None |}.
Definition nothing_and_exited (code : Z) : tick :=
  {| item_arrived := false; process_poll := Some code |}.

(** [echo hello]: one line, then end of file before any [poll] saw the exit. *)
Definition echo_hello : process_behaviour :=
  {| stdout_lines := [Line ("hello" +:+ newline) None];
     stdout_rest := inl "";
     returncode_at_eof := None |}.

(** [sleep 1000 &] run by a shell: the shell exits at once with code 0, the
    child keeps the pipe open, so the reader thread sees end of file, and
    puts its only item, long after the calls below. *)
Definition detached_child : process_behaviour :=
  {| stdout_lines := []; stdout_rest := inl ""; returncode_at_eof := Some 0 |}.

(** A process that prints three lines and ends. *)
Definition counting : process_behaviour :=
  {| stdout_lines :=
       [Line ("1" +:+ newline) None; Line ("2" +:+ newline) None;
        Line ("3" +:+ newline) None];
     stdout_rest := inl "";
     returncode_at_eof := None |}.

(** A process whose first line cannot be decoded: [readline] raises. *)
Definition undecodable : process_behaviour :=
  {| stdout_lines := [ReadlineRaises "invalid start byte"];
     stdout_rest := inl "";
     returncode_at_eof := None |}.

(** A rendering of runtimes for the concrete runs: [f"{x:.2f}"] for
    [x = microseconds / 10**6], rounded to the nearest hundredth.  Where the
    runtime lies exactly between two hundredths the binary expansion of the
    float decides in Python; such runtimes are rounded up here and are not
    used below. *)
Definition two_decimals (microseconds : Z) : string :=
  let hundredths := (Z.abs microseconds + 5000) / 10000 in
  (if bool_decide (microseconds < 0) then "-" else "")
  +:+ str_of_int (hundredths / 100) +:+ "."
  +:+ str_of_int ((hundredths / 10) `mod` 10)
  +:+ str_of_int (hundredths `mod` 10).

(** ** Notions used in the further properties *)

(** A [start] that gets past line 432 and so takes an id: its process is
    spawned. *)
Definition takes_session_id (op : operation) : bool :=
  match op with
  | OpStart (inl (RaisedBeforeSpawn _)) _ _ => false
  | OpStart _ _ _ => true
  | _ => false
  end.

(** The number of ids taken by a sequence of calls. *)
Definition session_ids_taken (ops : list operation) : Z :=
  Z.of_nat (length (filter takes_session_id ops)).

(** A [terminate] on [id] whose stop sequence completes. *)
Definition stops_session (id : Z) (op : operation) : bool :=
  match op with
  | OpTerminate session_id Stopped _ => bool_decide (session_id = id)
  | _ => false
  end.

(** The ids under which the [start] calls of a sequence of calls made from
    the state [m] register a session (line 474), in order. *)
Fixpoint registered_sessions
    (m : comprehensive_terminal_session_manager_with_background_support)
    (ops : list operation) : list Z :=
  match ops with
  | [] => []
  | op :: ops' =>
      match op with
      | OpStart (inr _) _ _ => [next_session_id m]
      | _ => []
      end ++ registered_sessions (step m op) ops'
  end.

(** Every id of [ids] that is neither active nor archived has been deleted
    from a full archive whose entries all have higher ids. *)
Definition evicted_ids_are_lowest
    (m : comprehensive_terminal_session_manager_with_background_support)
    (ids : list Z) : Prop :=
  ∀ id, id ∈ ids →
        active_terminal_sessions m !! id = None →
        completed_session_history m !! id = None →
        size (completed_session_history m) = 100%nat
        ∧ ∀ k, is_Some (completed_session_history m !! k) → id < k.

(** A session that is not marked completed has no exit code recorded. *)
Definition running_sessions_have_no_exit_code
    (m : comprehensive_terminal_session_manager_with_background_support) : Prop :=
  ∀ id session,
    active_terminal_sessions m !! id = Some session →
    command_execution_has_completed session = false →
    last_exit_code session = None.

(** ** The values of a request *)

(** The values a parsed JSON request is made of.  A float is carried by its
    [repr]; a dict is the list of its entries in insertion order, with
    distinct keys. *)
#[warnings="-register-all"]
Inductive py_value : Type :=
| PyNone
| PyBool (b : bool)
| PyInt (z : Z)
| PyFloat (repr : string)
| PyStr (s : string)
| PyList (items : list py_value)
| PyDict (entries : list (string * py_value)).

(** [type(value).__name__]. *)
Definition type_name (value : py_value) : string :=
  match value with
  | PyNone => "NoneType"
  | PyBool _ => "bool"
  | PyInt _ => "int"
  | PyFloat _ => "float"
  | PyStr _ => "str"
  | PyList _ => "list"
  | PyDict _ => "dict"
  end.

(** [d.get(key)], [None] standing for an absent key. *)
Fixpoint dict_get (key : string) (d : list (string * py_value)) : option py_value :=
  match d with
  | [] => None
  | (k, v) :: d' => if decide (k = key) then Some v else dict_get key d'
  end.

(** [d[key] = value]. *)
Fixpoint dict_set (key : string) (value : py_value) (d : list (string * py_value))
    : list (string * py_value) :=
  match d with
  | [] => [(key, value)]
  | (k, v) :: d' =>
      if decide (k = key) then (k, value) :: d' else (k, v) :: dict_set key value d'
  end.

(** [d.pop(key, None)], as far as the dict goes. *)
Definition dict_remove (key : string) (d : list (string * py_value))
    : list (string * py_value) :=
  filter (λ e, e.1 ≠ key) d.

(** [', '.join(names)]. *)
Fixpoint join_comma (names : list string) : string :=
  match names with
  | [] => ""
  | [name] => name
  | name :: names' => name +:+ ", " +:+ join_comma names'
  end.

(** [', '.join(sorted(names))] for a set of names. *)
Definition join_sorted (names : list string) : string :=
  join_comma (merge_sort (λ a b : string, String.leb a b) (remove_dups names)).

(** [d.get(key) == text] for a string [text]. *)
Definition is_str (text : string) (value : option py_value) : bool :=
  match value with
  | Some (PyStr s) => bool_decide (s = text)
  | _ => false
  end.

(** [if value:]. *)
Definition py_truthy (value : py_value) : bool :=
  match value with
  | PyNone => false
  | PyBool b => b
  | PyInt z => negb (z =? 0)
  | PyFloat repr => negb (bool_decide (repr = "0.0") || bool_decide (repr = "-0.0"))
  | PyStr s => truthy s
  | PyList items => match items with [] => false | _ => true end
  | PyDict entries => match entries with [] => false | _ => true end
  end.

(** One entry of the [results] of [move_windows_batch_functional]
    (lines 3543-3549 and 3558-3564); [target_position] is the dict of [x],
    [y], [width] and [height]. *)
Record move_result : Type := {
  move_index : Z;
  hwnd : py_value;
  target_position : py_value * py_value * py_value * py_value;
  success : bool;
  message : string
}.

(** ** The tool layer over the manager
    (lines 2962-3132, 3354-3377 and 4687-4814) *)

(** [str.isspace()] for one character; a character of the model is a code
    point below 256. *)
Definition is_space (a : Ascii.ascii) : bool :=
  let n := Ascii.nat_of_ascii a in
  ((9 <=? n) && (n <=? 13) || (28 <=? n) && (n <=? 32)
   || (n =? 133) || (n =? 160))%nat.

(** [str.lstrip()], [str.rstrip()] and [str.strip()] without argument. *)
Fixpoint lstrip (s : string) : string :=
  match s with
  | EmptyString => EmptyString
  | String a s' => if is_space a then lstrip s' else s
  end.

Fixpoint rstrip (s : string) : string :=
  match s with
  | EmptyString => EmptyString
  | String a s' =>
      match rstrip s' with
      | EmptyString => if is_space a then EmptyString else String a EmptyString
      | r => String a r
      end
  end.

Definition strip (s : string) : string := rstrip (lstrip s).

(** [timeout_milliseconds / 1000.0] for a value of a request: the text of
    the exception it raises, if it raises.  An [int] is converted to a float
    first, which overflows from [2**1024 - 2**970] on. *)
Definition division_error (timeout_ms : py_value) : option string :=
  match timeout_ms with
  | PyBool _ | PyFloat _ => None
  | PyInt z =>
      if bool_decide (2 ^ 1024 - 2 ^ 970 ≤ Z.abs z)
      then Some "int too large to convert to float"
      else None
  | _ =>
      Some ("unsupported operand type(s) for /: '" +:+ type_name timeout_ms
              +:+ "' and 'float'")
  end.

(** The window a timeout value of a request gives, [ticks] being the
    iterations the clock allows when there is a loop. *)
Definition timeout_window_of (timeout_ms : py_value) (ticks : list tick) : timeout_window :=
  match division_error timeout_ms with
  | Some e => TimeoutRaises e
  | None => Window ticks
  end.

(** What [d.get(session_id)] makes of a value of a request when the keys of
    [d] are ints. *)
Inductive session_key : Type :=
| KeyRaises (e : string)   (* a list or a dict is unhashable: [TypeError] *)
| KeyOfNoSession           (* a value that equals no int *)
| KeyInt (id : Z).         (* an int, or a bool or float that equals it *)

(** The dict returned by [execute_command_functional], by its ["success"]
    entry: [{success: False, error, session_id}] or
    [{success: True, session_id, initial_output, is_running, message}]. *)
Inductive execute_command_result : Type :=
| ExecuteFailed (error : string) (session_id : Z)
| ExecuteStarted (session_id : Z) (initial_output : string) (is_running : bool)
    (message : string).

(** The dict returned by [read_output_functional]:
    [{success: True, session_id, output, timeout_reached, has_output}] or
    [{success: False, error, session_id}]. *)
Inductive read_output_result : Type :=
| ReadOutputOk (session_id : py_value) (output : string) (timeout_reached : bool)
    (has_output : bool)
| ReadOutputFailed (error : string) (session_id : py_value).

(** The dict returned by [force_terminate_functional]:
    [{success: True, session_id, message}] or
    [{success: False, session_id, error}]. *)
Inductive force_terminate_result : Type :=
| TerminateOk (session_id : py_value) (message : string)
| TerminateFailed (session_id : py_value) (error : string).

(** The dict returned by [list_sessions_functional]:
    [{success: True, active_sessions, total_sessions}] or
    [{success: False, error, active_sessions: []}]. *)
Inductive list_sessions_result : Type :=
| ListOk (active_sessions : list session_status) (total_sessions : nat)
| ListFailed (error : string).

(** The values of the entries a handler adds to its response. *)
Inductive response_field : Type :=
| FieldInt (z : Z)
| FieldBool (b : bool)
| FieldValue (value : py_value)
| FieldSessions (sessions : list session_status)
| FieldBatch (summary : string) (overall_success : bool)
    (individual_results : list move_result).

(** The entry for a value of the request that is handed back. *)
Definition field_of_value (value : py_value) : response_field :=
  match value with
  | PyInt z => FieldInt z
  | PyBool b => FieldBool b
  | _ => FieldValue value
  end.

(** The dict a handler returns: the texts of the items of ["content"] (each
    item is [{"type": "text", "text": ...}]), ["isError"], and the other
    entries in the order of the source. *)
Record tool_response : Type := {
  content : list string;
  isError : bool;
  extra_fields : list (string * response_field)
}.

(** [execute_command_functional] (lines 2962-3017).  The command text, the
    timeout and the shell reach the manager's [start] unchanged; what they
    make of the environment is [popen] and [window], as for [start].  The
    [try] of the function has nothing to catch: [start] catches its own
    exceptions. *)
Definition execute_command_functional
    (m : comprehensive_terminal_session_manager_with_background_support)
    (popen : start_failure + process_behaviour) (now : Z) (window : timeout_window)
    : comprehensive_terminal_session_manager_with_background_support
      * execute_command_result :=
  let '(m, result) :=
    start_command_execution_with_timeout_and_background_support m popen now window in
  if match error_message result with Some e => truthy e | None => false end then
    (m, ExecuteFailed (default "" (error_message result)) (process_id result))
  else
    let message := "Command started with session ID " +:+ str_of_int (process_id result) in
    let message :=
      if command_is_still_running_in_background result
      then message +:+ newline
             +:+ "Command is still running. Use read_output to get more output."
      else message in
    (m, ExecuteStarted (process_id result) (initial_output_text result)
          (command_is_still_running_in_background result) message).

(** [list_sessions_functional] (lines 3102-3132). *)
Definition list_sessions_functional
    (m : comprehensive_terminal_session_manager_with_background_support) (current_time : Z)
    : list_sessions_result :=
  let sessions := get_list_of_all_active_sessions_with_status m current_time in
  ListOk sessions (length sessions).

Section ToolLayer.

(** [f"{runtime:.2f}"] as in [Rendering]; the text of [readme(True)] (the
    tool documentation, or [''] when building it fails); [str(x)] for the
    float [x = round(runtime, 2)] of a [list] entry, given the difference of
    the two timestamps; the int that a float, given by its [repr], equals,
    if there is one; and, for a list or a dict, its [str] and the text of the
    [TypeError] that using it as a key raises. *)
Variable format_runtime : Z → string.
Variable readme_text : string.
Variable format_runtime_seconds : Z → string.
Variable float_as_int : string → option Z.
Variable py_str : py_value → string.
Variable unhashable_text : py_value → string.

(** [f"{value}"]. *)
Definition str_of_value (value : py_value) : string :=
  match value with
  | PyNone => "None"
  | PyBool b => if b then "True" else "False"
  | PyInt z => str_of_int z
  | PyFloat repr => repr
  | PyStr s => s
  | _ => py_str value
  end.

(** The key a value of a request is in a dict with int keys. *)
Definition key_of_value (session_id : py_value) : session_key :=
  match session_id with
  | PyInt z => KeyInt z
  | PyBool b => KeyInt (if b then 1 else 0)
  | PyFloat repr =>
      match float_as_int repr with
      | Some z => KeyInt z
      | None => KeyOfNoSession
      end
  | PyNone | PyStr _ => KeyOfNoSession
  | PyList _ | PyDict _ => KeyRaises (unhashable_text session_id)
  end.

(** The manager's [read] called with the values of a request: [inl] is the
    text of the exception it raises (at line 537 for an unhashable id, at
    line 553 for a timeout that cannot be divided).  The text of line 544
    shows the value as it came. *)
Definition read_with_request_values
    (m : comprehensive_terminal_session_manager_with_background_support)
    (session_id : py_value) (now : Z) (window : timeout_window)
    : comprehensive_terminal_session_manager_with_background_support
      * (string + string * bool) :=
  match key_of_value session_id with
  | KeyRaises e => (m, inl e)
  | KeyOfNoSession =>
      (m, inr ("No session found for ID " +:+ str_of_value session_id, false))
  | KeyInt id =>
      let '(m, outcome) := read_session_in_window m id now window in
      match outcome with
      | inl e => (m, inl e)
      | inr ReturnNoSession =>
          (m, inr ("No session found for ID " +:+ str_of_value session_id, false))
      | inr ret => (m, inr (read_value format_runtime id ret))
      end
  end.

(** [read_output_functional] (lines 3019-3058). *)
Definition read_output_functional
    (m : comprehensive_terminal_session_manager_with_background_support)
    (session_id : py_value) (now : Z) (window : timeout_window)
    : comprehensive_terminal_session_manager_with_background_support
      * read_output_result :=
  let '(m, outcome) := read_with_request_values m session_id now window in
  match outcome with
  | inr (output, timeout_reached) =>
      (m, ReadOutputOk session_id output timeout_reached
            (bool_decide (0 < String.length (strip output))%nat))
  | inl e =>
      (m, ReadOutputFailed
            ("Error reading output from session " +:+ str_of_value session_id
               +:+ ": " +:+ e)
            session_id)
  end.

(** The manager's [terminate] called with a value of a request: [inl] is the
    text of the exception that line 597 raises for an unhashable id. *)
Definition terminate_with_request_value
    (m : comprehensive_terminal_session_manager_with_background_support)
    (session_id : py_value) (stop : stop_outcome) (now : Z)
    : comprehensive_terminal_session_manager_with_background_support * (string + bool) :=
  match key_of_value session_id with
  | KeyRaises e => (m, inl e)
  | KeyOfNoSession => (m, inr false)
  | KeyInt id =>
      let '(m, success) := force_terminate_session_with_cleanup m id stop now in
      (m, inr success)
  end.

(** [force_terminate_functional] (lines 3060-3100). *)
Definition force_terminate_functional
    (m : comprehensive_terminal_session_manager_with_background_support)
    (session_id : py_value) (stop : stop_outcome) (now : Z)
    : comprehensive_terminal_session_manager_with_background_support
      * force_terminate_result :=
  let '(m, outcome) := terminate_with_request_value m session_id stop now in
  match outcome with
  | inr true =>
      (m, TerminateOk session_id
            ("Successfully terminated session " +:+ str_of_value session_id))
  | inr false =>
      (m, TerminateFailed session_id
            ("No active session found for ID " +:+ str_of_value session_id))
  | inl e =>
      (m, TerminateFailed session_id
            ("Error terminating session " +:+ str_of_value session_id
               +:+ ": " +:+ e))
  end.

(** [readme] (lines 3354-3366). *)
Definition readme (with_readme : bool) : string :=
  if with_readme then readme_text else "".

(** [create_error_response] (lines 3368-3371). *)
Definition create_error_response (error_msg : string) (with_readme : bool) : tool_response :=
  {| content := [error_msg +:+ readme with_readme];
     isError := true;
     extra_fields := [] |}.

(** [handle_execute_command] (lines 4687-4720); [command] is
    [params.get('command')], a string when it is there (the validation of
    the request sees to that), and [window] is what [timeout_ms] gives. *)
Definition handle_execute_command
    (m : comprehensive_terminal_session_manager_with_background_support)
    (command : option string) (popen : start_failure + process_behaviour) (now : Z)
    (window : timeout_window)
    : comprehensive_terminal_session_manager_with_background_support * tool_response :=
  if match command with Some c => truthy c | None => false end then
    let '(m, result) := execute_command_functional m popen now window in
    match result with
    | ExecuteStarted session_id initial_output is_running _ =>
        let response_text := "Command executed successfully" +:+ newline in
        let response_text :=
          response_text +:+ "Session ID: " +:+ str_of_int session_id +:+ newline in
        let response_text :=
          response_text +:+ "Status: "
            +:+ (if is_running then "Running in background" else "Completed")
            +:+ newline in
        let response_text :=
          response_text +:+ "Initial output:" +:+ newline +:+ initial_output in
        let response_text :=
          if is_running then
            response_text +:+ newline +:+ newline
              +:+ "Command is still running. Use read_output with session_id "
              +:+ str_of_int session_id +:+ " to get more output."
          else response_text in
        (m, {| content := [response_text];
               isError := false;
               extra_fields :=
                 [("session_id", FieldInt session_id);
                  ("is_running", FieldBool is_running)] |})
    | ExecuteFailed error _ => (m, create_error_response error false)
    end
  else (m, create_error_response "Missing required parameter: command" false).

(** [handle_read_output] (lines 4722-4757); [session_id] is
    [params.get('session_id')], any value of the request ([None] also when
    there is none), and [window] is what [timeout_ms] gives. *)
Definition handle_read_output
    (m : comprehensive_terminal_session_manager_with_background_support)
    (session_id : py_value) (now : Z) (window : timeout_window)
    : comprehensive_terminal_session_manager_with_background_support * tool_response :=
  match session_id with
  | PyNone => (m, create_error_response "Missing required parameter: session_id" false)
  | _ =>
      let '(m, result) := read_output_functional m session_id now window in
      match result with
      | ReadOutputOk _ output timeout_reached has_output =>
          let response_text :=
            "Output from session " +:+ str_of_value session_id +:+ ":" +:+ newline in
          let response_text :=
            if has_output then
              let response_text := response_text +:+ output in
              if timeout_reached
              then response_text +:+ newline +:+ "(timeout reached)"
              else response_text
            else
              let response_text := response_text +:+ "No new output available" in
              if timeout_reached
              then response_text +:+ " (timeout reached)"
              else response_text in
          (m, {| content := [response_text];
                 isError := false;
                 extra_fields :=
                   [("session_id", field_of_value session_id);
                    ("has_output", FieldBool has_output);
                    ("timeout_reached", FieldBool timeout_reached)] |})
      | ReadOutputFailed error _ => (m, create_error_response error false)
      end
  end.

(** [handle_force_terminate] (lines 4759-4781). *)
Definition handle_force_terminate
    (m : comprehensive_terminal_session_manager_with_background_support)
    (session_id : py_value) (stop : stop_outcome) (now : Z)
    : comprehensive_terminal_session_manager_with_background_support * tool_response :=
  match session_id with
  | PyNone => (m, create_error_response "Missing required parameter: session_id" false)
  | _ =>
      let '(m, result) := force_terminate_functional m session_id stop now in
      match result with
      | TerminateOk _ message =>
          (m, {| content := [message];
                 isError := false;
                 extra_fields := [("session_id", field_of_value session_id)] |})
      | TerminateFailed _ error => (m, create_error_response error false)
      end
  end.

(** The line of [handle_list_sessions] for one session. *)
Definition session_line (session : session_status) : string :=
  let response_text :=
    "Session " +:+ str_of_int (session_id session) +:+ ": "
      +:+ (if is_completed session then "Completed" else "Running")
      +:+ ", Runtime: " +:+ format_runtime_seconds (runtime session) +:+ "s" in
  let response_text :=
    if has_new_output session then response_text +:+ " (has new output)"
    else response_text in
  response_text +:+ ", Total output: "
    +:+ str_of_int (Z.of_nat (total_output_length session)) +:+ " chars" +:+ newline.

(** [handle_list_sessions] (lines 4783-4814). *)
Definition handle_list_sessions
    (m : comprehensive_terminal_session_manager_with_background_support) (current_time : Z)
    : tool_response :=
  match list_sessions_functional m current_time with
  | ListOk sessions total_sessions =>
      let response_text :=
        if bool_decide (length sessions = 0%nat) then "No active command sessions"
        else
          foldl (λ response_text session, response_text +:+ session_line session)
                ("Active command sessions ("
                   +:+ str_of_int (Z.of_nat (length sessions)) +:+ "):"
                   +:+ newline +:+ newline)
                sessions in
      {| content := [response_text];
         isError := false;
         extra_fields :=
           [("total_sessions", FieldInt (Z.of_nat total_sessions));
            ("sessions", FieldSessions sessions)] |}
  | ListFailed error => create_error_response error false
  end.

End ToolLayer.

(** The response of [handle_read_output] to a read that did not raise, given
    the tuple the read returned. *)
Definition read_response (py_str : py_value → string) (session_id : py_value)
    (output : string) (timeout_reached : bool) : tool_response :=
  let has_output := bool_decide (0 < String.length (strip output))%nat in
  {| content :=
       ["Output from session " +:+ str_of_value py_str session_id +:+ ":" +:+ newline
          +:+ (if has_output
               then output +:+ (if timeout_reached
                                then newline +:+ "(timeout reached)" else "")
               else "No new output available"
                      +:+ (if timeout_reached then " (timeout reached)" else ""))];
     isError := false;
     extra_fields :=
       [("session_id", field_of_value session_id);
        ("has_output", FieldBool has_output);
        ("timeout_reached", FieldBool timeout_reached)] |}.

(** A process that prints an empty line and then a word. *)
Definition blank_line_first : process_behaviour :=
  {| stdout_lines := [Line newline None; Line ("done" +:+ newline) None];
     stdout_rest := inl "";
     returncode_at_eof := None |}.

(** ** Parameter validation and dispatch
    (lines 1448-1595, 3300-3352 and 3653-3731) *)

(** One entry of ["properties"]: its ["type"], ["enum"] and ["default"]
    (the descriptions play no part). *)
Record param_schema : Type := {
  expected_type : string;
  enum : option (list string);
  default_value : option py_value
}.

Definition string_param : param_schema :=
  {| expected_type := "string"; enum := None; default_value := None |}.
Definition integer_param : param_schema :=
  {| expected_type := "integer"; enum := None; default_value := None |}.
Definition array_param : param_schema :=
  {| expected_type := "array"; enum := None; default_value := None |}.

(** The ["enum"] of ["operation"] (line 1452). *)
Definition valid_operations : list string :=
  ["readme"; "list_windows"; "activate_window"; "scan_ui_elements";
   "get_clickable_elements"; "move_window"; "click_at_coordinates";
   "click_at_screen_coordinates"; "take_screenshot"; "send_text";
   "click_ui_element"; "about"; "execute_command"; "read_output";
   "force_terminate"; "list_sessions"; "write_file"; "read_file"].

(** [TOOLS[0]["real_parameters"]["properties"]] (lines 1449-1592). *)
Definition real_parameters_properties : list (string * param_schema) :=
  [("operation",
    {| expected_type := "string"; enum := Some valid_operations; default_value := None |});
   ("include_all",
    {| expected_type := "boolean"; enum := None; default_value := Some (PyBool false) |});
   ("hwnd", string_param);
   ("request_focus",
    {| expected_type := "boolean"; enum := None; default_value := Some (PyBool false) |});
   ("window_title", string_param);
   ("x", integer_param);
   ("y", integer_param);
   ("width", integer_param);
   ("height", integer_param);
   ("tool_unlock_token", string_param);
   ("x_coordinate", integer_param);
   ("y_coordinate", integer_param);
   ("button",
    {| expected_type := "string";
       enum := Some ["left"; "right"; "middle"];
       default_value := Some (PyStr "left") |});
   ("text", string_param);
   ("filename", string_param);
   ("region", array_param);
   ("element_name", string_param);
   ("detail",
    {| expected_type := "string";
       enum := Some ["summary"; "full"];
       default_value := Some (PyStr "summary") |});
   ("section",
    {| expected_type := "string";
       enum := Some ["system_information"; "hardware_information"; "display_information";
                     "user_and_security_information"; "performance_information";
                     "software_environment"; "network_information";
                     "installed_applications"; "running_processes";
                     "browser_information"];
       default_value := None |});
   ("moves", array_param);
   ("command", string_param);
   ("timeout_ms",
    {| expected_type := "integer"; enum := None; default_value := Some (PyInt 30000) |});
   ("shell", string_param);
   ("session_id", integer_param);
   ("path", string_param);
   ("content", string_param)].

(** [TOOLS[0]["real_parameters"]["required"]] (line 1594). *)
Definition real_parameters_required : list string := ["operation"; "tool_unlock_token"].

(** The [return]s of [validate_parameters] that carry a message. *)
Inductive validation_error : Type :=
| UnexpectedParameters (unexpected expected : list string)   (* line 3317 *)
| MissingRequiredParameters (missing : list string)          (* line 3322 *)
| MustBeString (param_name : string) (value : py_value)      (* line 3333 *)
| MustBeBoolean (param_name : string) (value : py_value)     (* line 3335 *)
| MustBeOneOf (param_name : string) (allowed_values : list string)
    (value : py_value)                                       (* line 3341 *)
| RequiredParameterMissing (param_name : string).            (* line 3345 *)

(** [value not in allowed_values] for a list of strings: only an equal
    string is in it. *)
Definition not_in_allowed (value : py_value) (allowed_values : list string) : bool :=
  match value with
  | PyStr s => bool_decide (s ∉ allowed_values)
  | _ => true
  end.

(** The checks of one provided value (lines 3329-3341). *)
Definition check_value (param_name : string) (schema : param_schema) (value : py_value)
    : option validation_error :=
  if bool_decide (expected_type schema = "string")
     && negb (match value with PyStr _ => true | _ => false end)
  then Some (MustBeString param_name value)
  else if bool_decide (expected_type schema = "boolean")
          && negb (match value with PyBool _ => true | _ => false end)
  then Some (MustBeBoolean param_name value)
  else
    match enum schema with
    | Some allowed_values =>
        if not_in_allowed value allowed_values
        then Some (MustBeOneOf param_name allowed_values value)
        else None
    | None => None
    end.

(** The loop over [properties.items()] (lines 3325-3350). *)
Fixpoint validate_properties (required : list string) (input_param : list (string * py_value))
    (properties : list (string * param_schema)) (validated : list (string * py_value))
    : validation_error + list (string * py_value) :=
  match properties with
  | [] => inr validated
  | (param_name, schema) :: properties' =>
      match dict_get param_name input_param with
      | Some value =>
          match check_value param_name schema value with
          | Some e => inl e
          | None =>
              validate_properties required input_param properties'
                (dict_set param_name value validated)
          end
      | None =>
          if bool_decide (param_name ∈ required)
          then inl (RequiredParameterMissing param_name)
          else
            match default_value schema with
            | Some PyNone | None =>
                validate_properties required input_param properties' validated
            | Some default =>
                validate_properties required input_param properties'
                  (dict_set param_name default validated)
            end
      end
  end.

(** The body of [validate_parameters] for a given schema. *)
Definition validate_against (properties : list (string * param_schema))
    (required : list string) (input_param : list (string * py_value))
    : validation_error + list (string * py_value) :=
  let required :=
    if is_str "readme" (dict_get "operation" input_param)
    then ["operation"] else required in
  let unexpected_params := filter (λ k, k ∉ properties.*1) input_param.*1 in
  if bool_decide (unexpected_params ≠ []) then
    inl (UnexpectedParameters unexpected_params properties.*1)
  else
    let missing_required := filter (λ k, k ∉ input_param.*1) required in
    if bool_decide (missing_required ≠ []) then
      inl (MissingRequiredParameters missing_required)
    else validate_properties required input_param properties [].

Section Validation.

(** [str(value)] and the [repr] of a list of strings, as an f-string renders
    them: two builtins taken as given. *)
Variable py_str : py_value → string.
Variable repr_list : list string → string.

(** The message of each error [return]. *)
Definition error_text (e : validation_error) : string :=
  match e with
  | UnexpectedParameters unexpected expected =>
      "Unexpected parameters: " +:+ join_sorted unexpected
        +:+ ". Expected: " +:+ join_sorted expected
  | MissingRequiredParameters missing =>
      "Missing required parameters: " +:+ join_sorted missing
  | MustBeString param_name value =>
      "Parameter '" +:+ param_name +:+ "' must be a string, got " +:+ type_name value
  | MustBeBoolean param_name value =>
      "Parameter '" +:+ param_name +:+ "' must be a boolean, got " +:+ type_name value
  | MustBeOneOf param_name allowed_values value =>
      "Parameter '" +:+ param_name +:+ "' must be one of " +:+ repr_list allowed_values
        +:+ ", got '" +:+ py_str value +:+ "'"
  | RequiredParameterMissing param_name =>
      "Required parameter '" +:+ param_name +:+ "' is missing"
  end.

(** [validate_parameters] (lines 3300-3352). *)
Definition validate_parameters (input_param : list (string * py_value))
    : option string * list (string * py_value) :=
  match validate_against real_parameters_properties real_parameters_required input_param with
  | inl e => (Some (error_text e), [])
  | inr validated => (None, validated)
  end.

End Validation.

(** The operations [handle_system] has a handler for, in the order of its
    [elif] chain (lines 3688-3721). *)
Definition dispatched_operations : list string :=
  ["list_windows"; "activate_window"; "scan_ui_elements"; "get_clickable_elements";
   "move_window"; "click_at_coordinates"; "click_at_screen_coordinates";
   "take_screenshot"; "send_text"; "click_ui_element"; "about"; "execute_command";
   "read_output"; "force_terminate"; "list_sessions"; "write_file"; "read_file"].

(** What calling a handler comes to: the dict it returns, or the text of
    the exception it lets through. *)
Inductive handler_outcome (Response : Type) : Type :=
| HandlerReturned (response : Response)
| HandlerRaised (exception_text : string).
Arguments HandlerReturned {Response} response.
Arguments HandlerRaised {Response} exception_text.

Section Dispatch.

(** The state of the machine the handlers act on and the dicts they return;
    the handler of each dispatched operation; the module's token; the text of
    [readme(True)]; the builtins of [Validation]; and the text of the
    exception [input_param.pop('handler_info', None)] raises on a value that
    is no dict. *)
Variable World : Type.
Variable Response : Type.
Variable handle_operation :
  string → list (string * py_value) → World → World * handler_outcome Response.
Variable TOOL_UNLOCK_TOKEN : string.
Variable readme_text : string.
Variable py_str : py_value → string.
Variable repr_list : list string → string.
Variable pop_exception_text : py_value → string.

(** The request [handle_system] goes on with after lines 3657-3660: the
    value under ["input"] if the dict has one, else the dict less its
    ["handler_info"]. *)
Definition unwrapped_input (entries : list (string * py_value)) : py_value :=
  let entries := dict_remove "handler_info" entries in
  match dict_get "input" entries with
  | Some inner => inner
  | None => PyDict entries
  end.

(** The response of lines 3664-3667 and 3723-3726. *)
Definition readme_response : tool_response :=
  {| content := [readme readme_text true]; isError := false; extra_fields := [] |}.

(** The response of lines 3727-3729. *)
Definition unknown_operation_response (operation : py_value) : tool_response :=
  create_error_response readme_text
    ("Unknown operation: '" +:+ py_str operation +:+ "'. Available operations: "
       +:+ join_comma valid_operations)
    true.

(** [handle_system] (lines 3653-3731): [inl] is a response it builds
    itself, [inr] the dict a handler returned. *)
Definition handle_system (input_param : py_value) (w : World)
    : World * (tool_response + Response) :=
  match input_param with
  | PyDict entries =>
      match unwrapped_input entries with
      | PyDict input_param =>
          if is_str "readme" (dict_get "operation" input_param) then
            (w, inl readme_response)
          else if negb (is_str TOOL_UNLOCK_TOKEN (dict_get "tool_unlock_token" input_param)) then
            (w, inl (create_error_response readme_text
                       "Invalid or missing tool_unlock_token. Please call with operation='readme' first to get the token."
                       true))
          else
            let '(error_msg, validated_params) :=
              validate_parameters py_str repr_list input_param in
            if match error_msg with Some msg => truthy msg | None => false end then
              (w, inl (create_error_response readme_text (default "" error_msg) true))
            else
              match dict_get "operation" validated_params with
              | Some (PyStr operation) =>
                  if bool_decide (operation ∈ dispatched_operations) then
                    let '(w, outcome) := handle_operation operation validated_params w in
                    match outcome with
                    | HandlerReturned response => (w, inr response)
                    | HandlerRaised exception_text =>
                        (w, inl (create_error_response readme_text
                                   ("Error in system operation: " +:+ exception_text) true))
                    end
                  else if bool_decide (operation = "readme") then
                    (w, inl readme_response)
                  else (w, inl (unknown_operation_response (PyStr operation)))
              | Some operation => (w, inl (unknown_operation_response operation))
              | None => (w, inl (unknown_operation_response PyNone))
              end
      | _ =>
          (w, inl (create_error_response readme_text
                     "Invalid input format. Expected dictionary with tool parameters." true))
      end
  | _ =>
      (w, inl (create_error_response readme_text
                 ("Error in system operation: " +:+ pop_exception_text input_param) true))
  end.

End Dispatch.

(** ** Moving windows (lines 3505-3651) *)

(** What a call of [move_window_functional] comes to: the pair it returns,
    or the exception it raises ([ValueError] or another). *)
Inductive move_outcome : Type :=
| MoveReturned (success : bool) (message : string)
| MoveRaised (is_value_error : bool) (exception_text : string).

(** [isinstance(value, int)], with the integer ([bool] is a subclass). *)
Definition int_value (value : py_value) : option Z :=
  match value with
  | PyInt z => Some z
  | PyBool b => Some (if b then 1 else 0)
  | _ => None
  end.

(** [str(KeyError(key))] for these keys. *)
Definition key_error_text (key : string) : string := "'" +:+ key +:+ "'".

(** [d.get(key)] as a value. *)
Definition dict_get_or_None (key : string) (d : list (string * py_value)) : py_value :=
  default PyNone (dict_get key d).

Section MoveWindow.

(** The state of the desktop and the platform's [move_window_functional];
    [f"{z:08X}"] and [str(value)] of a value that is no string; the two
    status marks of line 3598; the text of [readme(True)]. *)
Variable World : Type.
Variable move_window_functional :
  py_value → py_value → py_value → py_value → py_value → World → World * move_outcome.
Variable format_08X : Z → string.
Variable py_str : py_value → string.
Variable check_mark cross_mark : string.
Variable readme_text : string.

(** [f"{value}"]. *)
Definition format_value (value : py_value) : string :=
  match value with
  | PyStr s => s
  | _ => py_str value
  end.

(** The entry of the [except] branch (lines 3556-3564). *)
Definition failed_move (i : Z) (move : list (string * py_value)) (exception_text : string)
    : move_result :=
  {| move_index := i + 1;
     hwnd := default (PyStr "unknown") (dict_get "hwnd" move);
     target_position :=
       (dict_get_or_None "x" move, dict_get_or_None "y" move,
        dict_get_or_None "width" move, dict_get_or_None "height" move);
     success := false;
     message := "Error processing move: " +:+ exception_text |}.

(** One iteration of the loop of [move_windows_batch_functional]
    (lines 3525-3564) on a move that is a dict. *)
Definition process_move (i : Z) (move : list (string * py_value)) (w : World)
    : World * move_result :=
  match dict_get "hwnd" move with
  | None => (w, failed_move i move (key_error_text "hwnd"))
  | Some hwnd_value =>
      let hwnd_str :=
        match int_value hwnd_value with
        | Some z => "0x" +:+ format_08X z
        | None => format_value hwnd_value
        end in
      match dict_get "x" move with
      | None => (w, failed_move i move (key_error_text "x"))
      | Some x =>
      match dict_get "y" move with
      | None => (w, failed_move i move (key_error_text "y"))
      | Some y =>
      match dict_get "width" move with
      | None => (w, failed_move i move (key_error_text "width"))
      | Some width =>
      match dict_get "height" move with
      | None => (w, failed_move i move (key_error_text "height"))
      | Some height =>
          let '(w, outcome) :=
            move_window_functional (PyStr hwnd_str) x y width height w in
          match outcome with
          | MoveReturned success message =>
              (w, {| move_index := i + 1;
                     hwnd := PyStr hwnd_str;
                     target_position := (x, y, width, height);
                     success := success;
                     message := message |})
          | MoveRaised _ exception_text => (w, failed_move i move exception_text)
          end
      end end end end
  end.

(** The loop (lines 3525-3564), from index [i] on. *)
Fixpoint batch_loop (i : Z) (moves : list (list (string * py_value))) (w : World)
    (results : list move_result) (successful_moves failed_moves : Z)
    : World * (list move_result * Z * Z) :=
  match moves with
  | [] => (w, (results, successful_moves, failed_moves))
  | move :: moves' =>
      let '(w, result) := process_move i move w in
      if success result
      then batch_loop (i + 1) moves' w (results ++ [result])
             (successful_moves + 1) failed_moves
      else batch_loop (i + 1) moves' w (results ++ [result])
             successful_moves (failed_moves + 1)
  end.

(** [move_windows_batch_functional] (lines 3505-3569), for a list of dicts. *)
Definition move_windows_batch_functional (moves : list (list (string * py_value)))
    (w : World) : World * (bool * string * list move_result) :=
  let '(w, (results, successful_moves, failed_moves)) := batch_loop 0 moves w [] 0 0 in
  let overall_success := bool_decide (failed_moves = 0) in
  let summary :=
    "Batch move completed: " +:+ str_of_int successful_moves +:+ " successful, "
      +:+ str_of_int failed_moves +:+ " failed out of "
      +:+ str_of_int (Z.of_nat (length moves)) +:+ " total moves" in
  (w, (overall_success, summary, results)).

(** The first complaint of the validation loop of [handle_move_window]
    (lines 3582-3590), from index [i] on. *)
Fixpoint first_invalid_move (i : Z) (moves : list py_value) : option string :=
  match moves with
  | [] => None
  | move :: moves' =>
      match move with
      | PyDict entries =>
          match filter (λ field, field ∉ entries.*1) ["hwnd"; "x"; "y"; "width"; "height"] with
          | field :: _ =>
              Some ("Move " +:+ str_of_int (i + 1) +:+ " missing required field '"
                      +:+ field +:+ "'")
          | [] => first_invalid_move (i + 1) moves'
          end
      | _ =>
          Some ("Move " +:+ str_of_int (i + 1)
                  +:+ " must be an object with hwnd, x, y, width, height")
      end
  end.

(** The entries of a list of dicts. *)
Definition dicts_of (moves : list py_value) : list (list (string * py_value)) :=
  omap (λ move, match move with PyDict entries => Some entries | _ => None end) moves.

(** The line of one result (lines 3598-3600). *)
Definition detail_text (result : move_result) : string :=
  let '(x, y, width, height) := target_position result in
  (if success result then check_mark else cross_mark)
    +:+ " Move " +:+ str_of_int (move_index result) +:+ ": " +:+ format_value (hwnd result)
    +:+ " -> (" +:+ format_value x +:+ ", " +:+ format_value y +:+ ", "
    +:+ format_value width +:+ "x" +:+ format_value height +:+ ") - " +:+ message result.

(** [handle_move_window] (lines 3571-3651). *)
Definition handle_move_window (params : list (string * py_value)) (w : World)
    : World * tool_response :=
  let moves := dict_get_or_None "moves" params in
  if py_truthy moves then
    match moves with
    | PyList ((_ :: _) as moves) =>
        match first_invalid_move 0 moves with
        | Some error_msg => (w, create_error_response readme_text error_msg true)
        | None =>
            let '(w, (overall_success, summary, results)) :=
              move_windows_batch_functional (dicts_of moves) w in
            (w, {| content := summary :: (detail_text <$> results);
                   isError := negb overall_success;
                   extra_fields :=
                     [("batch_results", FieldBatch summary overall_success results)] |})
        end
    | _ =>
        (w, create_error_response readme_text
              "Parameter 'moves' must be a non-empty array" true)
    end
  else
    let hwnd_str := dict_get_or_None "hwnd" params in
    let x := dict_get_or_None "x" params in
    let y := dict_get_or_None "y" params in
    let width := dict_get_or_None "width" params in
    let height := dict_get_or_None "height" params in
    let is_None value := match value with PyNone => true | _ => false end in
    if negb (py_truthy hwnd_str) then
      (w, create_error_response readme_text "Missing required parameter 'hwnd'" true)
    else if is_None x then
      (w, create_error_response readme_text "Missing required parameter 'x'" true)
    else if is_None y then
      (w, create_error_response readme_text "Missing required parameter 'y'" true)
    else if is_None width then
      (w, create_error_response readme_text "Missing required parameter 'width'" true)
    else if is_None height then
      (w, create_error_response readme_text "Missing required parameter 'height'" true)
    else
      let '(w, outcome) := move_window_functional hwnd_str x y width height w in
      match outcome with
      | MoveReturned true message =>
          (w, {| content := [message]; isError := false; extra_fields := [] |})
      | MoveReturned false message =>
          (w, create_error_response readme_text message false)
      | MoveRaised true exception_text =>
          (w, create_error_response readme_text
                ("Invalid parameter: " +:+ exception_text) true)
      | MoveRaised false exception_text =>
          (w, create_error_response readme_text
                ("Error moving window: " +:+ exception_text) true)
      end.

End MoveWindow.

(** The defaults a schema fills in for absent parameters (lines 3347-3350). *)
Definition defaults_of (properties : list (string * param_schema))
    : list (string * py_value) :=
  omap (λ p, match default_value p.2 with
             | Some PyNone | None => None
             | Some default => Some (p.1, default)
             end) properties.

(** The three checks of one provided value, spelt out. *)
Definition value_fits (schema : param_schema) (value : py_value) : Prop :=
  (expected_type schema = "string" → ∃ s, value = PyStr s) ∧
  (expected_type schema = "boolean" → ∃ b, value = PyBool b) ∧
  (∀ allowed_values, enum schema = Some allowed_values →
     ∃ s, value = PyStr s ∧ s ∈ allowed_values).

(** A move that passes the validation of [handle_move_window]: a dict with
    the five fields. *)
Definition valid_move (move : py_value) : Prop :=
  ∃ entries, move = PyDict entries ∧
    ∀ field, field ∈ ["hwnd"; "x"; "y"; "width"; "height"] → field ∈ entries.*1.

(** How many of the results succeeded, and how many failed. *)
Definition count_successful (results : list move_result) : Z :=
  Z.of_nat (length (filter (λ result, success result = true) results)).
Definition count_failed (results : list move_result) : Z :=
  Z.of_nat (length (filter (λ result, success result = false) results)).

(** The iterations of the loop of [move_windows_batch_functional] on
    [moves], from index [i] on, each in the state that the ones before it
    have left: the final state and the entries appended to [results]. *)
Fixpoint moves_in_turn {World : Type}
    (move_window_functional :
       py_value → py_value → py_value → py_value → py_value → World → World * move_outcome)
    (format_08X : Z → string) (py_str : py_value → string)
    (i : Z) (moves : list (list (string * py_value))) (w : World)
    : World * list move_result :=
  match moves with
  | [] => (w, [])
  | move :: moves' =>
      let '(w, result) :=
        process_move World move_window_functional format_08X py_str i move w in
      let '(w, results) :=
        moves_in_turn move_window_functional format_08X py_str (i + 1) moves' w in
      (w, result :: results)
  end.

(** * Properties *)

(** ** Scenarios of the specification *)

Example echo_hello_items :
  output_reader_thread echo_hello = [Output ("hello" +:+ newline); Completed None].
Proof. reflexivity. Qed.

Example start_echo_hello :
  (start_command_execution_with_timeout_and_background_support
     init (inr echo_hello) 0 (Window [got_item; got_item; got_item])).2
  = {| process_id := 1;
       initial_output_text := "hello" +:+ newline;
       command_is_still_running_in_background := false;
       error_message := None |}.
Proof. reflexivity. Qed.

Example read_unused_id :
  (read_new_output_from_session_with_timeout two_decimals init 999 0 [nothing_yet]).2
  = ("No session found for ID 999", false).
Proof. reflexivity. Qed.

(** A second command is started with a window in which nothing arrives, read,
    terminated, and is then no longer listed. *)
Example start_read_terminate_list :
  let m1 := run [OpStart (inr echo_hello) 0 (Window [got_item; got_item])] in
  let started :=
    start_command_execution_with_timeout_and_background_support
      m1 (inr counting) 1 (Window [nothing_yet]) in
  let read := read_new_output_from_session_with_timeout two_decimals started.1 2 2 [got_item] in
  let stopped := force_terminate_session_with_cleanup read.1 2 Stopped 3 in
  process_id started.2 = 2
  ∧ command_is_still_running_in_background started.2 = true
  ∧ read.2 = ("1" +:+ newline, false)
  ∧ stopped.2 = true
  ∧ session_id <$> get_list_of_all_active_sessions_with_status stopped.1 4 = [1].
Proof. by vm_compute. Qed.

(** ** Strings and queues *)

Lemma append_nil_r (s : string) : s +:+ "" = s.
Proof.
  induction s as [|a s IH]; [reflexivity|].
  change (String a (s +:+ "") = String a s). by rewrite IH.
Qed.

Lemma append_assoc (s1 s2 s3 : string) : (s1 +:+ s2) +:+ s3 = s1 +:+ (s2 +:+ s3).
Proof.
  induction s1 as [|a s1 IH]; [reflexivity|].
  change (String a ((s1 +:+ s2) +:+ s3) = String a (s1 +:+ (s2 +:+ s3))).
  by rewrite IH.
Qed.

Lemma truthy_false (s : string) : truthy s = false ↔ s = "".
Proof. destruct s; simpl; split; congruence. Qed.

Lemma output_of_app (xs ys : list queue_item) :
  output_of (xs ++ ys) = output_of xs +:+ output_of ys.
Proof.
  induction xs as [|[c|c|c] xs IH]; simpl; [reflexivity| |done..].
  by rewrite IH, append_assoc.
Qed.

Lemma taken_items_app (taken rest : list queue_item) :
  taken_items (taken ++ rest) rest = taken.
Proof.
  unfold taken_items. rewrite length_app.
  replace (length taken + length rest - length rest)%nat with (length taken) by lia.
  by rewrite take_app_length.
Qed.

Lemma join_app (xs ys : list string) : join (xs ++ ys) = join xs +:+ join ys.
Proof.
  induction xs as [|x xs IH]; simpl; [reflexivity|].
  by rewrite IH, append_assoc.
Qed.

(** ** The reader thread *)

Lemma reader_loop_outputs (rs : list readline_result) :
  Forall (λ item, ∃ content, item = Output content ∧ truthy content = true)
         (reader_loop rs).1.
Proof.
  induction rs as [|[text poll|message] rs IH]; simpl; [done| |done].
  destruct (truthy text) eqn:Htext; [|done].
  destruct poll as [returncode|]; simpl.
  - constructor; [by exists text|done].
  - destruct (reader_loop rs) as [items e]. simpl in *.
    constructor; [by exists text|done].
Qed.

(** The thread puts non-empty output chunks and then exactly one last item,
    ['completed'] or ['error']. *)
Lemma output_reader_thread_shape (p : process_behaviour) :
  ∃ chunks last,
    output_reader_thread p = chunks ++ [last]
    ∧ Forall (λ item, ∃ content, item = Output content ∧ truthy content = true) chunks
    ∧ is_output last = false.
Proof.
  unfold output_reader_thread.
  pose proof (reader_loop_outputs (stdout_lines p)) as Hitems.
  destruct (reader_loop (stdout_lines p)) as [items e]. simpl in Hitems.
  assert (∀ rc, ∃ chunks last,
            match stdout_rest p with
            | inl remaining_output =>
                items ++ (if truthy remaining_output then [Output remaining_output] else [])
                ++ [Completed rc]
            | inr message => items ++ [Error message]
            end = chunks ++ [last]
            ∧ Forall (λ item, ∃ content, item = Output content ∧ truthy content = true)
                     chunks
            ∧ is_output last = false) as Hrest.
  { intros rc. destruct (stdout_rest p) as [remaining_output|message].
    - destruct (truthy remaining_output) eqn:Hrem.
      + exists (items ++ [Output remaining_output]), (Completed rc).
        rewrite <- app_assoc. split_and!; [done| |done].
        apply Forall_app. split; [done|]. constructor; [by eexists|done].
      + by exists items, (Completed rc).
    - by exists items, (Error message). }
  destruct e as [|returncode|message]; [apply Hrest..|].
  by exists items, (Error message).
Qed.

(** ** The two drain loops *)

(** What [start]'s loop does to a session, by the way it is left. *)
Lemma start_drain_inv (ticks : list tick) :
  ∀ session initial_output session' initial_output' e,
    start_drain ticks session initial_output = (session', initial_output', e) →
    ∃ taken,
      output_queue session = taken ++ output_queue session'
      ∧ initial_output' = initial_output +:+ output_of taken
      ∧ accumulated_output_buffer session'
        = accumulated_output_buffer session +:+ output_of taken
      ∧ newly_available_output_since_last_read session'
        = newly_available_output_since_last_read session +:+ output_of taken
      ∧ match e with
        | WindowElapsed =>
            Forall is_output taken
            ∧ command_execution_has_completed session'
              = command_execution_has_completed session
        | BreakOnCompleted =>
            (∃ pre content, taken = pre ++ [Completed content] ∧ Forall is_output pre
                            ∧ last_exit_code session' = content)
            ∧ command_execution_has_completed session' = true
        | BreakOnPoll =>
            Forall is_output taken
            ∧ (∃ t returncode, t ∈ ticks ∧ process_poll t = Some returncode
                               ∧ last_exit_code session' = Some returncode)
            ∧ command_execution_has_completed session' = true
        | ReturnOnError content =>
            (∃ pre, taken = pre ++ [Error content] ∧ Forall is_output pre)
            ∧ command_execution_has_completed session'
              = command_execution_has_completed session
        end.
Proof.
  induction ticks as [|t ticks IH]; intros s io s' io' e; simpl.
  - intros [= <- <- <-]. exists []. by rewrite !append_nil_r.
  - unfold queue_get.
    destruct (item_arrived t), (output_queue s) as [|[c|c|c] rest] eqn:Hq; simpl.
    2:{ intros H. apply IH in H as (taken & Hq' & Hio & Hacc & Hnew & He).
        simpl in *. exists (Output c :: taken). simpl.
        rewrite Hq', Hio, Hacc, Hnew, !append_assoc. repeat split; try done.
        destruct e.
        - destruct He as [HF Hc]. split; [by constructor|done].
        - destruct He as [(pre & c' & -> & HF & Hc) Hflag]. split; [|done].
          exists (Output c :: pre), c'. repeat split; try done. by constructor.
        - destruct He as (HF & (t' & rc & Ht' & Hp & Hc) & Hflag).
          repeat split; try done; [by constructor|].
          exists t', rc. repeat split; try done. by right.
        - destruct He as [(pre & -> & HF) Hflag]. split; [|done].
          exists (Output c :: pre). split; [done|by constructor]. }
    2:{ intros [= <- <- <-]. exists [Completed c]. simpl.
        rewrite !append_nil_r. repeat split; try done. by exists [], c. }
    2:{ intros [= <- <- <-]. exists [Error c]. simpl.
        rewrite !append_nil_r. repeat split; try done. by exists []. }
    all: destruct (process_poll t) as [rc|] eqn:Hp.
    all: try (intros [= <- <- <-]; exists []; simpl; rewrite !append_nil_r;
              repeat split; try done; exists t, rc; repeat split; try done; by left).
    all: intros H; apply IH in H as (taken & Hq' & Hio & Hacc & Hnew & He);
      exists taken; split; [congruence|]; repeat split; try done.
    all: destruct e; try exact He.
    all: destruct He as (HF & (t' & rc & Ht' & Hp' & Hc) & Hflag);
      repeat split; try done; exists t', rc; repeat split; try done; by right.
Qed.

Lemma append_nil_l (s : string) : "" +:+ s = s.
Proof. reflexivity. Qed.

(** *** Which iteration ends [start]'s loop *)

Lemma got_at_first (t : tick) (ticks : list tick) (q : list queue_item) :
  got_at (t :: ticks) q 0 = if item_arrived t then head q else None.
Proof. unfold got_at. simpl. destruct (item_arrived t); [|done]. by destruct q. Qed.

Lemma got_at_next (t : tick) (ticks : list tick) (q : list queue_item) (k : nat) :
  got_at (t :: ticks) q (S k) = got_at ticks (if item_arrived t then tail q else q) k.
Proof.
  unfold got_at, arrivals. simpl. destruct (ticks !! k) as [t'|]; [|done].
  destruct (item_arrived t') eqn:Ht'; [|done].
  rewrite filter_cons. destruct (item_arrived t) eqn:Ht.
  - rewrite decide_True by done. simpl. by destruct q.
  - by rewrite decide_False by done.
Qed.

Lemma ends_loop_next (t : tick) (ticks : list tick) (q : list queue_item) (k : nat) :
  ends_loop (t :: ticks) q (S k)
  ↔ ends_loop ticks (if item_arrived t then tail q else q) k.
Proof. unfold ends_loop. by rewrite got_at_next. Qed.

Lemma ends_loop_first_here (ticks : list tick) (q : list queue_item) :
  ends_loop ticks q 0 → ends_loop_first ticks q 0.
Proof. intros Hends. split; [done|]. intros j Hj. lia. Qed.

Lemma ends_loop_first_next (t : tick) (ticks : list tick) (q : list queue_item) (k : nat) :
  ¬ ends_loop (t :: ticks) q 0 →
  ends_loop_first ticks (if item_arrived t then tail q else q) k →
  ends_loop_first (t :: ticks) q (S k).
Proof.
  intros Hnot [Hends Hfirst]. split; [by apply ends_loop_next|].
  intros [|j] Hj; [done|]. rewrite ends_loop_next. apply Hfirst. lia.
Qed.

(** Only one iteration ends the loop. *)
Lemma ends_loop_first_unique (ticks : list tick) (q : list queue_item) (k k' : nat) :
  ends_loop_first ticks q k → ends_loop_first ticks q k' → k = k'.
Proof.
  intros [Hends Hfirst] [Hends' Hfirst'].
  destruct (Nat.lt_trichotomy k k') as [Hlt|[->|Hlt]]; [|done|].
  - by destruct (Hfirst' k Hlt).
  - by destruct (Hfirst k' Hlt).
Qed.

(** How [start]'s loop is left, told by the iterations and the queue alone. *)
Lemma start_drain_ends (ticks : list tick) :
  ∀ session initial_output,
    let drained := start_drain ticks session initial_output in
    let q := output_queue session in
    match drained.2 with
    | WindowElapsed => ∀ k, ¬ ends_loop ticks q k
    | BreakOnCompleted =>
        ∃ k content,
          ends_loop_first ticks q k ∧ got_at ticks q k = Some (Completed content)
          ∧ last_exit_code drained.1.1 = content
    | BreakOnPoll =>
        ∃ k t returncode,
          ends_loop_first ticks q k ∧ ticks !! k = Some t ∧ got_at ticks q k = None
          ∧ process_poll t = Some returncode
          ∧ last_exit_code drained.1.1 = Some returncode
    | ReturnOnError content =>
        ∃ k, ends_loop_first ticks q k ∧ got_at ticks q k = Some (Error content)
    end.
Proof.
  induction ticks as [|t ticks IH]; intros session initial_output; simpl.
  { intros k Hends. unfold ends_loop in Hends. by rewrite lookup_nil in Hends. }
  assert (∀ session' initial_output',
            output_queue session' = (if item_arrived t then tail (output_queue session)
                                     else output_queue session) →
            ¬ ends_loop (t :: ticks) (output_queue session) 0 →
            let drained := start_drain ticks session' initial_output' in
            match drained.2 with
            | WindowElapsed => ∀ k, ¬ ends_loop (t :: ticks) (output_queue session) k
            | BreakOnCompleted =>
                ∃ k content,
                  ends_loop_first (t :: ticks) (output_queue session) k
                  ∧ got_at (t :: ticks) (output_queue session) k = Some (Completed content)
                  ∧ last_exit_code drained.1.1 = content
            | BreakOnPoll =>
                ∃ k t' returncode,
                  ends_loop_first (t :: ticks) (output_queue session) k
                  ∧ (t :: ticks) !! k = Some t'
                  ∧ got_at (t :: ticks) (output_queue session) k = None
                  ∧ process_poll t' = Some returncode
                  ∧ last_exit_code drained.1.1 = Some returncode
            | ReturnOnError content =>
                ∃ k, ends_loop_first (t :: ticks) (output_queue session) k
                     ∧ got_at (t :: ticks) (output_queue session) k = Some (Error content)
            end) as Hgo_on.
  { intros session' initial_output' Hq Hnot drained. subst drained.
    specialize (IH session' initial_output'). simpl in IH. rewrite Hq in IH.
    destruct (start_drain ticks session' initial_output') as [[s1 io1] e]. simpl in *.
    destruct e as [| | |content].
    - intros [|k]; [done|]. rewrite ends_loop_next. apply IH.
    - destruct IH as (k & content & Hfirst & Hgot & Hcode).
      exists (S k), content. rewrite got_at_next.
      split_and!; [by apply ends_loop_first_next|done|done].
    - destruct IH as (k & t' & returncode & Hfirst & Ht' & Hgot & Hpoll & Hcode).
      exists (S k), t', returncode. rewrite got_at_next.
      split_and!; [by apply ends_loop_first_next|done..].
    - destruct IH as (k & Hfirst & Hgot).
      exists (S k). rewrite got_at_next.
      split; [by apply ends_loop_first_next|done]. }
  unfold queue_get.
  destruct (item_arrived t) eqn:Harrived.
  - destruct (output_queue session) as [|[content|content|content] rest] eqn:Hqueue.
    + destruct (process_poll t) as [returncode|] eqn:Hpoll; simpl.
      * exists 0%nat, t, returncode.
        assert (got_at (t :: ticks) [] 0 = None) as Hgot
          by (by rewrite got_at_first, Harrived).
        split_and!; [|done|done|done|done].
        apply ends_loop_first_here. unfold ends_loop. simpl lookup.
        rewrite Hgot, Hpoll. eauto.
      * apply Hgo_on; [by rewrite Hqueue|].
        unfold ends_loop. simpl lookup.
        rewrite got_at_first, Harrived, Hpoll. simpl. by intros [? [=]].
    + apply (Hgo_on _ (initial_output +:+ content)); [reflexivity|].
      unfold ends_loop. simpl lookup. rewrite got_at_first, Harrived. simpl. tauto.
    + simpl. exists 0%nat, content.
      assert (got_at (t :: ticks) (Completed content :: rest) 0 = Some (Completed content))
        as Hgot by (by rewrite got_at_first, Harrived).
      split_and!; [|done|done].
      apply ends_loop_first_here. unfold ends_loop. simpl lookup. by rewrite Hgot.
    + simpl. exists 0%nat.
      assert (got_at (t :: ticks) (Error content :: rest) 0 = Some (Error content))
        as Hgot by (by rewrite got_at_first, Harrived).
      split; [|done].
      apply ends_loop_first_here. unfold ends_loop. simpl lookup. by rewrite Hgot.
  - assert (got_at (t :: ticks) (output_queue session) 0 = None) as Hgot
      by (by rewrite got_at_first, Harrived).
    destruct (process_poll t) as [returncode|] eqn:Hpoll; simpl.
    + exists 0%nat, t, returncode. split_and!; [|done..].
      apply ends_loop_first_here. unfold ends_loop. simpl lookup.
      rewrite Hgot, Hpoll. eauto.
    + apply Hgo_on; [done|].
      unfold ends_loop. simpl lookup. rewrite Hgot, Hpoll. by intros [? [=]].
Qed.

(** What the blocking part of [read] does to a session, by its [return]. *)
Lemma read_drain_inv (ticks : list tick) :
  ∀ session session' ret,
    read_drain ticks session "" = (session', ret) →
    ∃ taken,
      output_queue session = taken ++ output_queue session'
      ∧ accumulated_output_buffer session'
        = accumulated_output_buffer session +:+ output_of taken
      ∧ newly_available_output_since_last_read session'
        = newly_available_output_since_last_read session
      ∧ output_of taken = fresh_output ret
      ∧ match ret with
        | ReturnOutput new_output =>
            truthy new_output = true ∧ Forall is_output taken
            ∧ command_execution_has_completed session'
              = command_execution_has_completed session
        | ReturnCompleted content new_output =>
            new_output = ""
            ∧ (∃ pre, taken = pre ++ [Completed content] ∧ Forall is_output pre)
            ∧ command_execution_has_completed session' = true
            ∧ last_exit_code session' = content
        | ReturnError content =>
            (∃ pre, taken = pre ++ [Error content] ∧ Forall is_output pre)
            ∧ command_execution_has_completed session'
              = command_execution_has_completed session
        | ReturnAlreadyCompleted code new_output =>
            new_output = "" ∧ Forall is_output taken
            ∧ command_execution_has_completed session' = true
            ∧ command_execution_has_completed session = true
            ∧ code = last_exit_code session
        | ReturnTimeout new_output =>
            new_output = "" ∧ Forall is_output taken
            ∧ command_execution_has_completed session'
              = command_execution_has_completed session
        | ReturnArchived _ | ReturnNoSession | ReturnPending _ => False
        end.
Proof.
  induction ticks as [|t ticks IH]; intros s s' ret; simpl.
  - intros [= <- <-]. exists []. simpl. by rewrite append_nil_r.
  - destruct (queue_get t (output_queue s)) as [[[c|c|c] rest]|] eqn:Hget.
    + assert (output_queue s = Output c :: rest) as Hq.
      { unfold queue_get in Hget.
        destruct (item_arrived t), (output_queue s); naive_solver. }
      rewrite append_nil_l. destruct (truthy c) eqn:Hc.
      * intros [= <- <-]. exists [Output c]. simpl.
        rewrite append_nil_r. by repeat split; try done; repeat constructor.
      * apply truthy_false in Hc as ->. intros H.
        apply IH in H as (taken & Hq' & Hacc & Hnew & Hout & Hret).
        simpl in *. exists (Output "" :: taken). simpl.
        rewrite Hq, Hq', Hacc, append_nil_r, append_nil_l.
        repeat split; try done.
        destruct ret; try done.
        -- destruct Hret as (-> & (pre & -> & HF) & Hflag & Hcode).
           repeat split; try done. exists (Output "" :: pre).
           split; [done|by constructor].
        -- destruct Hret as [(pre & -> & HF) Hflag]. split; [|done].
           exists (Output "" :: pre). split; [done|by constructor].
        -- destruct Hret as (Ht & HF & Hflag). by repeat split; try constructor.
        -- destruct Hret as (-> & HF & Hflag & Hflag' & Hcode).
           by repeat split; try constructor.
        -- destruct Hret as (-> & HF & Hflag). by repeat split; try constructor.
    + assert (output_queue s = Completed c :: rest) as Hq.
      { unfold queue_get in Hget.
        destruct (item_arrived t), (output_queue s); naive_solver. }
      intros [= <- <-]. exists [Completed c]. simpl.
      rewrite append_nil_r. repeat split; try done. by exists [].
    + assert (output_queue s = Error c :: rest) as Hq.
      { unfold queue_get in Hget.
        destruct (item_arrived t), (output_queue s); naive_solver. }
      intros [= <- <-]. exists [Error c]. simpl.
      rewrite append_nil_r. repeat split; try done. by exists [].
    + destruct (command_execution_has_completed s) eqn:Hflag.
      * intros [= <- <-]. exists []. simpl. by rewrite append_nil_r.
      * intros H. apply IH in H as (taken & Hq' & Hacc & Hnew & Hout & Hret).
        exists taken. repeat split; try done.
        rewrite Hflag in Hret. exact Hret.
Qed.

(** ** The archive *)

Lemma min_key_spec {A : Type} (d : gmap Z A) (k : Z) :
  min_key d = Some k → is_Some (d !! k) ∧ ∀ k', is_Some (d !! k') → k ≤ k'.
Proof.
  unfold min_key.
  assert (∀ (l : list Z) k,
            foldr (λ k acc, Some (match acc with Some k' => Z.min k k' | None => k end))
                  None l = Some k
            → k ∈ l ∧ ∀ k', k' ∈ l → k ≤ k') as Hlist.
  { clear. induction l as [|x l IH]; intros k; simpl; [done|].
    destruct (foldr _ None l) as [k0|] eqn:Hfold.
    - destruct (IH k0 eq_refl) as [Hin Hle]. intros [= <-]. split.
      + destruct (Z.min_spec x k0) as [[_ ->]|[_ ->]]; [left|by right].
      + intros k' [->|Hk']%elem_of_cons; [lia|]. specialize (Hle k' Hk'). lia.
    - intros [= <-]. destruct l as [|y l]; [|done]. split; [left|].
      intros k' [->|Hk']%elem_of_cons; [lia|]. by apply elem_of_nil in Hk'. }
  intros H. apply Hlist in H as [Hin Hle].
  assert (∀ k', k' ∈ (map_to_list d).*1 ↔ is_Some (d !! k')) as Hkeys.
  { intros k'. rewrite list_elem_of_fmap. split.
    - intros ([k'' v] & -> & Hkv). apply elem_of_map_to_list in Hkv. by exists v.
    - intros [v Hv]. exists (k', v). split; [done|]. by apply elem_of_map_to_list. }
  split; [by apply Hkeys|]. intros k' Hk'. apply Hle. by apply Hkeys.
Qed.

Lemma min_key_is_Some {A : Type} (d : gmap Z A) :
  d ≠ ∅ → is_Some (min_key d).
Proof.
  intros Hne. unfold min_key.
  destruct (map_to_list d) as [|[k v] l] eqn:Hl.
  - by apply map_to_list_empty_iff in Hl.
  - simpl. eauto.
Qed.

Lemma keep_most_recent_lookup (maximum : Z)
    (history : gmap Z completed_terminal_session_with_full_history) (k : Z) c :
  keep_most_recent maximum history !! k = Some c → history !! k = Some c.
Proof.
  unfold keep_most_recent. case_decide; [|done].
  destruct (min_key history); [|done].
  by intros [_ ?]%lookup_delete_Some.
Qed.

(** Over capacity, lines 688-690 delete an entry with the lowest id. *)
Lemma keep_most_recent_evicts (maximum : Z)
    (history : gmap Z completed_terminal_session_with_full_history) :
  maximum < Z.of_nat (size history) → 0 ≤ maximum →
  ∃ oldest_session_id,
    is_Some (history !! oldest_session_id)
    ∧ (∀ k, is_Some (history !! k) → oldest_session_id ≤ k)
    ∧ keep_most_recent maximum history = delete oldest_session_id history.
Proof.
  intros Hover Hmax. unfold keep_most_recent. rewrite decide_True by done.
  destruct (min_key_is_Some history) as [k Hk].
  { intros ->. rewrite map_size_empty in Hover. lia. }
  rewrite Hk. apply min_key_spec in Hk as [Hin Hle]. by exists k.
Qed.

Lemma keep_most_recent_within (maximum : Z)
    (history : gmap Z completed_terminal_session_with_full_history) :
  ¬ maximum < Z.of_nat (size history) → keep_most_recent maximum history = history.
Proof. intros H. unfold keep_most_recent. by rewrite decide_False. Qed.

Lemma keep_most_recent_size (maximum : Z)
    (history : gmap Z completed_terminal_session_with_full_history) :
  0 ≤ maximum → Z.of_nat (size history) ≤ maximum + 1 →
  Z.of_nat (size (keep_most_recent maximum history)) ≤ maximum.
Proof.
  intros Hmax Hsize.
  destruct (decide (maximum < Z.of_nat (size history))) as [Hover|Hok].
  - destruct (keep_most_recent_evicts _ _ Hover Hmax) as (k & Hk & _ & ->).
    rewrite map_size_delete_Some by done. lia.
  - rewrite keep_most_recent_within by done. lia.
Qed.

(** ** The invariant of the manager *)

Lemma move_active (m : comprehensive_terminal_session_manager_with_background_support)
    (session_id now : Z) session :
  active_terminal_sessions m !! session_id = Some session →
  _move_session_to_completed m session_id now
  = set_maps (delete session_id (active_terminal_sessions m))
             (keep_most_recent (maximum_completed_sessions_to_retain m)
                (<[session_id := archive_entry session_id session now]>
                   (completed_session_history m)))
             m.
Proof. intros H. unfold _move_session_to_completed. by rewrite H. Qed.

Lemma move_inactive (m : comprehensive_terminal_session_manager_with_background_support)
    (session_id now : Z) :
  active_terminal_sessions m !! session_id = None →
  _move_session_to_completed m session_id now = m.
Proof. intros H. unfold _move_session_to_completed. by rewrite H. Qed.

Lemma init_inv : registry_inv init.
Proof.
  unfold registry_inv, init; simpl. split_and!; try done.
  all: try (intros id [x Hx]; by rewrite lookup_empty in Hx).
  rewrite map_size_empty. lia.
Qed.

Lemma move_inv (m : comprehensive_terminal_session_manager_with_background_support)
    (session_id now : Z) :
  registry_inv m → registry_inv (_move_session_to_completed m session_id now).
Proof.
  intros Hinv.
  destruct (active_terminal_sessions m !! session_id) as [session|] eqn:Hact;
    [|by rewrite move_inactive].
  rewrite (move_active _ _ _ _ Hact).
  destruct Hinv as (Hmax & Hnext & Hactive & Harchive & Hdisj & Hsize).
  unfold registry_inv; simpl. rewrite Hmax.
  assert (∀ id, is_Some (keep_most_recent 100
                  (<[session_id := archive_entry session_id session now]>
                     (completed_session_history m)) !! id)
                → id = session_id ∨ is_Some (completed_session_history m !! id)) as Hkeys.
  { intros id [c Hc]. apply keep_most_recent_lookup in Hc.
    apply lookup_insert_Some in Hc as [[<- _]|[_ Hc]]; eauto. }
  split_and!; try done.
  - intros id [x [_ Hx]%lookup_delete_Some]. apply Hactive; eauto.
  - intros id Hid.
    destruct (Hkeys id Hid) as [->|Hc]; [apply Hactive|apply Harchive]; eauto.
  - intros id [x [Hne Hx]%lookup_delete_Some].
    destruct (keep_most_recent _ _ !! id) as [c|] eqn:Hc; [|done].
    destruct (Hkeys id) as [->|Hc']; [eauto|done|].
    rewrite Hdisj in Hc' by eauto. by destruct Hc'.
  - apply Nat2Z.inj_le. change (Z.of_nat 100) with 100.
    apply keep_most_recent_size; [lia|].
    rewrite map_size_insert_None by (apply Hdisj; eauto). lia.
Qed.

Lemma update_active_inv (m : comprehensive_terminal_session_manager_with_background_support)
    (session_id : Z) session :
  registry_inv m → is_Some (active_terminal_sessions m !! session_id) →
  registry_inv (set_maps (<[session_id := session]> (active_terminal_sessions m))
                         (completed_session_history m) m).
Proof.
  intros (Hmax & Hnext & Hactive & Harchive & Hdisj & Hsize) Hact.
  assert (∀ id, is_Some (<[session_id := session]> (active_terminal_sessions m) !! id)
                → is_Some (active_terminal_sessions m !! id)) as Hkeys.
  { intros id [x [[<- _]|[_ Hx]]%lookup_insert_Some]; eauto. }
  unfold registry_inv; simpl. split_and!; try done.
  - intros id Hid. apply Hactive; eauto.
  - intros id Hid. apply Hdisj; eauto.
Qed.

Lemma increment_inv (m : comprehensive_terminal_session_manager_with_background_support) :
  registry_inv m → registry_inv (increment_next_session_id m).
Proof.
  intros (Hmax & Hnext & Hactive & Harchive & Hdisj & Hsize).
  unfold registry_inv; simpl. split_and!; try done; try lia.
  - intros id Hid. specialize (Hactive id Hid). lia.
  - intros id Hid. specialize (Harchive id Hid). lia.
Qed.

(** Registering a session under the id that line 431 read, once line 432
    has moved the counter on. *)
Lemma register_new_inv (m : comprehensive_terminal_session_manager_with_background_support)
    session :
  registry_inv m →
  registry_inv (register_session (increment_next_session_id m) (next_session_id m) session).
Proof.
  intros (Hmax & Hnext & Hactive & Harchive & Hdisj & Hsize).
  assert (completed_session_history m !! next_session_id m = None) as Hfresh.
  { destruct (completed_session_history m !! next_session_id m) eqn:Hc; [|done].
    assert (1 ≤ next_session_id m < next_session_id m) by (apply Harchive; eauto). lia. }
  unfold registry_inv; simpl. split_and!; try done; try lia.
  - intros id [x [[<- _]|[_ Hx]]%lookup_insert_Some]; [lia|].
    assert (1 ≤ id < next_session_id m) by (apply Hactive; eauto). lia.
  - intros id Hid.
    assert (1 ≤ id < next_session_id m) by (apply Harchive; eauto). lia.
  - intros id [x [[<- _]|[_ Hx]]%lookup_insert_Some]; [done|].
    apply Hdisj; eauto.
Qed.

Lemma register_twice (m : comprehensive_terminal_session_manager_with_background_support)
    (session_id : Z) session session' :
  register_session (register_session m session_id session) session_id session'
  = register_session m session_id session'.
Proof. unfold register_session, set_maps. simpl. by rewrite insert_insert_eq. Qed.

(** What [start] registers when the process is spawned and the timeout gives
    a window. *)
Lemma start_spawned (m : comprehensive_terminal_session_manager_with_background_support)
    (process : process_behaviour) (now : Z) (ticks : list tick) :
  let call :=
    start_command_execution_with_timeout_and_background_support
      m (inr process) now (Window ticks) in
  let drained := start_drain ticks (new_session (next_session_id m) process now) "" in
  active_terminal_sessions call.1
  = <[next_session_id m := drained.1.1]> (active_terminal_sessions m)
  ∧ completed_session_history call.1 = completed_session_history m
  ∧ next_session_id call.1 = next_session_id m + 1
  ∧ process_id call.2 = next_session_id m
  ∧ initial_output_text call.2 = drained.1.2
  ∧ command_is_still_running_in_background call.2
    = match drained.2 with
      | ReturnOnError _ => false
      | _ => negb (command_execution_has_completed drained.1.1)
      end
  ∧ error_message call.2
    = match drained.2 with
      | ReturnOnError content => Some ("Process error: " +:+ content)
      | _ => None
      end.
Proof.
  intros call drained. subst call drained.
  unfold start_command_execution_with_timeout_and_background_support.
  destruct (start_drain _ _ _) as [[session initial_output] exit].
  rewrite register_twice. by destruct exit.
Qed.

(** The manager after a [start], for each way the call can go. *)
Lemma start_manager (m : comprehensive_terminal_session_manager_with_background_support)
    (popen : start_failure + process_behaviour) (now : Z) (window : timeout_window) :
  (start_command_execution_with_timeout_and_background_support m popen now window).1
  = match popen with
    | inl (RaisedBeforeSpawn _) => m
    | inl (ThreadStartRaised _) => increment_next_session_id m
    | inr process =>
        register_session (increment_next_session_id m) (next_session_id m)
          match window with
          | TimeoutRaises _ => new_session (next_session_id m) process now
          | Window ticks =>
              (start_drain ticks (new_session (next_session_id m) process now) "").1.1
          end
    end.
Proof.
  destruct popen as [[e|e]|process]; [done..|].
  destruct window as [e|ticks]; [done|].
  unfold start_command_execution_with_timeout_and_background_support.
  destruct (start_drain _ _ _) as [[session initial_output] exit].
  rewrite register_twice. by destruct exit.
Qed.

Lemma start_inv (m : comprehensive_terminal_session_manager_with_background_support)
    (popen : start_failure + process_behaviour) (now : Z) (window : timeout_window) :
  registry_inv m →
  registry_inv (start_command_execution_with_timeout_and_background_support
                  m popen now window).1.
Proof.
  intros Hinv. rewrite start_manager.
  destruct popen as [[e|e]|process];
    [done|by apply increment_inv|by apply register_new_inv].
Qed.

(** A [start] leaves the sessions registered before it as they are, and the
    archive too; the counter does not go back. *)
Lemma start_frame (m : comprehensive_terminal_session_manager_with_background_support)
    (popen : start_failure + process_behaviour) (now : Z) (window : timeout_window) :
  let m' :=
    (start_command_execution_with_timeout_and_background_support m popen now window).1 in
  (∀ id, id ≠ next_session_id m →
         active_terminal_sessions m' !! id = active_terminal_sessions m !! id)
  ∧ completed_session_history m' = completed_session_history m
  ∧ next_session_id m ≤ next_session_id m' ≤ next_session_id m + 1.
Proof.
  intros m'. subst m'. rewrite start_manager.
  destruct popen as [[e|e]|process]; simpl; (split; [|split; [done|lia]]); try done.
  intros id Hid. by apply lookup_insert_ne.
Qed.

Lemma read_inv (m : comprehensive_terminal_session_manager_with_background_support)
    (session_id now : Z) (ticks : list tick) :
  registry_inv m → registry_inv (read_session m session_id now ticks).1.
Proof.
  intros Hinv. unfold read_session.
  destruct (active_terminal_sessions m !! session_id) as [session|] eqn:Hact.
  - destruct (truthy _).
    + simpl. apply update_active_inv; eauto.
    + destruct (read_drain ticks session "") as [session' ret].
      assert (registry_inv
                (set_maps (<[session_id := session']> (active_terminal_sessions m))
                          (completed_session_history m) m))
        by (apply update_active_inv; eauto).
      destruct ret; simpl; try done. by apply move_inv.
  - by destruct (completed_session_history m !! session_id).
Qed.

Lemma terminate_inv (m : comprehensive_terminal_session_manager_with_background_support)
    (session_id : Z) (stop : stop_outcome) (now : Z) :
  registry_inv m →
  registry_inv (force_terminate_session_with_cleanup m session_id stop now).1.
Proof.
  intros Hinv. unfold force_terminate_session_with_cleanup.
  destruct (active_terminal_sessions m !! session_id); [|done].
  destruct stop; simpl; [by apply move_inv|done].
Qed.

Lemma step_inv (m : comprehensive_terminal_session_manager_with_background_support)
    (op : operation) :
  registry_inv m → registry_inv (step m op).
Proof.
  destruct op; simpl; auto using start_inv, read_inv, terminate_inv.
Qed.

Lemma steps_inv (ops : list operation) :
  ∀ m, registry_inv m → registry_inv (foldl step m ops).
Proof. induction ops as [|op ops IH]; simpl; auto using step_inv. Qed.

Lemma run_inv (ops : list operation) : registry_inv (run ops).
Proof. apply steps_inv, init_inv. Qed.

(** ** What a call does to one session *)

Lemma move_active_lookup (m : comprehensive_terminal_session_manager_with_background_support)
    (session_id now id : Z) :
  active_terminal_sessions (_move_session_to_completed m session_id now) !! id
  = if decide (id = session_id) then None else active_terminal_sessions m !! id.
Proof.
  unfold _move_session_to_completed.
  destruct (active_terminal_sessions m !! session_id) eqn:Hact; simpl.
  - case_decide as Hid; [subst; apply lookup_delete_eq|by apply lookup_delete_ne].
  - case_decide as Hid; [by subst|done].
Qed.

Lemma move_next_session_id (m : comprehensive_terminal_session_manager_with_background_support)
    (session_id now : Z) :
  next_session_id (_move_session_to_completed m session_id now) = next_session_id m.
Proof.
  unfold _move_session_to_completed.
  by destruct (active_terminal_sessions m !! session_id).
Qed.

(** [read] on one id leaves the sessions of the other ids as they are. *)
Lemma read_session_other (m : comprehensive_terminal_session_manager_with_background_support)
    (session_id now : Z) (ticks : list tick) (id : Z) :
  id ≠ session_id →
  active_terminal_sessions (read_session m session_id now ticks).1 !! id
  = active_terminal_sessions m !! id.
Proof.
  intros Hne. unfold read_session.
  destruct (active_terminal_sessions m !! session_id) as [session|] eqn:Hact.
  - destruct (truthy _); simpl; [by apply lookup_insert_ne|].
    destruct (read_drain ticks session "") as [session' ret].
    destruct ret; simpl; try by apply lookup_insert_ne.
    rewrite move_active_lookup, decide_False by done. simpl.
    by apply lookup_insert_ne.
  - by destruct (completed_session_history m !! session_id).
Qed.

(** [read] on an active session: either it hands out the pending buffer, or
    it runs the drain loop and archives the session on a ['completed'] item. *)
Lemma read_session_active (m : comprehensive_terminal_session_manager_with_background_support)
    (session_id now : Z) (ticks : list tick) session :
  active_terminal_sessions m !! session_id = Some session →
  let call := read_session m session_id now ticks in
  if truthy (newly_available_output_since_last_read session) then
    call.2 = ReturnPending (newly_available_output_since_last_read session)
    ∧ active_terminal_sessions call.1 !! session_id
      = Some (set_newly_available "" session)
    ∧ completed_session_history call.1 = completed_session_history m
  else
    call.2 = (read_drain ticks session "").2
    ∧ match call.2 with
      | ReturnCompleted _ _ =>
          active_terminal_sessions call.1 !! session_id = None
          ∧ completed_session_history call.1
            = keep_most_recent (maximum_completed_sessions_to_retain m)
                (<[session_id := archive_entry session_id
                                   (read_drain ticks session "").1 now]>
                   (completed_session_history m))
      | _ =>
          active_terminal_sessions call.1 !! session_id
          = Some (read_drain ticks session "").1
          ∧ completed_session_history call.1 = completed_session_history m
      end.
Proof.
  intros Hact call. subst call. unfold read_session. rewrite Hact.
  destruct (truthy _); simpl.
  { split_and!; try done. apply lookup_insert_eq. }
  destruct (read_drain ticks session "") as [session' ret]; simpl.
  destruct ret; simpl; split_and!; try done; try apply lookup_insert_eq.
  - by rewrite move_active_lookup, decide_True.
  - erewrite move_active by (simpl; apply lookup_insert_eq). done.
Qed.

Lemma read_session_next_session_id
    (m : comprehensive_terminal_session_manager_with_background_support)
    (session_id now : Z) (ticks : list tick) :
  next_session_id (read_session m session_id now ticks).1 = next_session_id m.
Proof.
  unfold read_session.
  destruct (active_terminal_sessions m !! session_id) as [session|].
  - destruct (truthy _); [done|].
    destruct (read_drain ticks session "") as [session' ret].
    destruct ret; simpl; try done. by rewrite move_next_session_id.
  - by destruct (completed_session_history m !! session_id).
Qed.

(** A session that is active before and after a call: its flag is the same,
    its pending buffer is the same or has been emptied, and its accumulated
    buffer has grown by the output taken from its queue. *)
Lemma step_session_frame (m : comprehensive_terminal_session_manager_with_background_support)
    (op : operation) (id : Z) session session' :
  registry_inv m →
  active_terminal_sessions m !! id = Some session →
  active_terminal_sessions (step m op) !! id = Some session' →
  command_execution_has_completed session' = command_execution_has_completed session
  ∧ (newly_available_output_since_last_read session'
     = newly_available_output_since_last_read session
     ∨ newly_available_output_since_last_read session' = "")
  ∧ ∃ taken,
      output_queue session = taken ++ output_queue session'
      ∧ accumulated_output_buffer session'
        = accumulated_output_buffer session +:+ output_of taken.
Proof.
  intros Hinv Hact Hact'.
  assert (session' = session →
    command_execution_has_completed session' = command_execution_has_completed session
    ∧ (newly_available_output_since_last_read session'
       = newly_available_output_since_last_read session
       ∨ newly_available_output_since_last_read session' = "")
    ∧ ∃ taken,
        output_queue session = taken ++ output_queue session'
        ∧ accumulated_output_buffer session'
          = accumulated_output_buffer session +:+ output_of taken) as Hsame.
  { intros ->. split_and!; [done|by left|]. exists []. by rewrite append_nil_r. }
  destruct op as [popen now window|session_id now ticks|session_id stop now|t]; simpl in Hact'.
  - destruct (start_frame m popen now window) as (Hother & _).
    destruct Hinv as (_ & _ & Hrange & _).
    assert (1 ≤ id < next_session_id m) by (apply Hrange; eauto).
    rewrite Hother in Hact' by lia. apply Hsame. congruence.
  - destruct (decide (id = session_id)) as [->|Hne].
    2:{ rewrite read_session_other in Hact' by done. apply Hsame. congruence. }
    pose proof (read_session_active m session_id now ticks session Hact) as Hread.
    simpl in Hread. destruct (truthy _).
    { destruct Hread as (_ & Hs & _). rewrite Hs in Hact'.
      injection Hact' as <-. simpl. split_and!; [done|by right|].
      exists []. by rewrite append_nil_r. }
    destruct Hread as [Hret Hs].
    destruct (read_drain ticks session "") as [session1 ret] eqn:Hdrain.
    simpl in Hret, Hs. rewrite Hret in Hs.
    apply read_drain_inv in Hdrain as (taken & Hq & Hacc & Hnew & _ & Hcase).
    assert (session' = session1
            ∧ command_execution_has_completed session1
              = command_execution_has_completed session) as [-> Hflag].
    { destruct ret; destruct Hs as [Hs _]; rewrite Hs in Hact'; try done;
        injection Hact' as <-; (split; [done|]).
      - by destruct Hcase as (_ & ?).
      - by destruct Hcase as (_ & _ & ?).
      - destruct Hcase as (_ & _ & ? & ? & _). congruence.
      - by destruct Hcase as (_ & _ & ?). }
    split_and!; [exact Hflag|by left|by exists taken].
  - unfold force_terminate_session_with_cleanup in Hact'.
    destruct (active_terminal_sessions m !! session_id); [|apply Hsame; simpl in *; congruence].
    destruct stop; simpl in Hact'; [|apply Hsame; congruence].
    rewrite move_active_lookup in Hact'. case_decide; [done|]. apply Hsame. congruence.
  - apply Hsame. congruence.
Qed.

(** * The claims *)

(** C2, as stated, fails: the move to the archive is not one step.  Line 685
    writes the archive entry while the session is still in the active map,
    and line 693 deletes the active entry only after lines 688-690; no lock
    is held, so a call on another thread can run in between.  In the state
    after line 685, and still after line 690, session 1 is in both maps, and
    [list] reports it as an active session. *)
Lemma move_passes_through_a_state_with_the_id_in_both_maps :
  let m := run [OpStart (inr counting) 0 (Window [got_item])] in
  let session := (start_drain [got_item] (new_session 1 counting 0) "").1.1 in
  let written := write_archive_entry m 1 (archive_entry 1 session 5) in
  let evicted := evict_oldest_session written in
  active_terminal_sessions m !! 1 = Some session
  ∧ _move_session_to_completed m 1 5 = delete_active_session evicted 1
  ∧ active_terminal_sessions written !! 1 = Some session
  ∧ completed_session_history written !! 1 = Some (archive_entry 1 session 5)
  ∧ active_terminal_sessions evicted !! 1 = Some session
  ∧ completed_session_history evicted !! 1 = Some (archive_entry 1 session 5)
  ∧ session_id <$> get_list_of_all_active_sessions_with_status evicted 6 = [1].
Proof. by vm_compute. Qed.

(** C2, amended. At the boundaries of calls that do not overlap, a session id
    is in at most one of the active map and the archive, and after the move
    to the archive it is no longer active.  The move itself is three writes:
    the archive entry (line 685), the capacity rule (lines 688-690) and the
    deletion of the active entry (line 693).  Between the first and the last
    of them the id is in both maps, unless the capacity rule has deleted the
    new entry at once, which it does exactly when the archive held 100
    entries, all with higher ids. *)
Theorem session_id_in_at_most_one_map (ops : list operation) (session_id now : Z) :
  let m := run ops in
  let m' := _move_session_to_completed m session_id now in
  (active_terminal_sessions m !! session_id = None
   ∨ completed_session_history m !! session_id = None)
  ∧ active_terminal_sessions m' !! session_id = None
  ∧ (∀ id, active_terminal_sessions m' !! id = None
           ∨ completed_session_history m' !! id = None)
  ∧ match active_terminal_sessions m !! session_id with
    | Some session =>
        let completed_session := archive_entry session_id session now in
        let written := write_archive_entry m session_id completed_session in
        let evicted := evict_oldest_session written in
        m' = delete_active_session evicted session_id
        ∧ active_terminal_sessions written !! session_id = Some session
        ∧ completed_session_history written !! session_id = Some completed_session
        ∧ active_terminal_sessions evicted !! session_id = Some session
        ∧ (completed_session_history evicted !! session_id = Some completed_session
           ∨ (completed_session_history evicted !! session_id = None
              ∧ size (completed_session_history m) = 100%nat
              ∧ ∀ id, is_Some (completed_session_history m !! id) → session_id < id))
        ∧ active_terminal_sessions m' = delete session_id (active_terminal_sessions m)
        ∧ completed_session_history m'
          = keep_most_recent 100
              (<[session_id := completed_session]> (completed_session_history m))
    | None => m' = m
    end.
Proof.
  intros m m'.
  assert (∀ m0 id, registry_inv m0 →
            active_terminal_sessions m0 !! id = None
            ∨ completed_session_history m0 !! id = None) as Hone.
  { intros m0 id (_ & _ & _ & _ & Hdisj & _).
    destruct (active_terminal_sessions m0 !! id) eqn:Hact; [right|by left].
    apply Hdisj. by rewrite Hact. }
  pose proof (run_inv ops) as Hinv. fold m in Hinv.
  split_and!.
  - by apply Hone.
  - subst m'. by rewrite move_active_lookup, decide_True.
  - intros id. apply Hone. by apply move_inv.
  - destruct (active_terminal_sessions m !! session_id) as [session|] eqn:Hact;
      [|by apply move_inactive].
    intros completed_session written evicted.
    destruct Hinv as (Hmax & _ & _ & _ & Hdisj & Hsize).
    assert (completed_session_history m !! session_id = None) as Hfresh
      by (apply Hdisj; eauto).
    split_and!.
    + subst m'. unfold _move_session_to_completed. by rewrite Hact.
    + done.
    + apply lookup_insert_eq.
    + done.
    + subst evicted written. simpl. rewrite Hmax.
      set (history := <[session_id := completed_session]> (completed_session_history m)).
      assert (size history = S (size (completed_session_history m))) as Hsz
        by (by apply map_size_insert_None).
      destruct (decide (100 < Z.of_nat (size history))) as [Hover|Hok].
      2:{ left. rewrite keep_most_recent_within by done. apply lookup_insert_eq. }
      destruct (keep_most_recent_evicts 100 history) as (k & Hk & Hle & ->); [lia..|].
      destruct (decide (k = session_id)) as [->|Hne].
      * right. split_and!; [apply lookup_delete_eq|lia|].
        intros id Hid. assert (id ≠ session_id) by (intros ->; by destruct Hid; congruence).
        assert (session_id ≤ id); [|lia].
        apply Hle. subst history. by rewrite lookup_insert_ne.
      * left. rewrite lookup_delete_ne by done. apply lookup_insert_eq.
    + subst m'. by rewrite (move_active _ _ _ _ Hact).
    + subst m'. rewrite (move_active _ _ _ _ Hact). simpl. by rewrite Hmax.
Qed.

(** C3. After any sequence of calls the archive holds at most 100 entries.
    When a session is moved to the archive, the entry is inserted; if that
    makes 101 entries, exactly one entry is deleted, one whose id is the
    lowest of all (the new entry included), and otherwise none is. *)
Theorem archive_bounded_and_evicts_lowest_id (ops : list operation) (session_id now : Z) :
  let m := run ops in
  let m' := _move_session_to_completed m session_id now in
  (size (completed_session_history m) ≤ 100)%nat
  ∧ (size (completed_session_history m') ≤ 100)%nat
  ∧ match active_terminal_sessions m !! session_id with
    | Some session =>
        let history :=
          <[session_id := archive_entry session_id session now]>
            (completed_session_history m) in
        size history = S (size (completed_session_history m))
        ∧ if decide (100 < size history)%nat then
            ∃ oldest_session_id,
              is_Some (history !! oldest_session_id)
              ∧ (∀ id, is_Some (history !! id) → oldest_session_id ≤ id)
              ∧ completed_session_history m' = delete oldest_session_id history
              ∧ size (completed_session_history m') = 100%nat
          else completed_session_history m' = history
    | None => True
    end.
Proof.
  intros m m'.
  pose proof (run_inv ops) as Hinv. fold m in Hinv.
  pose proof (move_inv m session_id now Hinv) as Hinv'. fold m' in Hinv'.
  split_and!.
  - by destruct Hinv as (_ & _ & _ & _ & _ & ?).
  - by destruct Hinv' as (_ & _ & _ & _ & _ & ?).
  - destruct (active_terminal_sessions m !! session_id) as [session|] eqn:Hact; [|done].
    destruct Hinv as (Hmax & _ & _ & _ & Hdisj & Hsize).
    intros history.
    assert (size history = S (size (completed_session_history m))) as Hsz.
    { subst history. apply map_size_insert_None, Hdisj. by rewrite Hact. }
    split; [done|].
    assert (completed_session_history m' = keep_most_recent 100 history) as ->.
    { subst m'. rewrite (move_active _ _ _ _ Hact). simpl. by rewrite Hmax. }
    case_decide as Hover.
    + destruct (keep_most_recent_evicts 100 history) as (k & Hk & Hle & ->); [lia..|].
      exists k. split_and!; try done.
      rewrite map_size_delete_Some by done. lia.
    + apply keep_most_recent_within. lia.
Qed.

(** C5, as stated, fails: a failed spawn is not the only failure that leaves
    no session.  When the process is spawned and starting its reader thread
    raises (line 459), the call ends in the same [except] branch: it returns
    the sentinel id -1 and registers no session, but it has taken id 1 (lines
    431-432), so the next session gets id 2.  And when the timeout cannot be
    divided (line 478), the sentinel id is returned although a session has
    been registered. *)
Lemma failure_after_the_spawn :
  let no_thread :=
    start_command_execution_with_timeout_and_background_support
      init (inl (ThreadStartRaised "can't start new thread")) 0 (Window [got_item]) in
  let next :=
    start_command_execution_with_timeout_and_background_support
      no_thread.1 (inr echo_hello) 1 (Window [got_item]) in
  let no_timeout :=
    start_command_execution_with_timeout_and_background_support
      init (inr echo_hello) 0
      (TimeoutRaises "unsupported operand type(s) for /: 'NoneType' and 'float'") in
  no_thread.2 = failed_to_execute "can't start new thread"
  ∧ active_terminal_sessions no_thread.1 = ∅
  ∧ completed_session_history no_thread.1 = ∅
  ∧ next_session_id no_thread.1 = 2
  ∧ process_id next.2 = 2
  ∧ process_id no_timeout.2 = -1
  ∧ active_terminal_sessions no_timeout.1 !! 1 = Some (new_session 1 echo_hello 0).
Proof. by vm_compute. Qed.

(** C5, amended. When the spawn fails (anything up to [Popen] raises),
    [start] returns the failure result (id -1, no output, not running, the
    message) and leaves the manager as it was: no session is registered and
    no id is taken.  The same result is returned for the two failures after
    the spawn: when starting the reader thread raises, no session is
    registered either, but the id has been taken; when the timeout cannot be
    divided, the session has been registered under the id taken, with
    nothing drained.  In every other case the call returns the id taken and a
    session is registered under it. *)
Theorem failed_spawn_registers_nothing (ops : list operation)
    (popen : start_failure + process_behaviour) (now : Z) (window : timeout_window) :
  let m := run ops in
  let call := start_command_execution_with_timeout_and_background_support m popen now window in
  active_terminal_sessions m !! next_session_id m = None
  ∧ completed_session_history m !! next_session_id m = None
  ∧ active_terminal_sessions m !! (-1) = None
  ∧ completed_session_history m !! (-1) = None
  ∧ match popen, window with
    | inl (RaisedBeforeSpawn e), _ =>
        call.2 = failed_to_execute e
        ∧ call.1 = m
    | inl (ThreadStartRaised e), _ =>
        call.2 = failed_to_execute e
        ∧ active_terminal_sessions call.1 = active_terminal_sessions m
        ∧ completed_session_history call.1 = completed_session_history m
        ∧ next_session_id call.1 = next_session_id m + 1
    | inr process, TimeoutRaises e =>
        call.2 = failed_to_execute e
        ∧ active_terminal_sessions call.1
          = <[next_session_id m := new_session (next_session_id m) process now]>
              (active_terminal_sessions m)
        ∧ completed_session_history call.1 = completed_session_history m
        ∧ next_session_id call.1 = next_session_id m + 1
    | inr process, Window ticks =>
        process_id call.2 = next_session_id m
        ∧ is_Some (active_terminal_sessions call.1 !! next_session_id m)
        ∧ (∀ id, id ≠ next_session_id m →
                 active_terminal_sessions call.1 !! id = active_terminal_sessions m !! id)
        ∧ completed_session_history call.1 = completed_session_history m
        ∧ next_session_id call.1 = next_session_id m + 1
    end.
Proof.
  intros m call.
  destruct (run_inv ops) as (_ & Hnext & Hactive & Harchive & _).
  fold m in Hnext, Hactive, Harchive.
  assert (∀ id, ¬ 1 ≤ id < next_session_id m →
            active_terminal_sessions m !! id = None
            ∧ completed_session_history m !! id = None) as Hout.
  { intros id Hid. split.
    - destruct (active_terminal_sessions m !! id) eqn:H; [|done].
      destruct Hid. apply Hactive. by rewrite H.
    - destruct (completed_session_history m !! id) eqn:H; [|done].
      destruct Hid. apply Harchive. by rewrite H. }
  destruct (Hout (next_session_id m)) as [? ?]; [lia|].
  destruct (Hout (-1)) as [? ?]; [lia|].
  split_and!; [done..|].
  destruct popen as [[e|e]|process]; [done|done|].
  destruct window as [e|ticks]; [done|].
  destruct (start_spawned m process now ticks) as (Hact & Harch & Hcounter & Hid & _).
  fold call in Hact, Harch, Hcounter, Hid.
  split_and!; [done| |intros id Hne|done|done]; rewrite Hact.
  - rewrite lookup_insert_eq. eauto.
  - by apply lookup_insert_ne.
Qed.

(** C8. For an id that is in neither map, [read] returns the text
    [No session found for ID <id>] with [timeout_reached = False] and leaves
    the manager unchanged, whatever the timeout and the clock: it never enters
    the waiting loop. *)
Theorem read_unknown_id_returns_at_once (format_runtime : Z → string)
    (m : comprehensive_terminal_session_manager_with_background_support)
    (session_id now : Z) (ticks : list tick) :
  active_terminal_sessions m !! session_id = None →
  completed_session_history m !! session_id = None →
  read_new_output_from_session_with_timeout format_runtime m session_id now ticks
  = (m, ("No session found for ID " +:+ str_of_int session_id, false)).
Proof.
  intros Hact Harch.
  unfold read_new_output_from_session_with_timeout, read_session.
  by rewrite Hact, Harch.
Qed.

Lemma read_unknown_id_returns_at_once_witness :
  read_new_output_from_session_with_timeout two_decimals init 999 0
    [nothing_yet; nothing_yet; got_item]
  = (init, ("No session found for ID 999", false)).
Proof.
  apply (read_unknown_id_returns_at_once two_decimals init 999 0); reflexivity.
Defined.

Lemma not_output_in_outputs (items : list queue_item) (item : queue_item) :
  Forall is_output items → item ∈ items → is_output item = true.
Proof.
  intros HF Hin. rewrite Forall_forall in HF. specialize (HF item Hin).
  by destruct (is_output item).
Qed.

(** C4, as stated, fails: a shell that has exited while its child holds the
    pipe.  [start] finds the queue empty, [process.poll()] reports the exit,
    and the call sets the flag and returns [stillRunning = False] although no
    item at all, hence no Completed or Error item, was taken from the queue. *)
Lemma poll_sets_flag_without_completed_item :
  let call :=
    start_command_execution_with_timeout_and_background_support
      init (inr detached_child) 0 (Window [nothing_and_exited 0]) in
  call.2 = {| process_id := 1;
              initial_output_text := "";
              command_is_still_running_in_background := false;
              error_message := None |}
  ∧ active_terminal_sessions call.1 !! 1
    = Some {| ts_process_id := 1;
              accumulated_output_buffer := "";
              newly_available_output_since_last_read := "";
              command_execution_has_completed := true;
              session_creation_timestamp := 0;
              output_queue := output_reader_thread detached_child;
              last_exit_code := Some 0 |}
  ∧ taken_items (output_reader_thread detached_child)
                (output_reader_thread detached_child) = [].
Proof. by vm_compute. Qed.

(** C4, amended. The flag of a session is false when [start] registers it.
    [start]'s loop sets it exactly when the iteration that ends the loop took
    a Completed item (whose code is then the exit code recorded) or got
    nothing from the queue while [process.poll()] reported the exit (whose
    code is then recorded).  [start] returns [stillRunning = True] exactly
    when the process was spawned, the timeout gave a window and no iteration
    ended the loop: then every item taken was output and the flag is still
    false.  A [start] that fails returns [stillRunning = False] without any
    event, and with the flag of the session false if it has registered one.
    After [start] has returned, no call changes the flag of a session that
    stays active. *)
Theorem still_running_and_completed_flag :
  (∀ (m : comprehensive_terminal_session_manager_with_background_support)
     (process : process_behaviour) (now : Z) (ticks : list tick),
     let call :=
       start_command_execution_with_timeout_and_background_support
         m (inr process) now (Window ticks) in
     let q := output_reader_thread process in
     ∃ session,
       active_terminal_sessions call.1 !! next_session_id m = Some session
       ∧ let taken := taken_items q (output_queue session) in
         (command_is_still_running_in_background call.2 = true
          ↔ ∀ k, ¬ ends_loop ticks q k)
         ∧ (command_is_still_running_in_background call.2 = true
            → Forall is_output taken ∧ command_execution_has_completed session = false)
         ∧ (command_execution_has_completed session = true
            ↔ (∃ content, Completed content ∈ taken)
              ∨ (∃ k t returncode,
                   ends_loop_first ticks q k ∧ ticks !! k = Some t
                   ∧ got_at ticks q k = None ∧ process_poll t = Some returncode))
         ∧ ((∃ content, Completed content ∈ taken)
            ↔ ∃ k content,
                ends_loop_first ticks q k ∧ got_at ticks q k = Some (Completed content))
         ∧ (∀ k content,
              ends_loop_first ticks q k → got_at ticks q k = Some (Completed content) →
              last_exit_code session = content)
         ∧ (∀ k t,
              ends_loop_first ticks q k → ticks !! k = Some t → got_at ticks q k = None →
              last_exit_code session = process_poll t))
  ∧ (∀ (m : comprehensive_terminal_session_manager_with_background_support)
       (popen : start_failure + process_behaviour) (now : Z) (window : timeout_window),
       let call :=
         start_command_execution_with_timeout_and_background_support m popen now window in
       (command_is_still_running_in_background call.2 = true
        → ∃ process ticks, popen = inr process ∧ window = Window ticks)
       ∧ ∀ process e,
           popen = inr process → window = TimeoutRaises e →
           ∃ session,
             active_terminal_sessions call.1 !! next_session_id m = Some session
             ∧ command_execution_has_completed session = false
             ∧ output_queue session = output_reader_thread process)
  ∧ (∀ (ops : list operation) (op : operation) (id : Z) session session',
       active_terminal_sessions (run ops) !! id = Some session →
       active_terminal_sessions (step (run ops) op) !! id = Some session' →
       command_execution_has_completed session'
       = command_execution_has_completed session).
Proof.
  split_and!.
  - intros m process now ticks call q.
    destruct (start_spawned m process now ticks)
      as (Hactive & _ & _ & _ & _ & Hrunning & _).
    fold call in Hactive, Hrunning.
    pose proof (start_drain_ends ticks (new_session (next_session_id m) process now) "")
      as Hends.
    destruct (start_drain ticks (new_session (next_session_id m) process now) "")
      as [[session initial_output] exit] eqn:Hdrain.
    apply start_drain_inv in Hdrain as (taken & Hq & _ & _ & _ & Hcase).
    cbn [fst snd new_session output_queue command_execution_has_completed] in *.
    fold q in Hends, Hq.
    exists session. split; [by rewrite Hactive, lookup_insert_eq|].
    assert (taken_items q (output_queue session) = taken) as ->
      by (rewrite Hq; apply taken_items_app).
    rewrite Hrunning. clear Hrunning Hactive Hq call.
    assert (∀ k k' item item',
              ends_loop_first ticks q k → got_at ticks q k = item →
              ends_loop_first ticks q k' → got_at ticks q k' = item' →
              k' = k ∧ item' = item) as Hsame.
    { intros k k' item item' Hk <- Hk' <-.
      by rewrite (ends_loop_first_unique _ _ _ _ Hk Hk'). }
    destruct exit as [| | |content].
    + destruct Hcase as [HF Hflag]. rewrite Hflag. simpl.
      assert (¬ ∃ content, Completed content ∈ taken) as Hno.
      { intros [c Hc]. by apply (not_output_in_outputs _ _ HF) in Hc. }
      assert (∀ k, ¬ ends_loop_first ticks q k) as Hnone.
      { intros k [Hk _]. by apply (Hends k). }
      split_and!.
      * done.
      * done.
      * split; [done|]. intros [?|(k & t & returncode & Hk & _)]; [done|by destruct (Hnone k)].
      * split; [done|]. intros (k & content & Hk & _). by destruct (Hnone k).
      * intros k content Hk. by destruct (Hnone k).
      * intros k t Hk. by destruct (Hnone k).
    + destruct Hcase as [(pre & c & -> & HF & _) Hflag].
      destruct Hends as (k & content & Hk & Hgot & Hcode). rewrite Hflag. simpl.
      assert (∃ content, Completed content ∈ pre ++ [Completed c]) as Hin.
      { exists c. apply elem_of_app. right. by left. }
      split_and!.
      * split; [done|]. intros Hnot. destruct (Hnot k). by destruct Hk.
      * done.
      * split; [by left|done].
      * split; [by eauto|done].
      * intros k' content' Hk' Hgot'.
        destruct (Hsame _ _ _ _ Hk Hgot Hk' Hgot') as [_ [= ->]]. done.
      * intros k' t Hk' _ Hgot'.
        by destruct (Hsame _ _ _ _ Hk Hgot Hk' Hgot') as [_ ?].
    + destruct Hcase as (HF & _ & Hflag).
      destruct Hends as (k & t & returncode & Hk & Ht & Hgot & Hpoll & Hcode).
      rewrite Hflag. simpl.
      assert (¬ ∃ content, Completed content ∈ taken) as Hno.
      { intros [c Hc]. by apply (not_output_in_outputs _ _ HF) in Hc. }
      split_and!.
      * split; [done|]. intros Hnot. destruct (Hnot k). by destruct Hk.
      * done.
      * split; [|done]. intros _. right. by exists k, t, returncode.
      * split; [done|]. intros (k' & content' & Hk' & Hgot').
        by destruct (Hsame _ _ _ _ Hk Hgot Hk' Hgot') as [_ ?].
      * intros k' content' Hk' Hgot'.
        by destruct (Hsame _ _ _ _ Hk Hgot Hk' Hgot') as [_ ?].
      * intros k' t' Hk' Ht' Hgot'.
        destruct (Hsame _ _ _ _ Hk Hgot Hk' Hgot') as [-> _]. congruence.
    + destruct Hcase as [(pre & -> & HF) Hflag].
      destruct Hends as (k & Hk & Hgot). rewrite Hflag. simpl.
      assert (¬ ∃ c, Completed c ∈ pre ++ [Error content]) as Hno.
      { intros [c [Hc|Hc]%elem_of_app].
        - by apply (not_output_in_outputs _ _ HF) in Hc.
        - by apply list_elem_of_singleton in Hc. }
      split_and!.
      * split; [done|]. intros Hnot. destruct (Hnot k). by destruct Hk.
      * done.
      * split; [done|]. intros [?|(k' & t & returncode & Hk' & _ & Hgot' & _)]; [done|].
        by destruct (Hsame _ _ _ _ Hk Hgot Hk' Hgot') as [_ ?].
      * split; [done|]. intros (k' & content' & Hk' & Hgot').
        by destruct (Hsame _ _ _ _ Hk Hgot Hk' Hgot') as [_ ?].
      * intros k' content' Hk' Hgot'.
        by destruct (Hsame _ _ _ _ Hk Hgot Hk' Hgot') as [_ ?].
      * intros k' t' Hk' _ Hgot'.
        by destruct (Hsame _ _ _ _ Hk Hgot Hk' Hgot') as [_ ?].
  - intros m popen now window call. split.
    + subst call. destruct popen as [[e|e]|process]; [done..|].
      destruct window as [e|ticks]; [done|]. eauto.
    + intros process e -> ->. subst call. eexists. simpl.
      split; [apply lookup_insert_eq|done].
  - intros ops op id session session' Hact Hact'.
    by destruct (step_session_frame _ _ _ _ _ (run_inv ops) Hact Hact') as [? _].
Qed.

Lemma still_running_and_completed_flag_witness :
  (let call :=
     start_command_execution_with_timeout_and_background_support
       init (inr counting) 0 (Window [got_item; nothing_yet]) in
   command_is_still_running_in_background call.2 = true
   ∧ ∀ k, ¬ ends_loop [got_item; nothing_yet] (output_reader_thread counting) k)
  ∧ (let ops := [OpStart (inr detached_child) 0 (Window [nothing_and_exited 0])] in
     ∃ session',
       active_terminal_sessions (step (run ops) (OpRead 1 1 [nothing_yet])) !! 1
       = Some session'
       ∧ command_execution_has_completed session' = true).
Proof.
  destruct still_running_and_completed_flag as (Hstart & _ & Hlater).
  split.
  - destruct (Hstart init counting 0 [got_item; nothing_yet])
      as (session & _ & Hiff & _).
    split; [reflexivity|]. by apply Hiff.
  - eexists. split; [by vm_compute|].
    rewrite (Hlater [OpStart (inr detached_child) 0 (Window [nothing_and_exited 0])]
               (OpRead 1 1 [nothing_yet]) 1
               (mark_completed (Some 0) (new_session 1 detached_child 0)) _);
      [reflexivity|by vm_compute|by vm_compute].
Defined.

Lemma error_item_taken (pre taken : list queue_item) (content content' : string) :
  taken = pre ++ [Error content'] → Forall is_output pre →
  Error content ∈ taken → content = content'.
Proof.
  intros -> HF [Hin|Hin]%elem_of_app.
  - by apply (not_output_in_outputs _ _ HF) in Hin.
  - apply list_elem_of_singleton in Hin. congruence.
Qed.

(** C6. If an Error item is among the items [start] takes from the queue in
    its window, the result carries [Process error: <message>] (with the
    session's id and [stillRunning = False]), the session is registered in
    the active map and the archive is what it was.  If an Error item is among
    the items a blocking [read] takes, the call returns
    [(Process error: <message>, False)], the session is still in the active
    map and the archive is what it was. *)
Theorem error_item_reported_session_stays_active (format_runtime : Z → string) :
  (∀ (m : comprehensive_terminal_session_manager_with_background_support)
     (process : process_behaviour) (now : Z) (ticks : list tick) (content : string),
     let call :=
       start_command_execution_with_timeout_and_background_support
         m (inr process) now (Window ticks) in
     let session :=
       (start_drain ticks (new_session (next_session_id m) process now) "").1.1 in
     Error content ∈ taken_items (output_reader_thread process) (output_queue session) →
     error_message call.2 = Some ("Process error: " +:+ content)
     ∧ process_id call.2 = next_session_id m
     ∧ command_is_still_running_in_background call.2 = false
     ∧ active_terminal_sessions call.1 !! next_session_id m = Some session
     ∧ completed_session_history call.1 = completed_session_history m)
  ∧ (∀ (m : comprehensive_terminal_session_manager_with_background_support)
       (session_id now : Z) (ticks : list tick) (content : string) session,
       let call :=
         read_new_output_from_session_with_timeout format_runtime m session_id now ticks in
       let session' := (read_drain ticks session "").1 in
       active_terminal_sessions m !! session_id = Some session →
       truthy (newly_available_output_since_last_read session) = false →
       Error content ∈ taken_items (output_queue session) (output_queue session') →
       call.2 = ("Process error: " +:+ content, false)
       ∧ active_terminal_sessions call.1 !! session_id = Some session'
       ∧ completed_session_history call.1 = completed_session_history m).
Proof.
  split.
  - intros m process now ticks content call session Hin.
    destruct (start_spawned m process now ticks)
      as (Hactive & Harchive & _ & Hid & _ & Hrunning & Herror).
    fold call in Hactive, Harchive, Hid, Hrunning, Herror.
    rewrite Hactive, Harchive, Hid, Hrunning, Herror, lookup_insert_eq.
    subst session.
    destruct (start_drain _ _ _) as [[session0 initial_output] exit] eqn:Hdrain.
    apply start_drain_inv in Hdrain as (taken & Hq & _ & _ & _ & Hcase).
    simpl in *. rewrite Hq, taken_items_app in Hin.
    destruct exit as [| | |content'].
    + destruct Hcase as [HF _]. by apply (not_output_in_outputs _ _ HF) in Hin.
    + destruct Hcase as [(pre & c & -> & HF & _) _].
      apply elem_of_app in Hin as [Hin|Hin].
      * by apply (not_output_in_outputs _ _ HF) in Hin.
      * by apply list_elem_of_singleton in Hin.
    + destruct Hcase as [HF _]. by apply (not_output_in_outputs _ _ HF) in Hin.
    + destruct Hcase as [(pre & Htaken & HF) _].
      by rewrite (error_item_taken _ _ _ _ Htaken HF Hin).
  - intros m session_id now ticks content session call session' Hact Hpending Hin.
    pose proof (read_session_active m session_id now ticks session Hact) as Hread.
    simpl in Hread. rewrite Hpending in Hread. destruct Hread as [Hret Hs].
    subst call session'. unfold read_new_output_from_session_with_timeout.
    destruct (read_session m session_id now ticks) as [m' ret]. simpl in *.
    destruct (read_drain ticks session "") as [session1 ret1] eqn:Hdrain.
    simpl in *. subst ret1.
    apply read_drain_inv in Hdrain as (taken & Hq & _ & _ & _ & Hcase).
    rewrite Hq, taken_items_app in Hin.
    assert (∀ pre item, taken = pre ++ [item] → Forall is_output pre →
              item = Error content ∨ is_output item = true) as Hlast.
    { intros pre item -> HF. apply elem_of_app in Hin as [Hin|Hin].
      - apply (not_output_in_outputs _ _ HF) in Hin. done.
      - apply list_elem_of_singleton in Hin. by left. }
    destruct ret; try done.
    + destruct Hcase as (_ & (pre & Htaken & HF) & _).
      by destruct (Hlast _ _ Htaken HF).
    + destruct Hcase as [(pre & Htaken & HF) _].
      destruct (Hlast _ _ Htaken HF) as [[= ->]|?]; [|done].
      by destruct Hs as [-> ->].
    + destruct Hcase as (_ & HF & _). by apply (not_output_in_outputs _ _ HF) in Hin.
    + destruct Hcase as (_ & HF & _). by apply (not_output_in_outputs _ _ HF) in Hin.
    + destruct Hcase as (_ & HF & _). by apply (not_output_in_outputs _ _ HF) in Hin.
Qed.

Lemma error_item_reported_session_stays_active_witness :
  (let call :=
     start_command_execution_with_timeout_and_background_support
       init (inr undecodable) 0 (Window [got_item]) in
   error_message call.2 = Some "Process error: invalid start byte"
   ∧ process_id call.2 = 1
   ∧ command_is_still_running_in_background call.2 = false
   ∧ is_Some (active_terminal_sessions call.1 !! 1)
   ∧ completed_session_history call.1 = ∅)
  ∧ (let m :=
       (start_command_execution_with_timeout_and_background_support
          init (inr undecodable) 0 (Window [])).1 in
     let call := read_new_output_from_session_with_timeout two_decimals m 1 7 [got_item] in
     call.2 = ("Process error: invalid start byte", false)
     ∧ is_Some (active_terminal_sessions call.1 !! 1)
     ∧ completed_session_history call.1 = ∅).
Proof.
  destruct (error_item_reported_session_stays_active two_decimals) as [Hstart Hread].
  split.
  - destruct (Hstart init undecodable 0 [got_item] "invalid start byte")
      as (H1 & H2 & H3 & H4 & H5); [vm_compute; left|].
    split_and!; [exact H1|exact H2|exact H3|eexists; exact H4|exact H5].
  - destruct (Hread
                (start_command_execution_with_timeout_and_background_support
                   init (inr undecodable) 0 (Window [])).1
                1 7 [got_item] "invalid start byte"
                (new_session 1 undecodable 0))
      as (H1 & H2 & H3); [reflexivity|reflexivity|vm_compute; left|].
    split_and!; [exact H1|eexists; exact H2|exact H3].
Defined.

(** An id that has been handed out and is no longer active never becomes
    active again: ids are not reused. *)
Lemma step_keeps_inactive (m : comprehensive_terminal_session_manager_with_background_support)
    (op : operation) (id : Z) :
  id < next_session_id m →
  active_terminal_sessions m !! id = None →
  id < next_session_id (step m op) ∧ active_terminal_sessions (step m op) !! id = None.
Proof.
  intros Hlt Hnone.
  destruct op as [popen now window|session_id now ticks|session_id stop now|t]; simpl.
  - destruct (start_frame m popen now window) as (Hother & _ & Hnext).
    split; [lia|]. by rewrite Hother by lia.
  - rewrite read_session_next_session_id. split; [done|].
    destruct (decide (id = session_id)) as [->|Hne].
    + unfold read_session. rewrite Hnone.
      by destruct (completed_session_history m !! session_id).
    + by rewrite read_session_other.
  - unfold force_terminate_session_with_cleanup.
    destruct (active_terminal_sessions m !! session_id); [|done].
    destruct stop; simpl; [|done].
    rewrite move_next_session_id, move_active_lookup. split; [done|].
    by case_decide.
  - done.
Qed.

Lemma steps_keep_inactive (ops : list operation) (id : Z) :
  ∀ m, id < next_session_id m → active_terminal_sessions m !! id = None →
       active_terminal_sessions (foldl step m ops) !! id = None.
Proof.
  induction ops as [|op ops IH]; intros m Hlt Hnone; simpl; [done|].
  destruct (step_keeps_inactive m op id Hlt Hnone). by apply IH.
Qed.

(** C7, as stated, fails: the stop sequence can raise (lines 647-649).  The
    first [terminate] on a live session then returns [False] and leaves it
    active, and a second call on the same id returns [True]. *)
Lemma first_terminate_can_fail_and_second_succeed :
  let m :=
    (start_command_execution_with_timeout_and_background_support
       init (inr counting) 0 (Window [got_item])).1 in
  let first_call := force_terminate_session_with_cleanup m 1 StopRaises 5 in
  let second_call := force_terminate_session_with_cleanup first_call.1 1 Stopped 9 in
  is_Some (active_terminal_sessions m !! 1)
  ∧ first_call = (m, false)
  ∧ second_call.2 = true
  ∧ active_terminal_sessions second_call.1 !! 1 = None
  ∧ is_Some (completed_session_history second_call.1 !! 1).
Proof. vm_compute. split_and!; try done; by eexists. Qed.

(** C7, amended. A [terminate] on an id that is not in the active map
    (archived ids included) returns [False] and changes nothing, and so does
    one whose stop sequence raises, which leaves the session active.  A
    [terminate] on an active id whose stop sequence completes returns [True]
    and moves the session out of the active map into the archive (where the
    capacity rule deletes it at once when the archive already holds 100
    entries, all with higher ids); every later [terminate] on that id,
    whatever calls come in between, returns [False] and changes nothing. *)
Theorem terminate_succeeds_at_most_once :
  (∀ (m : comprehensive_terminal_session_manager_with_background_support)
     (session_id : Z) (stop : stop_outcome) (now : Z),
     active_terminal_sessions m !! session_id = None →
     force_terminate_session_with_cleanup m session_id stop now = (m, false))
  ∧ (∀ (m : comprehensive_terminal_session_manager_with_background_support)
       (session_id now : Z),
       force_terminate_session_with_cleanup m session_id StopRaises now = (m, false))
  ∧ (∀ (ops : list operation) (session_id now : Z) session,
       let m := run ops in
       let m' := _move_session_to_completed m session_id now in
       active_terminal_sessions m !! session_id = Some session →
       force_terminate_session_with_cleanup m session_id Stopped now = (m', true)
       ∧ active_terminal_sessions m' !! session_id = None
       ∧ (completed_session_history m' !! session_id
          = Some (archive_entry session_id session now)
          ∨ (completed_session_history m' !! session_id = None
             ∧ size (completed_session_history m) = 100%nat
             ∧ ∀ id, is_Some (completed_session_history m !! id) → session_id < id))
       ∧ ∀ (later : list operation) (stop : stop_outcome) (now' : Z),
           let m'' := foldl step m' later in
           force_terminate_session_with_cleanup m'' session_id stop now' = (m'', false)).
Proof.
  assert (∀ m session_id stop now,
            active_terminal_sessions m !! session_id = None →
            force_terminate_session_with_cleanup m session_id stop now = (m, false))
    as Hinactive.
  { intros m session_id stop now Hnone.
    unfold force_terminate_session_with_cleanup. by rewrite Hnone. }
  split_and!; [exact Hinactive| |].
  - intros m session_id now. unfold force_terminate_session_with_cleanup.
    by destruct (active_terminal_sessions m !! session_id).
  - intros ops session_id now session m m' Hact.
    pose proof (run_inv ops) as Hinv. fold m in Hinv.
    assert (active_terminal_sessions m' !! session_id = None) as Hgone.
    { subst m'. by rewrite move_active_lookup, decide_True. }
    split_and!; [|exact Hgone| |].
    + unfold force_terminate_session_with_cleanup. by rewrite Hact.
    + destruct Hinv as (Hmax & _ & _ & _ & Hdisj & Hsize).
      assert (completed_session_history m !! session_id = None) as Hfresh
        by (apply Hdisj; eauto).
      subst m'. rewrite (move_active _ _ _ _ Hact). simpl. rewrite Hmax.
      set (history := <[session_id := archive_entry session_id session now]>
                        (completed_session_history m)).
      assert (size history = S (size (completed_session_history m))) as Hsz
        by (by apply map_size_insert_None).
      destruct (decide (100 < Z.of_nat (size history))) as [Hover|Hok].
      2:{ left. rewrite keep_most_recent_within by done. apply lookup_insert_eq. }
      destruct (keep_most_recent_evicts 100 history) as (k & Hk & Hle & ->); [lia..|].
      destruct (decide (k = session_id)) as [->|Hne].
      * right. split_and!; [apply lookup_delete_eq|lia|].
        intros id Hid. assert (id ≠ session_id) by (intros ->; by destruct Hid; congruence).
        assert (session_id ≤ id); [|lia].
        apply Hle. subst history. by rewrite lookup_insert_ne.
      * left. rewrite lookup_delete_ne by done. apply lookup_insert_eq.
    + intros later stop now' m''. apply Hinactive. subst m''.
      apply steps_keep_inactive; [|done].
      subst m'. rewrite move_next_session_id.
      destruct Hinv as (_ & _ & Hrange & _). apply Hrange. eauto.
Qed.

Lemma terminate_succeeds_at_most_once_witness :
  let m := run [OpStart (inr counting) 0 (Window [got_item])] in
  let m' := _move_session_to_completed m 1 9 in
  force_terminate_session_with_cleanup m 1 Stopped 9 = (m', true)
  ∧ active_terminal_sessions m' !! 1 = None
  ∧ force_terminate_session_with_cleanup
      (foldl step m' [OpRead 1 10 [got_item]; OpList 11]) 1 Stopped 12
    = (foldl step m' [OpRead 1 10 [got_item]; OpList 11], false)
  ∧ force_terminate_session_with_cleanup m 7 Stopped 9 = (m, false).
Proof.
  destruct terminate_succeeds_at_most_once as (Hinactive & _ & Hactive).
  destruct (Hactive [OpStart (inr counting) 0 (Window [got_item])] 1 9
              (start_drain [got_item] (new_session 1 counting 0) "").1.1)
    as (H1 & H2 & _ & H4); [by vm_compute|].
  split_and!; [exact H1|exact H2|exact (H4 [OpRead 1 10 [got_item]; OpList 11] Stopped 12)|].
  apply Hinactive. by vm_compute.
Defined.

(** ** The pending buffer *)

Lemma step_next_session_id_mono
    (m : comprehensive_terminal_session_manager_with_background_support) (op : operation) :
  next_session_id m ≤ next_session_id (step m op).
Proof.
  destruct op as [popen now window|session_id now ticks|session_id stop now|t]; simpl.
  - by destruct (start_frame m popen now window) as (_ & _ & ? & _).
  - by rewrite read_session_next_session_id.
  - unfold force_terminate_session_with_cleanup.
    destruct (active_terminal_sessions m !! session_id); [|done].
    destruct stop; simpl; [|done]. by rewrite move_next_session_id.
  - done.
Qed.

Lemma steps_pending_stays_empty (later : list operation) (id : Z) :
  ∀ (m : comprehensive_terminal_session_manager_with_background_support) session session',
    registry_inv m →
    active_terminal_sessions m !! id = Some session →
    newly_available_output_since_last_read session = "" →
    active_terminal_sessions (foldl step m later) !! id = Some session' →
    newly_available_output_since_last_read session' = "".
Proof.
  induction later as [|op later IH]; intros m session session' Hinv Hact Hempty; simpl.
  - intros Hact'. congruence.
  - destruct (active_terminal_sessions (step m op) !! id) as [session1|] eqn:Hact1.
    + apply (IH _ session1); [by apply step_inv|done|].
      destruct (step_session_frame _ _ _ _ _ Hinv Hact Hact1) as (_ & [Hp|Hp] & _);
        congruence.
    + intros Hact'. rewrite steps_keep_inactive in Hact'; [done| |done].
      destruct Hinv as (_ & _ & Hrange & _).
      pose proof (step_next_session_id_mono m op).
      assert (1 ≤ id < next_session_id m) by (apply Hrange; eauto). lia.
Qed.

Lemma elem_of_active_sessions_in_order
    (m : comprehensive_terminal_session_manager_with_background_support)
    (id : Z) session :
  (id, session) ∈ active_sessions_in_order m ↔ active_terminal_sessions m !! id = Some session.
Proof.
  unfold active_sessions_in_order.
  rewrite merge_sort_Permutation. apply elem_of_map_to_list.
Qed.

(** An entry of [list] describes the active session with its id. *)
Lemma list_entry (m : comprehensive_terminal_session_manager_with_background_support)
    (current_time : Z) (status : session_status) :
  status ∈ get_list_of_all_active_sessions_with_status m current_time →
  ∃ session,
    active_terminal_sessions m !! session_id status = Some session
    ∧ is_completed status = command_execution_has_completed session
    ∧ has_new_output status
      = bool_decide (0 < String.length (newly_available_output_since_last_read session))%nat
    ∧ total_output_length status = String.length (accumulated_output_buffer session).
Proof.
  unfold get_list_of_all_active_sessions_with_status.
  intros ([id session] & -> & Hin)%list_elem_of_fmap.
  apply elem_of_active_sessions_in_order in Hin. by exists session.
Qed.

(** C10. A blocking [read] (one that finds the pending buffer empty) appends
    the output it takes from the queue to the accumulated buffer only: the
    pending buffer is still empty when it returns.  Hence once the pending
    buffer of a session is empty, no later call refills it, and [list] never
    reports [has_new_output] for that session again.  No call after [start]
    has returned adds to a pending buffer: it leaves it or empties it. *)
Theorem blocking_read_never_refills_pending :
  (∀ (m : comprehensive_terminal_session_manager_with_background_support)
     (session_id now : Z) (ticks : list tick) session,
     let call := read_session m session_id now ticks in
     let drained := read_drain ticks session "" in
     active_terminal_sessions m !! session_id = Some session →
     newly_available_output_since_last_read session = "" →
     call.2 = drained.2
     ∧ newly_available_output_since_last_read drained.1 = ""
     ∧ accumulated_output_buffer drained.1
       = accumulated_output_buffer session +:+ fresh_output call.2
     ∧ (∃ taken, output_queue session = taken ++ output_queue drained.1
                 ∧ output_of taken = fresh_output call.2)
     ∧ ∀ session', active_terminal_sessions call.1 !! session_id = Some session' →
                   session' = drained.1)
  ∧ (∀ (ops later : list operation) (id : Z) session session',
       active_terminal_sessions (run ops) !! id = Some session →
       newly_available_output_since_last_read session = "" →
       active_terminal_sessions (run (ops ++ later)) !! id = Some session' →
       newly_available_output_since_last_read session' = ""
       ∧ ∀ current_time status,
           status ∈ get_list_of_all_active_sessions_with_status
                      (run (ops ++ later)) current_time →
           session_id status = id →
           has_new_output status = false)
  ∧ (∀ (ops : list operation) (op : operation) (id : Z) session session',
       active_terminal_sessions (run ops) !! id = Some session →
       active_terminal_sessions (step (run ops) op) !! id = Some session' →
       newly_available_output_since_last_read session'
       = newly_available_output_since_last_read session
       ∨ newly_available_output_since_last_read session' = "").
Proof.
  split_and!.
  - intros m session_id now ticks session call drained Hact Hempty.
    pose proof (read_session_active m session_id now ticks session Hact) as Hread.
    simpl in Hread. rewrite Hempty in Hread. simpl in Hread.
    destruct Hread as [Hret Hs]. fold call drained in Hret, Hs.
    destruct drained as [session1 ret] eqn:Hdrain.
    apply read_drain_inv in Hdrain as (taken & Hq & Hacc & Hnew & Hout & _).
    simpl in *. rewrite Hret in *.
    split_and!; [done|congruence|by rewrite Hacc, Hout|by exists taken|].
    intros session' Hact'.
    destruct ret; destruct Hs as [Hs _]; rewrite Hs in Hact'; congruence.
  - intros ops later id session session' Hact Hempty Hact'.
    assert (newly_available_output_since_last_read session' = "") as Hempty'.
    { unfold run in Hact'. rewrite foldl_app in Hact'.
      by apply (steps_pending_stays_empty later id (run ops) session session'
                  (run_inv ops)). }
    split; [done|]. intros current_time status Hin Hid.
    apply list_entry in Hin as (session0 & Hlook & _ & -> & _).
    rewrite Hid, Hact' in Hlook. injection Hlook as <-.
    by rewrite Hempty'.
  - intros ops op id session session' Hact Hact'.
    by destruct (step_session_frame _ _ _ _ _ (run_inv ops) Hact Hact') as (_ & ? & _).
Qed.

Lemma blocking_read_never_refills_pending_witness :
  let ops := [OpStart (inr counting) 0 (Window [got_item]); OpRead 1 1 []] in
  let later := [OpRead 1 2 [got_item]; OpList 3; OpRead 1 3 [nothing_yet; got_item]] in
  let session' :=
    {| ts_process_id := 1;
       accumulated_output_buffer :=
         "1" +:+ newline +:+ "2" +:+ newline +:+ "3" +:+ newline;
       newly_available_output_since_last_read := "";
       command_execution_has_completed := false;
       session_creation_timestamp := 0;
       output_queue := [Completed None];
       last_exit_code := None |} in
  let status :=
    {| session_id := 1; is_completed := false; runtime := 4;
       has_new_output := false; total_output_length := 6 |} in
  active_terminal_sessions (run (ops ++ later)) !! 1 = Some session'
  ∧ newly_available_output_since_last_read session' = ""
  ∧ get_list_of_all_active_sessions_with_status (run (ops ++ later)) 4 = [status]
  ∧ has_new_output status = false.
Proof.
  intros ops later session' status.
  assert (active_terminal_sessions (run (ops ++ later)) !! 1 = Some session') as Hact'
    by (by vm_compute).
  assert (get_list_of_all_active_sessions_with_status (run (ops ++ later)) 4 = [status])
    as Hlist by (by vm_compute).
  destruct blocking_read_never_refills_pending as (_ & Hlater & _).
  destruct (Hlater ops later 1
              {| ts_process_id := 1;
                 accumulated_output_buffer := "1" +:+ newline;
                 newly_available_output_since_last_read := "";
                 command_execution_has_completed := false;
                 session_creation_timestamp := 0;
                 output_queue :=
                   [Output ("2" +:+ newline); Output ("3" +:+ newline); Completed None];
                 last_exit_code := None |}
              session') as [Hempty Hstatus];
    [by vm_compute|reflexivity|exact Hact'|].
  split_and!; [exact Hact'|exact Hempty|exact Hlist|].
  apply (Hstatus 4 status); [|reflexivity].
  rewrite Hlist. left.
Defined.

(** ** Output handed out by [start] and [read] *)

Lemma read_value_fresh (format_runtime : Z → string) (session_id : Z) (ret : read_return) :
  (read_value format_runtime session_id ret).1 = fresh_output ret ∨ fresh_output ret = "".
Proof.
  destruct ret as [| | |c x| | |c x|x]; simpl; auto.
  all: destruct (truthy x) eqn:Hx; [by left|right; by apply truthy_false].
Qed.

Lemma start_session_delivered
    (m : comprehensive_terminal_session_manager_with_background_support)
    (process : process_behaviour) (now : Z) (ticks : list tick) :
  let call :=
    start_command_execution_with_timeout_and_background_support m (inr process) now (Window ticks) in
  session_delivered call.1 (process_id call.2) (initial_output_text call.2)
    (initial_output_text call.2) (output_of (output_reader_thread process)).
Proof.
  intros call.
  destruct (start_spawned m process now ticks) as (Hactive & _ & _ & Hid & Hio & _).
  fold call in Hactive, Hid, Hio. rewrite Hid, Hio.
  destruct (start_drain _ _ _) as [[session initial_output] exit] eqn:Hdrain.
  apply start_drain_inv in Hdrain as (taken & Hq & Hinit & Hacc & Hnew & _).
  simpl in *. rewrite append_nil_l in Hinit, Hacc, Hnew.
  assert (output_of (output_reader_thread process)
          = initial_output +:+ output_of (output_queue session)) as Htotal.
  { by rewrite Hq, output_of_app, Hinit. }
  unfold session_delivered. rewrite Hactive, lookup_insert_eq. split_and!.
  - intros ? [= <-]. split_and!; [congruence|done|left; congruence].
  - done.
  - by eexists.
Qed.

Lemma read_session_delivered
    (m : comprehensive_terminal_session_manager_with_background_support)
    (id now : Z) (ticks : list tick) (initial delivered total : string) :
  let call := read_session m id now ticks in
  session_delivered m id initial delivered total →
  session_delivered call.1 id initial (delivered +:+ fresh_output call.2) total
  ∧ ∀ output, call.2 = ReturnPending output → output = initial.
Proof.
  intros call (Hactive & Harchived & Hprefix).
  destruct (active_terminal_sessions m !! id) as [session|] eqn:Hact.
  2:{ assert (call.1 = m ∧ fresh_output call.2 = "" ∧ ∀ output, call.2 ≠ ReturnPending output)
        as (-> & -> & Hno).
      { subst call. unfold read_session. rewrite Hact.
        by destruct (completed_session_history m !! id). }
      rewrite append_nil_r. split; [|intros output ?; by destruct (Hno output)].
      unfold session_delivered. rewrite Hact. by split_and!. }
  destruct (Hactive session eq_refl) as (Hacc & Htotal & Hpending).
  pose proof (read_session_active m id now ticks session Hact) as Hread.
  fold call in Hread. simpl in Hread.
  destruct (truthy (newly_available_output_since_last_read session)) eqn:Htruthy.
  { destruct Hread as (-> & Hs & _). simpl. rewrite append_nil_r. split.
    - unfold session_delivered. rewrite Hs. split_and!; [|done|done].
      intros ? [= <-]. simpl. split_and!; [done|done|by right].
    - intros output [= <-]. destruct Hpending as [?|Hnil]; [done|].
      by rewrite Hnil in Htruthy. }
  destruct Hread as [Hret Hs].
  destruct (read_drain ticks session "") as [session1 ret] eqn:Hdrain.
  simpl in Hret, Hs. rewrite Hret in *.
  apply read_drain_inv in Hdrain as (taken & Hq & Hacc1 & Hnew & Hout & Hcase).
  assert (accumulated_output_buffer session1 = delivered +:+ fresh_output ret) as Hacc'
    by (by rewrite Hacc1, Hacc, Hout).
  assert ((delivered +:+ fresh_output ret) +:+ output_of (output_queue session1) = total)
    as Htotal'.
  { by rewrite <- Hout, append_assoc, <- output_of_app, <- Hq. }
  assert (newly_available_output_since_last_read session1 = initial
          ∨ newly_available_output_since_last_read session1 = "") as Hpending'
    by (by rewrite Hnew).
  split; [|intros output ->; by destruct Hcase].
  unfold session_delivered.
  destruct ret; try done; destruct Hs as [Hs Harch]; rewrite Hs; split_and!;
    try done; try (intros ? [= <-]; by split_and!); try (by eexists).
  intros _ completed Hc. rewrite Harch in Hc.
  apply keep_most_recent_lookup in Hc. rewrite lookup_insert_eq in Hc.
  injection Hc as <-. exact Hacc'.
Qed.

Lemma move_archive_lookup (m : comprehensive_terminal_session_manager_with_background_support)
    (session_id now id : Z) completed :
  completed_session_history (_move_session_to_completed m session_id now) !! id
  = Some completed →
  match active_terminal_sessions m !! session_id with
  | Some session =>
      if decide (id = session_id) then completed = archive_entry session_id session now
      else completed_session_history m !! id = Some completed
  | None => completed_session_history m !! id = Some completed
  end.
Proof.
  unfold _move_session_to_completed.
  destruct (active_terminal_sessions m !! session_id) as [session|]; [|done].
  simpl. intros Hc%keep_most_recent_lookup.
  case_decide as Hid.
  - subst. rewrite lookup_insert_eq in Hc. congruence.
  - by rewrite lookup_insert_ne in Hc.
Qed.

(** A call that leaves the session of [id] alone and adds nothing under
    [id] to the archive keeps what has been handed out. *)
Lemma session_delivered_frame
    (m m' : comprehensive_terminal_session_manager_with_background_support)
    (id : Z) (initial delivered total : string) :
  active_terminal_sessions m' !! id = active_terminal_sessions m !! id →
  (∀ completed, completed_session_history m' !! id = Some completed →
                completed_session_history m !! id = Some completed) →
  session_delivered m id initial delivered total →
  session_delivered m' id initial delivered total.
Proof.
  intros Hact Harch (Hactive & Harchived & Hprefix).
  unfold session_delivered. rewrite Hact. split_and!; [done| |done].
  intros Hnone completed Hc. apply (Harchived Hnone). by apply Harch.
Qed.

Lemma step_session_delivered
    (m : comprehensive_terminal_session_manager_with_background_support)
    (op : operation) (id : Z) (initial delivered total : string) :
  id < next_session_id m →
  session_delivered m id initial delivered total →
  id < next_session_id (step m op)
  ∧ session_delivered (step m op) id initial
      (delivered +:+ join (fresh_output <$> read_returns m id [op])) total
  ∧ Forall (λ ret, ∀ output, ret = ReturnPending output → output = initial)
           (read_returns m id [op]).
Proof.
  intros Hlt Hdelivered.
  split; [pose proof (step_next_session_id_mono m op); lia|].
  destruct op as [popen now window|session_id now ticks|session_id stop now|t]; simpl.
  - rewrite append_nil_r. split; [|done].
    destruct (start_frame m popen now window) as (Hother & Harchive & _).
    apply (session_delivered_frame m); [|by rewrite Harchive|done].
    apply Hother. lia.
  - case_decide as Hid; simpl.
    + subst session_id. rewrite append_nil_r.
      destruct (read_session_delivered m id now ticks _ _ _ Hdelivered) as [Hnext Hpending].
      split; [done|]. by constructor.
    + rewrite append_nil_r. split; [|done].
      apply (session_delivered_frame m); [by apply read_session_other| |done].
      intros completed. unfold read_session.
      destruct (active_terminal_sessions m !! session_id) as [session|] eqn:Hact;
        [|by destruct (completed_session_history m !! session_id)].
      destruct (truthy _); [done|].
      destruct (read_drain ticks session "") as [session' ret].
      destruct ret; simpl; try done.
      intros Hc%move_archive_lookup. simpl in Hc.
      by rewrite lookup_insert_eq, decide_False in Hc.
  - rewrite append_nil_r. split; [|done].
    unfold force_terminate_session_with_cleanup.
    destruct (active_terminal_sessions m !! session_id) as [session|] eqn:Hact; [|done].
    destruct stop; simpl; [|done].
    destruct Hdelivered as (Hactive & Harchived & Hprefix).
    unfold session_delivered. rewrite move_active_lookup.
    case_decide as Hid.
    + subst session_id. split_and!; [done| |done].
      intros _ completed Hc%move_archive_lookup.
      rewrite Hact, decide_True in Hc by done. subst completed. simpl.
      by destruct (Hactive session Hact).
    + split_and!; [done| |done].
      intros Hnone completed Hc%move_archive_lookup.
      rewrite Hact, decide_False in Hc by done. by apply (Harchived Hnone).
  - rewrite append_nil_r. by split.
Qed.

Lemma read_returns_cons (m : comprehensive_terminal_session_manager_with_background_support)
    (id : Z) (op : operation) (ops : list operation) :
  read_returns m id (op :: ops) = read_returns m id [op] ++ read_returns (step m op) id ops.
Proof. simpl. by rewrite app_nil_r. Qed.

Lemma steps_session_delivered (ops : list operation) (id : Z) :
  ∀ (m : comprehensive_terminal_session_manager_with_background_support)
    (initial delivered total : string),
    id < next_session_id m →
    session_delivered m id initial delivered total →
    session_delivered (foldl step m ops) id initial
      (delivered +:+ join (fresh_output <$> read_returns m id ops)) total
    ∧ Forall (λ ret, ∀ output, ret = ReturnPending output → output = initial)
             (read_returns m id ops).
Proof.
  induction ops as [|op ops IH]; intros m initial delivered total Hlt Hdelivered.
  - simpl. rewrite append_nil_r. by split.
  - destruct (step_session_delivered m op id _ _ _ Hlt Hdelivered) as (Hlt' & Hnext & Hpending).
    destruct (IH _ _ _ _ Hlt' Hnext) as [Hfinal Hpending'].
    rewrite read_returns_cons, fmap_app, join_app, <- append_assoc.
    split; [exact Hfinal|]. by apply Forall_app.
Qed.

(** C1, as stated, fails: [echo hello] with a window long enough to take both
    items.  [start] returns [hello\n]; the first [read] returns the pending
    buffer, [hello\n] once more; the next [read] returns a status text that
    the process never wrote.  The concatenation is not the process output. *)
Lemma first_read_repeats_initial_output :
  let started :=
    start_command_execution_with_timeout_and_background_support
      init (inr echo_hello) 0 (Window [got_item; got_item]) in
  let first_read :=
    read_new_output_from_session_with_timeout two_decimals started.1 1 1 [got_item] in
  let second_read :=
    read_new_output_from_session_with_timeout two_decimals first_read.1 1 2 [got_item] in
  output_of (output_reader_thread echo_hello) = "hello" +:+ newline
  ∧ process_id started.2 = 1
  ∧ initial_output_text started.2 = "hello" +:+ newline
  ∧ first_read.2 = ("hello" +:+ newline, false)
  ∧ second_read.2 = ("Process completed with exit code None", false)
  ∧ initial_output_text started.2 +:+ first_read.2.1
    ≠ output_of (output_reader_thread echo_hello)
  ∧ initial_output_text started.2 +:+ first_read.2.1 +:+ second_read.2.1
    ≠ output_of (output_reader_thread echo_hello).
Proof. by vm_compute. Qed.

(** C1, amended. For every session, the [initialOutput] of [start] followed
    by the new output each later [read] on that id takes from the queue,
    whatever other calls come in between, is, in order and each chunk once, a
    prefix of the process output: it is the accumulated buffer while the
    session is active (and with the chunks still queued it is the whole
    output), and the archived text once the session is archived.  A [read]
    returns exactly the new output it took when that is not empty; otherwise
    it returns something else (the pending buffer, which repeats
    [initialOutput], the archived summary or a status text). *)
Theorem output_handed_out_in_order_exactly_once (format_runtime : Z → string)
    (m : comprehensive_terminal_session_manager_with_background_support)
    (process : process_behaviour) (now : Z) (ticks : list tick)
    (later : list operation) :
  let started :=
    start_command_execution_with_timeout_and_background_support m (inr process) now (Window ticks) in
  let id := process_id started.2 in
  let final := foldl step started.1 later in
  let returns := read_returns started.1 id later in
  let delivered := initial_output_text started.2 +:+ join (fresh_output <$> returns) in
  let total := output_of (output_reader_thread process) in
  (∃ rest, total = delivered +:+ rest)
  ∧ (∀ session, active_terminal_sessions final !! id = Some session →
                accumulated_output_buffer session = delivered
                ∧ delivered +:+ output_of (output_queue session) = total)
  ∧ (active_terminal_sessions final !! id = None →
     ∀ completed, completed_session_history final !! id = Some completed →
                  complete_output_text completed = delivered)
  ∧ Forall (λ ret, ((read_value format_runtime id ret).1 = fresh_output ret
                    ∨ fresh_output ret = "")
                   ∧ ∀ output, ret = ReturnPending output →
                               output = initial_output_text started.2) returns.
Proof.
  intros started id final returns delivered total.
  pose proof (start_session_delivered m process now ticks) as Hstart.
  fold started id total in Hstart.
  destruct (start_spawned m process now ticks) as (_ & _ & Hnext & Hid & _).
  fold started id in Hnext, Hid.
  simpl in Hstart. fold id in Hstart.
  assert (id < next_session_id started.1) as Hlt by lia.
  destruct (steps_session_delivered later id started.1 _ _ _ Hlt Hstart)
    as ((Hactive & Harchived & Hprefix) & Hpending).
  fold final returns delivered in Hactive, Harchived, Hprefix, Hpending.
  split_and!; try done.
  - intros session Hact. by destruct (Hactive session Hact) as (? & ? & _).
  - apply Forall_forall. intros ret Hret. split; [apply read_value_fresh|].
    rewrite Forall_forall in Hpending. by apply Hpending.
Qed.

(** The run of C1's counterexample, read through the amended statement: the
    three calls hand out [hello\n] once. *)
Example echo_hello_handed_out_once :
  let started :=
    start_command_execution_with_timeout_and_background_support
      init (inr echo_hello) 0 (Window [got_item; got_item]) in
  let returns :=
    read_returns started.1 1 [OpRead 1 1 [got_item]; OpRead 1 2 [got_item]] in
  returns = [ReturnPending ("hello" +:+ newline); ReturnAlreadyCompleted None ""]
  ∧ initial_output_text started.2 +:+ join (fresh_output <$> returns)
    = output_of (output_reader_thread echo_hello).
Proof. by vm_compute. Qed.

(** A run in which every chunk comes out of [start] or of a blocking [read],
    with calls on another session in between. *)
Example counting_handed_out_once :
  let started :=
    start_command_execution_with_timeout_and_background_support
      init (inr counting) 0 (Window [got_item]) in
  let returns :=
    read_returns started.1 1
      [OpRead 1 1 []; OpStart (inr echo_hello) 1 (Window [got_item]); OpRead 1 2 [got_item];
       OpRead 2 2 []; OpRead 1 3 [nothing_yet; got_item]; OpTerminate 2 Stopped 3;
       OpRead 1 4 [got_item]; OpRead 1 5 [got_item]] in
  initial_output_text started.2 = "1" +:+ newline
  ∧ (read_value two_decimals 1 <$> returns)
    = [("1" +:+ newline, false); ("2" +:+ newline, false); ("3" +:+ newline, false);
       ("Process completed with exit code None", false);
       ("Process completed with exit code None" +:+ newline
          +:+ "Runtime: 0.00s" +:+ newline
          +:+ "Final output:" +:+ newline
          +:+ "1" +:+ newline +:+ "2" +:+ newline +:+ "3" +:+ newline, false)]
  ∧ initial_output_text started.2 +:+ join (fresh_output <$> returns)
    = output_of (output_reader_thread counting).
Proof. by vm_compute. Qed.

(** The archive at capacity: 101 sessions are started and the first hundred
    terminated; terminating the last one inserts a 101st entry and deletes
    the entry of session 1. *)
Example archive_full_evicts_session_1 :
  let starts := (λ _, OpStart (inr counting) 0 (Window [])) <$> seq 0 101 in
  let stops := (λ i, OpTerminate (Z.of_nat i) Stopped 1) <$> seq 1 100 in
  let m := run (starts ++ stops) in
  let m' := _move_session_to_completed m 101 2 in
  size (completed_session_history m) = 100%nat
  ∧ is_Some (completed_session_history m !! 1)
  ∧ size (completed_session_history m') = 100%nat
  ∧ completed_session_history m' !! 1 = None
  ∧ is_Some (completed_session_history m' !! 101).
Proof. vm_compute. split_and!; try done; by eexists. Qed.

(** The lowest id may be the one just inserted: session 1 is terminated
    after sessions 2 to 101 have filled the archive, and is deleted at once. *)
Example archive_full_evicts_the_new_entry :
  let starts := (λ _, OpStart (inr counting) 0 (Window [])) <$> seq 0 101 in
  let stops := (λ i, OpTerminate (Z.of_nat i) Stopped 1) <$> seq 2 100 in
  let m := run (starts ++ stops) in
  let call := force_terminate_session_with_cleanup m 1 Stopped 2 in
  size (completed_session_history m) = 100%nat
  ∧ call.2 = true
  ∧ active_terminal_sessions call.1 !! 1 = None
  ∧ completed_session_history call.1 !! 1 = None
  ∧ completed_session_history call.1 = completed_session_history m.
Proof. vm_compute. split_and!; done. Qed.

(** * Further properties of the manager *)

(** ** Session ids *)

Lemma step_next_session_id
    (m : comprehensive_terminal_session_manager_with_background_support) (op : operation) :
  next_session_id (step m op)
  = next_session_id m + (if takes_session_id op then 1 else 0).
Proof.
  destruct op as [popen now window|session_id now ticks|session_id stop now|t];
    unfold step, takes_session_id.
  - rewrite start_manager. destruct popen as [[e|e]|process]; simpl; lia.
  - rewrite read_session_next_session_id. lia.
  - unfold force_terminate_session_with_cleanup.
    destruct (active_terminal_sessions m !! session_id); [|simpl; lia].
    destruct stop; simpl; [|lia]. rewrite move_next_session_id. lia.
  - lia.
Qed.

Lemma steps_next_session_id (ops : list operation) :
  ∀ m : comprehensive_terminal_session_manager_with_background_support,
    next_session_id (foldl step m ops) = next_session_id m + session_ids_taken ops.
Proof.
  unfold session_ids_taken.
  induction ops as [|op ops IH]; intros m; simpl foldl; [simpl; lia|].
  rewrite IH, step_next_session_id, filter_cons.
  destruct (takes_session_id op) eqn:Hop.
  - rewrite decide_True by done. simpl length. lia.
  - case_decide as Hfalse; [by destruct Hfalse|]. lia.
Qed.

(** The id a [start] returns: the counter it found, or the sentinel. *)
Lemma start_process_id (m : comprehensive_terminal_session_manager_with_background_support)
    (popen : start_failure + process_behaviour) (now : Z) (window : timeout_window) :
  process_id (start_command_execution_with_timeout_and_background_support
                m popen now window).2
  = match popen, window with
    | inr _, Window _ => next_session_id m
    | _, _ => -1
    end.
Proof.
  destruct popen as [[e|e]|process]; [done..|].
  destruct window as [e|ticks]; [done|].
  by destruct (start_spawned m process now ticks) as (_ & _ & _ & Hid & _).
Qed.

Lemma named_sessions_app
    (results results' : list command_execution_result_with_background_support) :
  named_sessions (results ++ results') = named_sessions results ++ named_sessions results'.
Proof. unfold named_sessions. by rewrite fmap_app, filter_app. Qed.

(** The ids returned by the starts of a sequence of calls are distinct and
    lie between the counter before and the counter after. *)
Lemma named_sessions_fresh (ops : list operation) :
  ∀ m : comprehensive_terminal_session_manager_with_background_support,
    NoDup (named_sessions (start_results m ops))
    ∧ ∀ id, id ∈ named_sessions (start_results m ops) →
            next_session_id m ≤ id < next_session_id (foldl step m ops).
Proof.
  induction ops as [|op ops IH]; intros m; simpl start_results; simpl foldl.
  { split; [constructor|]. intros id Hid. by apply elem_of_nil in Hid. }
  destruct (IH (step m op)) as [Hnodup Hrange].
  pose proof (step_next_session_id m op) as Hstep.
  assert (next_session_id (step m op) ≤ next_session_id (foldl step (step m op) ops))
    as Hmono by (rewrite steps_next_session_id; unfold session_ids_taken; lia).
  rewrite named_sessions_app.
  assert (∀ id, id ∈ named_sessions
                       match op with
                       | OpStart popen now window =>
                           [(start_command_execution_with_timeout_and_background_support
                               m popen now window).2]
                       | _ => []
                       end →
                id = next_session_id m ∧ takes_session_id op = true) as Hhead.
  { intros id. destruct op as [popen now window| | |];
      try (intros Hid; by apply elem_of_nil in Hid).
    unfold named_sessions. rewrite fmap_cons, fmap_nil, start_process_id.
    intros [Hne Hid]%list_elem_of_filter. apply list_elem_of_singleton in Hid.
    destruct popen as [[e|e]|process]; [done..|].
    by destruct window as [e|ticks]. }
  split.
  - apply NoDup_app. split_and!; [|intros id Hid Hid'|done].
    + destruct op as [popen now window| | |]; try constructor.
      unfold named_sessions. rewrite fmap_cons, fmap_nil, filter_cons, filter_nil.
      case_decide; [apply NoDup_singleton|constructor].
    + apply Hhead in Hid as [-> Htakes]. apply Hrange in Hid'.
      rewrite Htakes in Hstep. lia.
  - intros id [Hid|Hid]%elem_of_app.
    + apply Hhead in Hid as [-> Htakes]. rewrite Htakes in Hstep. lia.
    + apply Hrange in Hid. destruct (takes_session_id op); lia.
Qed.

(** C9, as stated, fails: the class holds no lock, and two [start] calls
    whose accesses to the manager alternate are both given id 1.  Each reads
    the counter (line 431) before the other writes it (line 432); the second
    registration (line 474) replaces the first, whose session is lost; the
    counter ends at 3, so that id 2 is never used. *)
Lemma overlapping_starts_share_an_id :
  let overlapped :=
    interleave [0; 1; 0; 1; 0; 1]%nat init [entering counting 0; entering echo_hello 0] in
  local_session_id <$> overlapped.2 = [1; 1]
  ∧ accesses_done <$> overlapped.2 = [3; 3]%nat
  ∧ next_session_id overlapped.1 = 3
  ∧ size (active_terminal_sessions overlapped.1) = 1%nat
  ∧ active_terminal_sessions overlapped.1 !! 1 = Some (new_session 1 echo_hello 0)
  ∧ active_terminal_sessions overlapped.1 !! 2 = None
  ∧ completed_session_history overlapped.1 !! 2 = None.
Proof. by vm_compute. Qed.

(** C9, amended. The manager has no lock.  When calls do not overlap, no id
    is allocated twice and no update is lost: the ids returned by the [start]
    calls of any sequence of calls are distinct; a [start] that returns an id
    returns the counter it found, which was in neither map and has been
    returned by no earlier [start], it registers its session under that id
    and leaves every other session and the archive as they were.  The three
    accesses of [start] to the manager, made by one thread without another in
    between, give the manager that [start] gives. *)
Theorem ids_are_distinct_when_calls_do_not_overlap :
  (∀ ops : list operation, NoDup (named_sessions (start_results init ops)))
  ∧ (∀ (ops : list operation) (popen : start_failure + process_behaviour) (now : Z)
       (window : timeout_window),
       let m := run ops in
       let call :=
         start_command_execution_with_timeout_and_background_support m popen now window in
       process_id call.2 ≠ -1 →
       process_id call.2 = next_session_id m
       ∧ (process_id call.2 ∉ named_sessions (start_results init ops))
       ∧ active_terminal_sessions m !! process_id call.2 = None
       ∧ completed_session_history m !! process_id call.2 = None
       ∧ is_Some (active_terminal_sessions call.1 !! process_id call.2)
       ∧ (∀ id, id ≠ process_id call.2 →
                active_terminal_sessions call.1 !! id = active_terminal_sessions m !! id)
       ∧ completed_session_history call.1 = completed_session_history m
       ∧ next_session_id call.1 = next_session_id m + 1)
  ∧ (∀ (m : comprehensive_terminal_session_manager_with_background_support)
       (process : process_behaviour) (now : Z),
       let alone := interleave [0; 0; 0]%nat m [entering process now] in
       alone.1
       = (start_command_execution_with_timeout_and_background_support
            m (inr process) now (Window [])).1
       ∧ local_session_id <$> alone.2
         = [process_id (start_command_execution_with_timeout_and_background_support
                          m (inr process) now (Window [])).2]).
Proof.
  split_and!.
  - intros ops. apply named_sessions_fresh.
  - intros ops popen now window m call Hid.
    pose proof (start_process_id m popen now window) as Hcall. fold call in Hcall.
    destruct popen as [[e|e]|process]; [done..|].
    destruct window as [e|ticks]; [done|].
    destruct (start_spawned m process now ticks)
      as (Hactive & Harchive & Hnext & _).
    fold call in Hactive, Harchive, Hnext.
    destruct (run_inv ops) as (_ & _ & Hrange & Hrange' & _). fold m in Hrange, Hrange'.
    rewrite Hcall, Hactive. split_and!; try done.
    + intros Hin. apply named_sessions_fresh in Hin. fold (run ops) in Hin.
      fold m in Hin. lia.
    + destruct (active_terminal_sessions m !! next_session_id m) eqn:Hlookup; [|done].
      assert (1 ≤ next_session_id m < next_session_id m) by (apply Hrange; eauto). lia.
    + destruct (completed_session_history m !! next_session_id m) eqn:Hlookup; [|done].
      assert (1 ≤ next_session_id m < next_session_id m) by (apply Hrange'; eauto). lia.
    + rewrite lookup_insert_eq. eauto.
    + intros id Hne. by apply lookup_insert_ne.
  - intros m process now alone. subst alone.
    rewrite start_manager, start_process_id. done.
Qed.

Lemma ids_are_distinct_when_calls_do_not_overlap_witness :
  let ops := [OpStart (inr counting) 0 (Window [got_item]);
              OpStart (inl (ThreadStartRaised "can't start new thread")) 1 (Window []);
              OpRead 1 2 [got_item]] in
  let call :=
    start_command_execution_with_timeout_and_background_support
      (run ops) (inr echo_hello) 3 (Window []) in
  process_id call.2 = 3
  ∧ named_sessions (start_results init ops) = [1]
  ∧ active_terminal_sessions (run ops) !! 3 = None
  ∧ is_Some (active_terminal_sessions call.1 !! 3).
Proof.
  intros ops call.
  destruct ids_are_distinct_when_calls_do_not_overlap as (_ & Hstart & _).
  destruct (Hstart ops (inr echo_hello) 3 (Window []))
    as (Hid & _ & Hfresh & _ & Hactive & _); [by vm_compute|].
  change (process_id call.2) with 3 in Hfresh, Hactive.
  split_and!; [reflexivity|reflexivity|exact Hfresh|exact Hactive].
Defined.

(** X1. Session ids are handed out consecutively from 1 and never reused.
    The counter after a sequence of calls is 1 plus the number of [start]
    calls that got past line 432, whether or not they failed later; a [start]
    that returns an id returns that counter, and a later one returns a
    strictly higher id.  A [start] that fails after line 432 returns the
    sentinel and the id is used up; calls that do not get to line 432 (a
    failed spawn, [read], [terminate], [list]) use up no id. *)
Theorem session_ids_are_consecutive (ops later : list operation)
    (process process' : process_behaviour) (now now' : Z) (ticks ticks' : list tick) :
  let first :=
    start_command_execution_with_timeout_and_background_support
      (run ops) (inr process) now (Window ticks) in
  let second :=
    start_command_execution_with_timeout_and_background_support
      (foldl step first.1 later) (inr process') now' (Window ticks') in
  next_session_id (run ops) = 1 + session_ids_taken ops
  ∧ process_id first.2 = 1 + session_ids_taken ops
  ∧ process_id second.2 = process_id first.2 + 1 + session_ids_taken later
  ∧ process_id first.2 < process_id second.2
  ∧ (∀ (popen : start_failure + process_behaviour) (window : timeout_window),
       let call :=
         start_command_execution_with_timeout_and_background_support
           (run ops) popen now window in
       process_id call.2
       = match popen, window with
         | inr _, Window _ => 1 + session_ids_taken ops
         | _, _ => -1
         end
       ∧ next_session_id call.1
         = match popen with
           | inl (RaisedBeforeSpawn _) => 1 + session_ids_taken ops
           | _ => 2 + session_ids_taken ops
           end).
Proof.
  intros first second.
  destruct (start_spawned (run ops) process now ticks) as (_ & _ & Hnext & Hid & _).
  destruct (start_spawned (foldl step first.1 later) process' now' ticks')
    as (_ & _ & _ & Hid' & _).
  fold first in Hnext, Hid. fold second in Hid'.
  assert (next_session_id (run ops) = 1 + session_ids_taken ops) as Hrun
    by (unfold run; by rewrite steps_next_session_id).
  rewrite Hid', steps_next_session_id, Hnext, Hid, Hrun.
  unfold session_ids_taken. split_and!; try lia.
  intros popen window.
  rewrite start_process_id, start_manager, Hrun.
  split; [done|].
  destruct popen as [[e|e]|process'']; simpl; rewrite ?Hrun;
    unfold session_ids_taken; lia.
Qed.

(** ** Which sessions the archive keeps *)

Lemma update_active_evicted
    (m : comprehensive_terminal_session_manager_with_background_support)
    (ids : list Z) (session_id : Z) session :
  evicted_ids_are_lowest m ids → is_Some (active_terminal_sessions m !! session_id) →
  evicted_ids_are_lowest
    (set_maps (<[session_id := session]> (active_terminal_sessions m))
              (completed_session_history m) m) ids.
Proof.
  intros Hev Hact id Hid Hnone Hnone'. simpl in *.
  apply lookup_insert_None in Hnone as [Hnone _]. by apply Hev.
Qed.

Lemma move_evicted (m : comprehensive_terminal_session_manager_with_background_support)
    (ids : list Z) (session_id now : Z) :
  registry_inv m → evicted_ids_are_lowest m ids →
  evicted_ids_are_lowest (_move_session_to_completed m session_id now) ids.
Proof.
  intros (Hmax & _ & Hrange & _ & Hdisj & Hsize) Hev.
  destruct (active_terminal_sessions m !! session_id) as [session|] eqn:Hact;
    [|by rewrite move_inactive].
  rewrite (move_active _ _ _ _ Hact), Hmax.
  assert (completed_session_history m !! session_id = None) as Hfresh
    by (apply Hdisj; eauto).
  set (history := <[session_id := archive_entry session_id session now]>
                    (completed_session_history m)).
  assert (size history = S (size (completed_session_history m))) as Hsz
    by (by apply map_size_insert_None).
  intros id Hid Hnone Hnone'. simpl in *.
  destruct (decide (100 < Z.of_nat (size history))) as [Hover|Hok].
  2:{ rewrite keep_most_recent_within in Hnone' by done.
      subst history. apply lookup_insert_None in Hnone' as [Hnone' Hne].
      apply lookup_delete_None in Hnone as [->|Hnone]; [done|].
      destruct (Hev id Hid Hnone Hnone') as [Hfull _]. lia. }
  destruct (keep_most_recent_evicts 100 history) as (oldest & Holdest & Hle & Hkeep);
    [lia..|].
  rewrite Hkeep in *.
  split; [rewrite map_size_delete_Some by done; lia|].
  intros k [c [Hne Hk]%lookup_delete_Some].
  destruct (decide (id = oldest)) as [->|Hneq].
  { assert (oldest ≤ k) by (apply Hle; eauto). lia. }
  rewrite lookup_delete_ne in Hnone' by done.
  subst history. apply lookup_insert_None in Hnone' as [Hnone' Hne'].
  apply lookup_delete_None in Hnone as [->|Hnone]; [done|].
  destruct (Hev id Hid Hnone Hnone') as [_ Hlow].
  apply lookup_insert_Some in Hk as [[<- _]|[_ Hk]]; [|apply Hlow; eauto].
  (* the new entry survived although an older id had been evicted before *)
  destruct (decide (id < session_id)) as [|Hge]; [done|].
  assert (oldest = session_id); [|done].
  apply Z.le_antisymm; [apply Hle; rewrite lookup_insert_eq; eauto|].
  destruct Holdest as [c' [[-> _]|[_ Hc']]%lookup_insert_Some]; [done|].
  assert (id < oldest) by (apply Hlow; eauto). lia.
Qed.

Lemma step_evicted (m : comprehensive_terminal_session_manager_with_background_support)
    (ids : list Z) (op : operation) :
  registry_inv m → Forall (λ id, id < next_session_id m) ids →
  evicted_ids_are_lowest m ids →
  evicted_ids_are_lowest (step m op) (ids ++ registered_sessions m [op]).
Proof.
  intros Hinv Hids Hev.
  destruct op as [popen now window|session_id now ticks|session_id stop now|t];
    simpl registered_sessions; rewrite ?app_nil_r; simpl.
  - destruct (start_frame m popen now window) as (Hother & Harchive & Hnext).
    intros id Hid Hnone Hnone'. rewrite Harchive in *.
    apply elem_of_app in Hid as [Hid|Hid].
    + rewrite Forall_forall in Hids. apply Hids in Hid as Hlt.
      rewrite Hother in Hnone by lia. by apply Hev.
    + (* the session registered by this call is active *)
      destruct popen as [e|process]; [by apply elem_of_nil in Hid|].
      apply list_elem_of_singleton in Hid as ->.
      rewrite start_manager in Hnone. simpl in Hnone.
      by rewrite lookup_insert_eq in Hnone.
  - unfold read_session.
    destruct (active_terminal_sessions m !! session_id) as [session|] eqn:Hact;
      [|by destruct (completed_session_history m !! session_id)].
    destruct (truthy _); [apply update_active_evicted; eauto|].
    destruct (read_drain ticks session "") as [session' ret].
    assert (evicted_ids_are_lowest
              (set_maps (<[session_id := session']> (active_terminal_sessions m))
                        (completed_session_history m) m) ids)
      by (apply update_active_evicted; eauto).
    destruct ret; simpl; try done.
    apply move_evicted; [|done]. apply update_active_inv; eauto.
  - unfold force_terminate_session_with_cleanup.
    destruct (active_terminal_sessions m !! session_id); [|done].
    destruct stop; simpl; [by apply move_evicted|done].
  - done.
Qed.

(** The ids under which sessions are registered are below the counter. *)
Lemma registered_sessions_below (ops : list operation) :
  ∀ m : comprehensive_terminal_session_manager_with_background_support,
    Forall (λ id, next_session_id m ≤ id < next_session_id (foldl step m ops))
           (registered_sessions m ops).
Proof.
  induction ops as [|op ops IH]; intros m; simpl; [constructor|].
  pose proof (step_next_session_id m op) as Hstep.
  pose proof (steps_next_session_id ops (step m op)) as Hsteps.
  apply Forall_app. split.
  - destruct op as [[e|process] now window| | |]; try constructor; [|constructor].
    cbn [takes_session_id] in Hstep. unfold session_ids_taken in Hsteps. lia.
  - eapply Forall_impl; [apply IH|]. intros id Hid. simpl in Hid.
    destruct (takes_session_id op); lia.
Qed.

Lemma steps_evicted (ops : list operation) :
  ∀ (m : comprehensive_terminal_session_manager_with_background_support) (ids : list Z),
    registry_inv m → Forall (λ id, id < next_session_id m) ids →
    evicted_ids_are_lowest m ids →
    evicted_ids_are_lowest (foldl step m ops) (ids ++ registered_sessions m ops).
Proof.
  induction ops as [|op ops IH]; intros m ids Hinv Hids Hev.
  { simpl. by rewrite app_nil_r. }
  change (foldl step m (op :: ops)) with (foldl step (step m op) ops).
  assert (registered_sessions m (op :: ops)
          = registered_sessions m [op] ++ registered_sessions (step m op) ops) as ->
    by (simpl; by rewrite app_nil_r).
  rewrite app_assoc.
  pose proof (step_next_session_id m op) as Hstep.
  apply IH; [by apply step_inv| |by apply step_evicted].
  apply Forall_app. split.
  - eapply Forall_impl; [exact Hids|]. intros id Hid. simpl in Hid.
    destruct (takes_session_id op); lia.
  - eapply Forall_impl; [apply (registered_sessions_below [op] m)|].
    intros id Hid. simpl in Hid. lia.
Qed.

Lemma run_evicted (ops : list operation) :
  evicted_ids_are_lowest (run ops) (registered_sessions init ops).
Proof.
  apply (steps_evicted ops init []); [apply init_inv|constructor|].
  intros id Hid. by apply elem_of_nil in Hid.
Qed.

(** An id that was taken and never registered: the thread of the first
    [start] cannot be started, so id 1 is in neither map although nothing
    has been archived yet. *)
Example thread_start_failure_leaves_id_unused :
  let m := run [OpStart (inl (ThreadStartRaised "can't start new thread")) 0 (Window []);
                OpStart (inr counting) 1 (Window [])] in
  next_session_id m = 3
  ∧ registered_sessions init
      [OpStart (inl (ThreadStartRaised "can't start new thread")) 0 (Window []);
       OpStart (inr counting) 1 (Window [])] = [2]
  ∧ active_terminal_sessions m !! 1 = None
  ∧ completed_session_history m !! 1 = None
  ∧ size (completed_session_history m) = 0%nat.
Proof. by vm_compute. Qed.

(** X2. The archive keeps the sessions with the highest ids: when a session
    was registered under an id and the id is in neither map any more, the
    archive is full (100 entries) and each of its entries has a higher id.
    So a session is lost from the archive only to make room for more recent
    ones, and [read] on it then reports that no session was found. *)
Theorem evicted_sessions_are_older_than_archived (format_runtime : Z → string)
    (ops : list operation) (id now : Z) (ticks : list tick) :
  let m := run ops in
  id ∈ registered_sessions init ops →
  active_terminal_sessions m !! id = None →
  completed_session_history m !! id = None →
  1 ≤ id < next_session_id m
  ∧ size (completed_session_history m) = 100%nat
  ∧ (∀ k, is_Some (completed_session_history m !! k) → id < k)
  ∧ read_new_output_from_session_with_timeout format_runtime m id now ticks
    = (m, ("No session found for ID " +:+ str_of_int id, false)).
Proof.
  intros m Hid Hnone Hnone'.
  destruct (run_evicted ops id Hid Hnone Hnone') as [Hfull Hlow].
  pose proof (registered_sessions_below ops init) as Hbelow.
  rewrite Forall_forall in Hbelow. apply Hbelow in Hid. simpl in Hid.
  split_and!; [lia|apply Hid|done|done|].
  unfold read_new_output_from_session_with_timeout, read_session.
  fold m. by rewrite Hnone, Hnone'.
Qed.

Lemma evicted_sessions_are_older_than_archived_witness :
  let starts := (λ _, OpStart (inr counting) 0 (Window [])) <$> seq 0 101 in
  let stops := (λ i, OpTerminate (Z.of_nat i) Stopped 1) <$> seq 1 101 in
  let m := run (starts ++ stops) in
  1 ≤ 1 < next_session_id m
  ∧ size (completed_session_history m) = 100%nat
  ∧ (∀ k, is_Some (completed_session_history m !! k) → 1 < k)
  ∧ read_new_output_from_session_with_timeout two_decimals m 1 5 [got_item]
    = (m, ("No session found for ID 1", false)).
Proof.
  apply (evicted_sessions_are_older_than_archived two_decimals
           (((λ _, OpStart (inr counting) 0 (Window [])) <$> seq 0 101)
              ++ ((λ i, OpTerminate (Z.of_nat i) Stopped 1) <$> seq 1 101))
           1 5 [got_item]); [|by vm_compute..].
  vm_compute. by left.
Defined.

(** ** Sessions whose reader thread has finished *)

Lemma read_drain_empty_queue (ticks : list tick) session (new_output : string) :
  output_queue session = [] →
  read_drain ticks session new_output
  = (session,
     match ticks with
     | [] => ReturnTimeout new_output
     | _ :: _ =>
         if command_execution_has_completed session
         then ReturnAlreadyCompleted (last_exit_code session) new_output
         else ReturnTimeout new_output
     end).
Proof.
  intros Hq. induction ticks as [|t ticks IH]; simpl; [done|].
  assert (queue_get t (output_queue session) = None) as ->.
  { unfold queue_get. rewrite Hq. by destruct (item_arrived t). }
  destruct (command_execution_has_completed session); [done|].
  rewrite IH. by destruct ticks.
Qed.

(** The last item of the reader thread is the only one that is not output:
    once a call has taken a ['completed'] or ['error'] item, the queue is
    empty. *)
Lemma last_item_taken (chunks pre rest : list queue_item) (last item : queue_item) :
  Forall is_output chunks → is_output item = false →
  chunks ++ [last] = pre ++ item :: rest → rest = [].
Proof.
  intros Hchunks Hitem. revert pre.
  induction chunks as [|c chunks IH]; intros pre Heq.
  - destruct pre as [|p pre]; simplify_eq/=; [done|].
    by destruct pre.
  - apply Forall_cons in Hchunks as [Hc Hchunks].
    destruct pre as [|p pre]; simplify_eq/=.
    + by rewrite Hitem in Hc.
    + by apply (IH Hchunks pre).
Qed.

Lemma reader_queue_shape (p : process_behaviour) :
  ∃ chunks last, output_reader_thread p = chunks ++ [last] ∧ Forall is_output chunks.
Proof.
  destruct (output_reader_thread_shape p) as (chunks & last & Heq & Hchunks & _).
  exists chunks, last. split; [done|].
  eapply Forall_impl; [exact Hchunks|]. by intros item (content & -> & _).
Qed.

(** As [step_session_frame], for any manager whose counter is above the id. *)
Lemma step_session_frame_lt
    (m : comprehensive_terminal_session_manager_with_background_support)
    (op : operation) (id : Z) session session' :
  id < next_session_id m →
  active_terminal_sessions m !! id = Some session →
  active_terminal_sessions (step m op) !! id = Some session' →
  command_execution_has_completed session' = command_execution_has_completed session
  ∧ (newly_available_output_since_last_read session'
     = newly_available_output_since_last_read session
     ∨ newly_available_output_since_last_read session' = "")
  ∧ (∃ taken,
       output_queue session = taken ++ output_queue session'
       ∧ accumulated_output_buffer session'
         = accumulated_output_buffer session +:+ output_of taken)
  ∧ session_creation_timestamp session' = session_creation_timestamp session.
Proof.
  intros Hlt Hact Hact'.
  assert (session' = session →
    command_execution_has_completed session' = command_execution_has_completed session
    ∧ (newly_available_output_since_last_read session'
       = newly_available_output_since_last_read session
       ∨ newly_available_output_since_last_read session' = "")
    ∧ (∃ taken,
         output_queue session = taken ++ output_queue session'
         ∧ accumulated_output_buffer session'
           = accumulated_output_buffer session +:+ output_of taken)
    ∧ session_creation_timestamp session' = session_creation_timestamp session)
    as Hsame.
  { intros ->. split_and!; [done|by left| |done]. exists []. by rewrite append_nil_r. }
  destruct op as [popen now window|session_id now ticks|session_id stop now|t]; simpl in Hact'.
  - destruct (start_frame m popen now window) as (Hother & _).
    rewrite Hother in Hact' by lia. apply Hsame. congruence.
  - destruct (decide (id = session_id)) as [->|Hne].
    2:{ rewrite read_session_other in Hact' by done. apply Hsame. congruence. }
    pose proof (read_session_active m session_id now ticks session Hact) as Hread.
    simpl in Hread. destruct (truthy _).
    { destruct Hread as (_ & Hs & _). rewrite Hs in Hact'.
      injection Hact' as <-. simpl. split_and!; [done|by right| |done].
      exists []. by rewrite append_nil_r. }
    destruct Hread as [Hret Hs].
    assert (session_creation_timestamp (read_drain ticks session "").1
            = session_creation_timestamp session) as Hcreated.
    { clear. generalize "". revert session.
      induction ticks as [|t ticks IH]; intros session new_output; simpl; [done|].
      destruct (queue_get t (output_queue session)) as [[[c|c|c] rest]|]; simpl; try done.
      - destruct (truthy _); [done|]. by rewrite IH.
      - destruct (command_execution_has_completed session); [done|]. apply IH. }
    destruct (read_drain ticks session "") as [session1 ret] eqn:Hdrain.
    simpl in Hret, Hs, Hcreated. rewrite Hret in Hs.
    apply read_drain_inv in Hdrain as (taken & Hq & Hacc & Hnew & _ & Hcase).
    assert (session' = session1
            ∧ command_execution_has_completed session1
              = command_execution_has_completed session) as [-> Hflag].
    { destruct ret; destruct Hs as [Hs _]; rewrite Hs in Hact'; try done;
        injection Hact' as <-; (split; [done|]).
      - by destruct Hcase as (_ & ?).
      - by destruct Hcase as (_ & _ & ?).
      - destruct Hcase as (_ & _ & ? & ? & _). congruence.
      - by destruct Hcase as (_ & _ & ?). }
    split_and!; [exact Hflag|by left|by exists taken|done].
  - unfold force_terminate_session_with_cleanup in Hact'.
    destruct (active_terminal_sessions m !! session_id); [|apply Hsame; simpl in *; congruence].
    destruct stop; simpl in Hact'; [|apply Hsame; congruence].
    rewrite move_active_lookup in Hact'. case_decide; [done|]. apply Hsame. congruence.
  - apply Hsame. congruence.
Qed.

(** A call other than a successful [terminate] on it keeps an active session
    active. *)
Lemma step_keeps_active (m : comprehensive_terminal_session_manager_with_background_support)
    (op : operation) (id : Z) session :
  id < next_session_id m →
  active_terminal_sessions m !! id = Some session →
  output_queue session = [] →
  stops_session id op = false →
  is_Some (active_terminal_sessions (step m op) !! id).
Proof.
  intros Hlt Hact Hq Hstop.
  destruct op as [popen now window|session_id now ticks|session_id stop now|t]; simpl.
  - destruct (start_frame m popen now window) as (Hother & _).
    rewrite Hother by lia. eauto.
  - destruct (decide (id = session_id)) as [->|Hne];
      [|rewrite read_session_other by done; eauto].
    pose proof (read_session_active m session_id now ticks session Hact) as Hread.
    simpl in Hread. destruct (truthy _); [destruct Hread as (_ & -> & _); eauto|].
    destruct Hread as [Hret Hs]. rewrite Hret, read_drain_empty_queue in Hs by done.
    simpl in Hs.
    destruct ticks; [|destruct (command_execution_has_completed session)];
      destruct Hs as [-> _]; eauto.
  - unfold force_terminate_session_with_cleanup.
    destruct (active_terminal_sessions m !! session_id) eqn:Hact'; [|eauto].
    destruct stop; simpl; [|eauto].
    rewrite move_active_lookup. simpl in Hstop.
    rewrite decide_False; [eauto|]. intros ->. by rewrite bool_decide_eq_true_2 in Hstop.
  - eauto.
Qed.

Lemma steps_keep_active (later : list operation) (id : Z) :
  ∀ (m : comprehensive_terminal_session_manager_with_background_support) session,
    id < next_session_id m →
    active_terminal_sessions m !! id = Some session →
    output_queue session = [] →
    Forall (λ op, stops_session id op = false) later →
    ∃ session',
      active_terminal_sessions (foldl step m later) !! id = Some session'
      ∧ output_queue session' = []
      ∧ accumulated_output_buffer session' = accumulated_output_buffer session
      ∧ command_execution_has_completed session'
        = command_execution_has_completed session.
Proof.
  induction later as [|op later IH]; intros m session Hlt Hact Hq Hstops; simpl.
  - by exists session.
  - apply Forall_cons in Hstops as [Hstop Hstops].
    destruct (step_keeps_active m op id session Hlt Hact Hq Hstop) as [session1 Hact1].
    destruct (step_session_frame_lt m op id _ _ Hlt Hact Hact1)
      as (Hflag & _ & (taken & Htaken & Hacc) & _).
    rewrite Hq in Htaken. symmetry in Htaken.
    apply app_eq_nil in Htaken as [-> Hq1]. rewrite append_nil_r in Hacc.
    destruct (IH (step m op) session1) as (session' & ? & ? & ? & ?); try done.
    { pose proof (step_next_session_id_mono m op). lia. }
    exists session'. split_and!; congruence.
Qed.

(** X3. A session whose Completed or Error item was taken inside [start]'s
    window is never archived by later calls: through any starts, reads, lists
    and failed terminates it stays in the active map (and out of the archive)
    with the output [start] returned, and [list] keeps listing it.  Only a
    [terminate] whose stop sequence completes removes it. *)
Theorem session_finished_in_start_stays_active (ops later : list operation)
    (process : process_behaviour) (now : Z) (ticks : list tick) :
  let m := run ops in
  let started :=
    start_command_execution_with_timeout_and_background_support m (inr process) now (Window ticks) in
  let drained := start_drain ticks (new_session (next_session_id m) process now) "" in
  let id := process_id started.2 in
  let final := foldl step started.1 later in
  drained.2 = BreakOnCompleted ∨ (∃ content, drained.2 = ReturnOnError content) →
  Forall (λ op, stops_session id op = false) later →
  command_is_still_running_in_background started.2 = false
  ∧ completed_session_history final !! id = None
  ∧ ∃ session,
      active_terminal_sessions final !! id = Some session
      ∧ accumulated_output_buffer session = initial_output_text started.2
      ∧ output_queue session = []
      ∧ ∀ current_time,
          ∃ status,
            status ∈ get_list_of_all_active_sessions_with_status final current_time
            ∧ session_id status = id
            ∧ is_completed status
              = match drained.2 with BreakOnCompleted => true | _ => false end.
Proof.
  intros m started drained id final Hexit Hstops.
  destruct (start_spawned m process now ticks)
    as (Hactive & _ & Hnext & Hid & Hio & Hrunning & _).
  fold started drained id in Hactive, Hnext, Hid, Hio, Hrunning.
  assert (registry_inv started.1) as Hinv0 by apply start_inv, run_inv.
  clearbody started. subst drained.
  destruct (start_drain _ _ _) as [[session0 initial_output] exit] eqn:Hdrain.
  apply start_drain_inv in Hdrain as (taken & Hq & Hinit & Hacc & _ & Hcase).
  cbn [fst snd new_session accumulated_output_buffer output_queue
       command_execution_has_completed] in *.
  rewrite append_nil_l in Hacc, Hinit.
  destruct (reader_queue_shape process) as (chunks & last & Hshape & Hchunks).
  rewrite Hshape in Hq.
  assert (output_queue session0 = []
          ∧ command_is_still_running_in_background started.2 = false
          ∧ command_execution_has_completed session0
            = match exit with BreakOnCompleted => true | _ => false end)
    as (Hempty & Hstill & Hflag).
  { rewrite Hrunning.
    destruct Hexit as [->|[content ->]].
    - destruct Hcase as [(pre & c & -> & _) ->]. rewrite <- app_assoc in Hq.
      by rewrite (last_item_taken chunks pre (output_queue session0) last
                    (Completed c) Hchunks eq_refl Hq).
    - destruct Hcase as [(pre & -> & _) ->]. rewrite <- app_assoc in Hq.
      by rewrite (last_item_taken chunks pre (output_queue session0) last
                    (Error content) Hchunks eq_refl Hq). }
  assert (active_terminal_sessions started.1 !! id = Some session0) as Hact
    by (by rewrite Hactive, Hid, lookup_insert_eq).
  destruct (steps_keep_active later id started.1 session0)
    as (session & Hfinal & Hq' & Hacc' & Hflag'); [lia|done..|].
  assert (registry_inv final) as Hinv.
  { by apply steps_inv. }
  split_and!; [done| |].
  - destruct Hinv as (_ & _ & _ & _ & Hdisj & _). apply Hdisj. eauto.
  - exists session. split_and!; [done|congruence|done|].
    intros current_time.
    eexists. split.
    + unfold get_list_of_all_active_sessions_with_status.
      apply list_elem_of_fmap. exists (id, session). split; [done|].
      by apply elem_of_active_sessions_in_order.
    + simpl. split; [done|congruence].
Qed.

Lemma session_finished_in_start_stays_active_witness :
  let started :=
    start_command_execution_with_timeout_and_background_support
      init (inr echo_hello) 0 (Window [got_item; got_item]) in
  let later :=
    [OpRead 1 1 [got_item]; OpRead 1 2 [got_item]; OpTerminate 1 StopRaises 3;
     OpStart (inr counting) 4 (Window [got_item]); OpRead 1 5 [nothing_yet; got_item]] in
  let final := foldl step started.1 later in
  command_is_still_running_in_background started.2 = false
  ∧ completed_session_history final !! 1 = None
  ∧ ∃ session,
      active_terminal_sessions final !! 1 = Some session
      ∧ accumulated_output_buffer session = "hello" +:+ newline
      ∧ output_queue session = []
      ∧ ∀ current_time,
          ∃ status,
            status ∈ get_list_of_all_active_sessions_with_status final current_time
            ∧ session_id status = 1
            ∧ is_completed status = true.
Proof.
  apply (session_finished_in_start_stays_active [] _ echo_hello 0 [got_item; got_item]).
  - by left.
  - repeat constructor.
Defined.

(** X4. [read] on an active session whose reader thread has finished (empty
    queue) and whose pending buffer is empty changes nothing, whatever the
    timeout: it reports [No new output available] with the timeout flag when
    the session is not marked completed (so a session stuck after an Error
    item never gets out of this state) or when the timeout allows no
    iteration, and [Process completed with exit code <code>] otherwise. *)
Theorem read_on_finished_session_changes_nothing (format_runtime : Z → string)
    (m : comprehensive_terminal_session_manager_with_background_support)
    (session_id now : Z) (ticks : list tick) session :
  active_terminal_sessions m !! session_id = Some session →
  output_queue session = [] →
  newly_available_output_since_last_read session = "" →
  read_new_output_from_session_with_timeout format_runtime m session_id now ticks
  = (m,
     match ticks with
     | [] => ("No new output available", true)
     | _ :: _ =>
         if command_execution_has_completed session
         then ("Process completed with exit code "
                 +:+ str_of_optional_int (last_exit_code session), false)
         else ("No new output available", true)
     end).
Proof.
  intros Hact Hq Hpending.
  unfold read_new_output_from_session_with_timeout, read_session.
  rewrite Hact, Hpending. simpl truthy. cbv iota.
  rewrite read_drain_empty_queue by done.
  assert (set_maps (<[session_id := session]> (active_terminal_sessions m))
                   (completed_session_history m) m = m) as Hsame.
  { rewrite insert_id by done. by destruct m. }
  destruct ticks as [|t ticks]; [|destruct (command_execution_has_completed session)];
    simpl; by rewrite Hsame.
Qed.

Lemma read_on_finished_session_changes_nothing_witness :
  let m :=
    (start_command_execution_with_timeout_and_background_support
       init (inr undecodable) 0 (Window [got_item])).1 in
  read_new_output_from_session_with_timeout two_decimals m 1 5
    [got_item; nothing_yet; got_item]
  = (m, ("No new output available", true)).
Proof.
  apply (read_on_finished_session_changes_nothing two_decimals _ 1 5
           [got_item; nothing_yet; got_item]
           {| ts_process_id := 1;
              accumulated_output_buffer := "";
              newly_available_output_since_last_read := "";
              command_execution_has_completed := false;
              session_creation_timestamp := 0;
              output_queue := [];
              last_exit_code := None |}); by vm_compute.
Defined.

(** ** What [read] archives *)

Lemma steps_queue_suffix (later : list operation) (id : Z) :
  ∀ (m : comprehensive_terminal_session_manager_with_background_support) session session',
    id < next_session_id m →
    active_terminal_sessions m !! id = Some session →
    active_terminal_sessions (foldl step m later) !! id = Some session' →
    (∃ taken, output_queue session = taken ++ output_queue session')
    ∧ session_creation_timestamp session' = session_creation_timestamp session.
Proof.
  induction later as [|op later IH]; intros m session session' Hlt Hact; simpl.
  - intros Hact'. simplify_eq. split; [by exists []|done].
  - intros Hact'.
    assert (id < next_session_id (step m op)) as Hlt'
      by (pose proof (step_next_session_id_mono m op); lia).
    destruct (active_terminal_sessions (step m op) !! id) as [session1|] eqn:Hact1.
    + destruct (step_session_frame_lt m op id _ _ Hlt Hact Hact1)
        as (_ & _ & (taken & Htaken & _) & Hcreated).
      destruct (IH _ _ _ Hlt' Hact1 Hact') as [[taken' Htaken'] Hcreated'].
      split; [|congruence].
      exists (taken ++ taken'). by rewrite Htaken, Htaken', app_assoc.
    + by rewrite steps_keep_inactive in Hact'.
Qed.

(** X5. When a [read] takes the Completed item of a session, all the output
    of the process has been taken before it: the call returns
    [Process completed with exit code <code>], removes the session from the
    active map, and the archive entry it creates (if the capacity rule keeps
    it) holds the complete output of the process, the exit code of the item
    and the creation time of the session. *)
Theorem read_archives_the_complete_output (format_runtime : Z → string)
    (m : comprehensive_terminal_session_manager_with_background_support)
    (process : process_behaviour) (now : Z) (ticks : list tick)
    (later : list operation) (now' : Z) (ticks' : list tick)
    (content : option Z) (new_output : string) :
  let started :=
    start_command_execution_with_timeout_and_background_support m (inr process) now (Window ticks) in
  let id := process_id started.2 in
  let call := read_session (foldl step started.1 later) id now' ticks' in
  call.2 = ReturnCompleted content new_output →
  read_value format_runtime id call.2
  = ("Process completed with exit code " +:+ str_of_optional_int content, false)
  ∧ active_terminal_sessions call.1 !! id = None
  ∧ ∀ completed,
      completed_session_history call.1 !! id = Some completed →
      complete_output_text completed = output_of (output_reader_thread process)
      ∧ final_exit_code completed = content
      ∧ session_start_time completed = now
      ∧ session_end_time completed = now'.
Proof.
  intros started id call Hret.
  pose proof (start_session_delivered m process now ticks) as Hstart.
  destruct (start_spawned m process now ticks) as (Hactive & _ & Hnext & Hid & _).
  fold started id in Hstart, Hactive, Hnext, Hid. simpl in Hstart. fold id in Hstart.
  assert (id < next_session_id started.1) as Hlt by lia.
  destruct (steps_session_delivered later id started.1 _ _ _ Hlt Hstart)
    as [(Hdelivered & _ & _) _].
  set (before := foldl step started.1 later) in *.
  destruct (active_terminal_sessions before !! id) as [session|] eqn:Hact.
  2:{ subst call. unfold read_session in Hret. rewrite Hact in Hret.
      by destruct (completed_session_history before !! id). }
  destruct (Hdelivered session eq_refl) as (Hacc0 & Htotal & _).
  (* the queue of the session is what is left of the reader's items *)
  assert (∃ consumed,
            output_reader_thread process = consumed ++ output_queue session
            ∧ session_creation_timestamp session = now) as (consumed & Hconsumed & Hcreated).
  { set (drained := start_drain ticks (new_session (next_session_id m) process now) "") in *.
    assert (active_terminal_sessions started.1 !! id = Some drained.1.1) as Hact0
      by (by rewrite Hactive, Hid, lookup_insert_eq).
    destruct (steps_queue_suffix later id started.1 _ _ Hlt Hact0 Hact)
      as [[taken Htaken] Hcreated].
    subst drained.
    assert (session_creation_timestamp
              (start_drain ticks (new_session (next_session_id m) process now) "").1.1
            = now) as Hcreated0.
    { change now with (session_creation_timestamp
                         (new_session (next_session_id m) process now)) at 2.
      generalize (new_session (next_session_id m) process now). generalize "".
      clear. induction ticks as [|t ticks IH]; intros io s; simpl; [done|].
      destruct (queue_get t (output_queue s)) as [[[c|c|c] rest]|]; simpl; try done.
      - by rewrite IH.
      - destruct (process_poll t); [done|]. apply IH. }
    destruct (start_drain _ _ _) as [[session0 initial_output] exit] eqn:Hdrain.
    apply start_drain_inv in Hdrain as (taken0 & Hq0 & _).
    simpl in *. exists (taken0 ++ taken).
    split; [by rewrite Hq0, Htaken, app_assoc|congruence]. }
  pose proof (read_session_active before id now' ticks' session Hact) as Hread.
  fold call in Hread. simpl in Hread.
  destruct (truthy (newly_available_output_since_last_read session)).
  { destruct Hread as (Hret' & _). congruence. }
  destruct Hread as [Hret' Hs]. rewrite Hret in Hs, Hret'. destruct Hs as [Hgone Harch].
  assert (session_creation_timestamp (read_drain ticks' session "").1
          = session_creation_timestamp session) as Hcreated1.
  { clear. generalize "". revert session.
    induction ticks' as [|t ticks IH]; intros session io; simpl; [done|].
    destruct (queue_get t (output_queue session)) as [[[c|c|c] rest]|]; simpl; try done.
    - destruct (truthy _); [done|]. by rewrite IH.
    - destruct (command_execution_has_completed session); [done|]. apply IH. }
  destruct (read_drain ticks' session "") as [session1 ret] eqn:Hdrain.
  simpl in Hret', Harch, Hcreated1. subst ret.
  apply read_drain_inv in Hdrain
    as (taken & Hq & Hacc & _ & _ & (-> & (pre & -> & Hpre) & _ & Hcode)).
  destruct (reader_queue_shape process) as (chunks & last & Hshape & Hchunks).
  assert (output_queue session1 = []) as Hempty.
  { rewrite Hshape, Hq, <- app_assoc, app_assoc in Hconsumed.
    by apply (last_item_taken chunks (consumed ++ pre) (output_queue session1) last
                (Completed content) Hchunks eq_refl). }
  split_and!; [by rewrite Hret|done|].
  intros completed Hc. rewrite Harch in Hc.
  apply keep_most_recent_lookup in Hc. rewrite lookup_insert_eq in Hc.
  injection Hc as <-. simpl.
  split_and!; try done; [|congruence].
  by rewrite Hacc, Hacc0, <- Htotal, Hq, Hempty, app_nil_r.
Qed.

Lemma read_archives_the_complete_output_witness :
  let started :=
    start_command_execution_with_timeout_and_background_support
      init (inr counting) 0 (Window [got_item]) in
  let later := [OpRead 1 1 []; OpRead 1 2 [got_item]; OpRead 1 3 [got_item]] in
  let call := read_session (foldl step started.1 later) 1 4 [got_item] in
  read_value two_decimals 1 call.2 = ("Process completed with exit code None", false)
  ∧ active_terminal_sessions call.1 !! 1 = None
  ∧ ∀ completed,
      completed_session_history call.1 !! 1 = Some completed →
      complete_output_text completed = output_of (output_reader_thread counting)
      ∧ final_exit_code completed = None
      ∧ session_start_time completed = 0
      ∧ session_end_time completed = 4.
Proof.
  apply (read_archives_the_complete_output two_decimals init counting 0 [got_item]
           [OpRead 1 1 []; OpRead 1 2 [got_item]; OpRead 1 3 [got_item]] 4 [got_item]
           None "").
  by vm_compute.
Defined.

(** ** What [terminate] archives *)

Lemma start_drain_exit_code (ticks : list tick) :
  ∀ session initial_output,
    (command_execution_has_completed session = false → last_exit_code session = None) →
    command_execution_has_completed (start_drain ticks session initial_output).1.1 = false →
    last_exit_code (start_drain ticks session initial_output).1.1 = None.
Proof.
  induction ticks as [|t ticks IH]; intros session io Hs; simpl; [done|].
  destruct (queue_get t (output_queue session)) as [[[c|c|c] rest]|]; simpl; try done.
  - by apply IH.
  - destruct (process_poll t); simpl; [done|]. by apply IH.
Qed.

Lemma read_drain_exit_code (ticks : list tick) :
  ∀ session new_output,
    (command_execution_has_completed session = false → last_exit_code session = None) →
    command_execution_has_completed (read_drain ticks session new_output).1 = false →
    last_exit_code (read_drain ticks session new_output).1 = None.
Proof.
  induction ticks as [|t ticks IH]; intros session io Hs; simpl; [done|].
  destruct (queue_get t (output_queue session)) as [[[c|c|c] rest]|]; simpl; try done.
  - destruct (truthy _); simpl; [done|]. by apply IH.
  - destruct (command_execution_has_completed session) eqn:Hflag; simpl; [congruence|].
    apply IH. intros _. by apply Hs.
Qed.

Lemma step_exit_code (m : comprehensive_terminal_session_manager_with_background_support)
    (op : operation) :
  running_sessions_have_no_exit_code m → running_sessions_have_no_exit_code (step m op).
Proof.
  intros Hinv id session.
  destruct op as [popen now window|session_id now ticks|session_id stop now|t]; simpl.
  - rewrite start_manager. destruct popen as [[e|e]|process]; [apply Hinv..|].
    simpl. intros [[<- <-]|[_ Hact]]%lookup_insert_Some; [|by apply (Hinv id)].
    destruct window as [e|ticks]; [done|]. by apply start_drain_exit_code.
  - destruct (decide (id = session_id)) as [->|Hne];
      [|rewrite read_session_other by done; apply Hinv].
    destruct (active_terminal_sessions m !! session_id) as [session0|] eqn:Hact.
    2:{ unfold read_session. rewrite Hact.
        destruct (completed_session_history m !! session_id); simpl; by rewrite Hact. }
    pose proof (read_session_active m session_id now ticks session0 Hact) as Hread.
    simpl in Hread. destruct (truthy _).
    { destruct Hread as (_ & -> & _). intros [= <-]. simpl. by apply (Hinv session_id). }
    destruct Hread as [_ Hs].
    assert (command_execution_has_completed (read_drain ticks session0 "").1 = false
            → last_exit_code (read_drain ticks session0 "").1 = None) as Hdrain
      by (apply read_drain_exit_code, (Hinv session_id); done).
    destruct ((read_session m session_id now ticks).2);
      destruct Hs as [-> _]; try done; by intros [= <-].
  - unfold force_terminate_session_with_cleanup.
    destruct (active_terminal_sessions m !! session_id); [|apply Hinv].
    destruct stop; simpl; [|apply Hinv].
    rewrite move_active_lookup. case_decide; [done|apply Hinv].
  - apply Hinv.
Qed.

Lemma run_exit_code (ops : list operation) : running_sessions_have_no_exit_code (run ops).
Proof.
  assert (∀ m, running_sessions_have_no_exit_code m →
               running_sessions_have_no_exit_code (foldl step m ops)) as Hsteps.
  { induction ops as [|op ops IH]; intros m Hm; simpl; [done|].
    by apply IH, step_exit_code. }
  apply Hsteps. intros id session Hact. simpl in Hact. by rewrite lookup_empty in Hact.
Qed.

(** X6. [terminate] records no exit status of the process it stops: when the
    session is not marked completed, the archive entry created by a
    successful [terminate] has exit code [None] and holds the output
    accumulated so far, and a later [read] of the entry reports
    [Process completed with exit code None]. *)
Theorem terminate_records_no_exit_status (format_runtime : Z → string)
    (ops : list operation) (session_id now now' : Z) (ticks : list tick) session :
  let m := run ops in
  let call := force_terminate_session_with_cleanup m session_id Stopped now in
  active_terminal_sessions m !! session_id = Some session →
  command_execution_has_completed session = false →
  call.2 = true
  ∧ ∀ completed,
      completed_session_history call.1 !! session_id = Some completed →
      final_exit_code completed = None
      ∧ complete_output_text completed = accumulated_output_buffer session
      ∧ read_new_output_from_session_with_timeout format_runtime call.1 session_id now' ticks
        = (call.1,
           ("Process completed with exit code None" +:+ newline
              +:+ "Runtime: "
              +:+ format_runtime (now - session_creation_timestamp session)
              +:+ "s" +:+ newline
              +:+ "Final output:" +:+ newline
              +:+ accumulated_output_buffer session, false)).
Proof.
  intros m call Hact Hflag.
  pose proof (run_exit_code ops session_id session Hact Hflag) as Hcode.
  subst call. unfold force_terminate_session_with_cleanup. rewrite Hact. simpl.
  split; [done|]. intros completed Hc.
  assert (completed = archive_entry session_id session now) as ->.
  { apply move_archive_lookup in Hc. by rewrite Hact, decide_True in Hc. }
  simpl. split_and!; [done|done|].
  unfold read_new_output_from_session_with_timeout, read_session.
  rewrite move_active_lookup, decide_True, Hc by done. simpl. by rewrite Hcode.
Qed.

Lemma terminate_records_no_exit_status_witness :
  let m := run [OpStart (inr counting) 0 (Window [got_item])] in
  let call := force_terminate_session_with_cleanup m 1 Stopped 2000000 in
  call.2 = true
  ∧ ∀ completed,
      completed_session_history call.1 !! 1 = Some completed →
      final_exit_code completed = None
      ∧ complete_output_text completed = "1" +:+ newline
      ∧ read_new_output_from_session_with_timeout two_decimals call.1 1 2600000 [got_item]
        = (call.1,
           ("Process completed with exit code None" +:+ newline
              +:+ "Runtime: 2.00s" +:+ newline
              +:+ "Final output:" +:+ newline
              +:+ "1" +:+ newline, false)).
Proof.
  intros m call.
  destruct (terminate_records_no_exit_status two_decimals
              [OpStart (inr counting) 0 (Window [got_item])] 1 2000000 2600000 [got_item]
              (start_drain [got_item] (new_session 1 counting 0) "").1.1)
    as [Htrue Hentry]; [by vm_compute..|].
  split; [exact Htrue|]. intros completed Hc.
  destruct (Hentry completed Hc) as (Hcode & Htext & Hread).
  split_and!; [exact Hcode|exact Htext|].
  vm_compute in Hread. vm_compute. exact Hread.
Defined.

(** ** What [list] shows *)

Lemma list_entries_of_active_sessions
    (m : comprehensive_terminal_session_manager_with_background_support)
    (current_time : Z) :
  let entries := get_list_of_all_active_sessions_with_status m current_time in
  length entries = size (active_terminal_sessions m)
  ∧ NoDup (session_id <$> entries)
  ∧ (∀ id, id ∈ session_id <$> entries ↔ is_Some (active_terminal_sessions m !! id))
  ∧ ∀ status,
      status ∈ entries →
      ∃ session,
        active_terminal_sessions m !! session_id status = Some session
        ∧ is_completed status = command_execution_has_completed session
        ∧ runtime status = current_time - session_creation_timestamp session
        ∧ has_new_output status
          = truthy (newly_available_output_since_last_read session)
        ∧ total_output_length status = String.length (accumulated_output_buffer session).
Proof.
  intros entries.
  assert (session_id <$> entries = (active_sessions_in_order m).*1) as Hids.
  { subst entries. unfold get_list_of_all_active_sessions_with_status.
    rewrite <- list_fmap_compose. apply list_fmap_ext. by intros i [id session]. }
  split_and!.
  - subst entries.
    unfold get_list_of_all_active_sessions_with_status, active_sessions_in_order.
    by rewrite length_fmap, merge_sort_Permutation, length_map_to_list.
  - rewrite Hids. unfold active_sessions_in_order.
    rewrite merge_sort_Permutation. apply NoDup_fst_map_to_list.
  - intros id. rewrite Hids, list_elem_of_fmap. split.
    + intros ([id' session] & -> & Hin).
      apply elem_of_active_sessions_in_order in Hin. eauto.
    + intros [session Hact]. exists (id, session). split; [done|].
      by apply elem_of_active_sessions_in_order.
  - intros status ([id session] & -> & Hin)%list_elem_of_fmap.
    apply elem_of_active_sessions_in_order in Hin. exists session. simpl.
    split_and!; try done.
    by destruct (newly_available_output_since_last_read session).
Qed.

(** X7. [list] has exactly one entry for each session of the active map and
    none for any other id (archived, evicted or never handed out): the ids
    of the entries are distinct, there are as many entries as active
    sessions, and each entry carries the flag, the pending-output indicator
    and the output length of its session. *)
Theorem list_shows_exactly_the_active_sessions
    (m : comprehensive_terminal_session_manager_with_background_support)
    (current_time : Z) :
  let entries := get_list_of_all_active_sessions_with_status m current_time in
  length entries = size (active_terminal_sessions m)
  ∧ NoDup (session_id <$> entries)
  ∧ (∀ id, id ∈ session_id <$> entries ↔ is_Some (active_terminal_sessions m !! id))
  ∧ ∀ status,
      status ∈ entries →
      ∃ session,
        active_terminal_sessions m !! session_id status = Some session
        ∧ is_completed status = command_execution_has_completed session
        ∧ runtime status = current_time - session_creation_timestamp session
        ∧ has_new_output status
          = truthy (newly_available_output_since_last_read session)
        ∧ total_output_length status = String.length (accumulated_output_buffer session).
Proof. apply list_entries_of_active_sessions. Qed.

(** * Properties of the tool layer *)

Lemma strip_nonblank (a : Ascii.ascii) (s : string) :
  is_space a = false → (0 < String.length (strip (String a s)))%nat.
Proof.
  intros Ha. unfold strip. simpl lstrip. rewrite Ha. simpl rstrip.
  destruct (rstrip s); [rewrite Ha|]; simpl; lia.
Qed.

(** [read] sets the timeout flag only together with the text
    [No new output available]. *)
Lemma read_timeout_text (format_runtime : Z → string)
    (m : comprehensive_terminal_session_manager_with_background_support)
    (session_id now : Z) (ticks : list tick) :
  let call := read_new_output_from_session_with_timeout format_runtime m session_id now ticks in
  call.2.2 = true → call.2.1 = "No new output available".
Proof.
  intros call. subst call. unfold read_new_output_from_session_with_timeout.
  destruct (read_session m session_id now ticks) as [m' ret] eqn:Hread. simpl.
  unfold read_session in Hread.
  destruct (active_terminal_sessions m !! session_id) as [session|].
  2:{ destruct (completed_session_history m !! session_id); by simplify_eq. }
  destruct (truthy _); [by simplify_eq|].
  destruct (read_drain ticks session "") as [session' ret'] eqn:Hdrain.
  apply read_drain_inv in Hdrain as (taken & _ & _ & _ & _ & Hcase).
  assert (ret = ret') as Hret by (destruct ret'; by simplify_eq).
  subst ret. clear Hread.
  destruct ret' as [| | |c x| | |c x|x]; simpl; try done.
  destruct Hcase as (Hx & _). by rewrite Hx.
Qed.

(** X8. [handle_execute_command] can report an error and still leave a
    session behind: when an Error item is taken inside [start]'s window, the
    response is [isError] with the text [Process error: <message>] and no
    other entry (no session id), while the session is registered in the
    active map under the next id, the id counter has advanced, and [list]
    shows the session. *)
Theorem execute_command_error_leaves_unnamed_session (readme_text : string)
    (m : comprehensive_terminal_session_manager_with_background_support)
    (command : string) (process : process_behaviour) (now : Z) (ticks : list tick)
    (content_of_item : string) :
  let drained := start_drain ticks (new_session (next_session_id m) process now) "" in
  let call :=
    handle_execute_command readme_text m (Some command) (inr process) now (Window ticks) in
  truthy command = true →
  drained.2 = ReturnOnError content_of_item →
  call.2 = {| content := ["Process error: " +:+ content_of_item];
              isError := true;
              extra_fields := [] |}
  ∧ active_terminal_sessions call.1 !! next_session_id m = Some drained.1.1
  ∧ next_session_id call.1 = next_session_id m + 1
  ∧ ∀ current_time,
      next_session_id m
      ∈ session_id <$> get_list_of_all_active_sessions_with_status call.1 current_time.
Proof.
  intros drained call Hcommand Hexit.
  destruct (start_spawned m process now ticks)
    as (Hactive & _ & Hnext & Hid & _ & _ & Herror).
  fold drained in Hactive, Herror. rewrite Hexit in Herror.
  subst call. unfold handle_execute_command, execute_command_functional.
  rewrite Hcommand.
  destruct (start_command_execution_with_timeout_and_background_support
              m (inr process) now (Window ticks)) as [m' result].
  simpl in *. rewrite Herror. simpl.
  assert (active_terminal_sessions m' !! next_session_id m = Some drained.1.1) as Hact
    by (by rewrite Hactive, lookup_insert_eq).
  unfold create_error_response, readme. rewrite append_nil_r.
  split_and!; try done.
  intros current_time.
  apply (list_entries_of_active_sessions m' current_time). eauto.
Qed.

Lemma execute_command_error_leaves_unnamed_session_witness :
  let call :=
    handle_execute_command "" init (Some "cat broken.bin") (inr undecodable) 0 (Window [got_item]) in
  call.2 = {| content := ["Process error: invalid start byte"];
              isError := true;
              extra_fields := [] |}
  ∧ active_terminal_sessions call.1 !! 1
    = Some (start_drain [got_item] (new_session 1 undecodable 0) "").1.1
  ∧ next_session_id call.1 = 2
  ∧ ∀ current_time,
      1 ∈ session_id <$> get_list_of_all_active_sessions_with_status call.1 current_time.
Proof.
  apply (execute_command_error_leaves_unnamed_session "" init "cat broken.bin"
           undecodable 0 [got_item] "invalid start byte"); reflexivity.
Defined.

(** X9. A response of [handle_execute_command] that is not an error always
    names a session that exists: its [session_id] entry is the id of a
    session that is in the active map after the call, its [is_running] entry
    is false exactly when that session is marked completed, and its text
    starts with the success line and the id.  The response is an error
    exactly when the command is missing or empty or [start] reports an error
    (something raised, or an Error item was taken in the window); when the
    command is missing or empty or the spawn failed, the manager is
    unchanged. *)
Theorem execute_command_response_names_a_session (readme_text : string)
    (m : comprehensive_terminal_session_manager_with_background_support)
    (command : option string) (popen : start_failure + process_behaviour) (now : Z)
    (window : timeout_window) :
  let call := handle_execute_command readme_text m command popen now window in
  let started :=
    start_command_execution_with_timeout_and_background_support m popen now window in
  let has_command := match command with Some c => truthy c | None => false end in
  if isError call.2 then
    extra_fields call.2 = []
    ∧ (has_command = false ∨ error_message started.2 ≠ None)
    ∧ (has_command = false ∨ (∃ e, popen = inl (RaisedBeforeSpawn e)) → call.1 = m)
  else
    has_command = true
    ∧ error_message started.2 = None
    ∧ call.1 = started.1
    ∧ (∃ session is_running rest,
         active_terminal_sessions call.1 !! next_session_id m = Some session
         ∧ is_running = negb (command_execution_has_completed session)
         ∧ extra_fields call.2
           = [("session_id", FieldInt (next_session_id m));
              ("is_running", FieldBool is_running)]
         ∧ content call.2
           = ["Command executed successfully" +:+ newline
                +:+ "Session ID: " +:+ str_of_int (next_session_id m) +:+ newline
                +:+ rest]).
Proof.
  intros call started has_command. subst call.
  unfold handle_execute_command. fold has_command.
  destruct has_command eqn:Hcommand; [|simpl; split_and!; auto].
  unfold execute_command_functional. fold started.
  destruct popen as [[e|e]|process].
  { subst started. simpl. split_and!; [done|by right|done]. }
  { subst started. simpl. split_and!; [done|by right|]. intros [|[e' ?]]; done. }
  destruct window as [e|ticks].
  { subst started. simpl. split_and!; [done|by right|]. intros [|[e' ?]]; done. }
  destruct (start_spawned m process now ticks)
    as (Hactive & _ & _ & Hid & _ & Hrunning & Herror).
  fold started in Hactive, Hid, Hrunning, Herror.
  destruct started as [m' result]. simpl in *.
  destruct (start_drain ticks (new_session (next_session_id m) process now) "")
    as [[session initial_output] exit].
  simpl in *. rewrite Herror.
  destruct exit; simpl.
  4:{ split_and!; [done|by right|]. intros [|[e ?]]; done. }
  all: split_and!; try done.
  all: exists session, (command_is_still_running_in_background result).
  all: rewrite Hactive, lookup_insert_eq, Hid.
  all: destruct (command_is_still_running_in_background result).
  all: eexists; split_and!; [done|done|done|].
  all: rewrite ?append_assoc; reflexivity.
Qed.

Lemma read_session_unknown
    (m : comprehensive_terminal_session_manager_with_background_support)
    (session_id now : Z) (ticks : list tick) :
  active_terminal_sessions m !! session_id = None →
  completed_session_history m !! session_id = None →
  read_session m session_id now ticks = (m, ReturnNoSession).
Proof. intros Hact Harch. unfold read_session. by rewrite Hact, Harch. Qed.

(** [read] says [No session found] for an id of neither map only. *)
Lemma read_session_no_session
    (m : comprehensive_terminal_session_manager_with_background_support)
    (session_id now : Z) (ticks : list tick) :
  (read_session m session_id now ticks).2 = ReturnNoSession →
  active_terminal_sessions m !! session_id = None
  ∧ completed_session_history m !! session_id = None.
Proof.
  unfold read_session.
  destruct (active_terminal_sessions m !! session_id) as [session|].
  - destruct (truthy _); [done|].
    destruct (read_drain ticks session "") as [session' ret] eqn:Hdrain.
    apply read_drain_inv in Hdrain as (taken & _ & _ & _ & _ & Hcase).
    by destruct ret.
  - by destruct (completed_session_history m !! session_id).
Qed.

Lemma no_session_text_nonblank (shown : string) :
  bool_decide (0 < String.length (strip ("No session found for ID " +:+ shown)))%nat
  = true.
Proof.
  apply bool_decide_eq_true_2.
  change ("No session found for ID " +:+ shown)
    with (String (Ascii.ascii_of_nat 78) ("o session found for ID " +:+ shown)).
  by apply strip_nonblank.
Qed.

Section HandlersOfRequestValues.

Variable format_runtime : Z → string.
Variable readme_text : string.
Variable float_as_int : string → option Z.
Variable py_str : py_value → string.
Variable unhashable_text : py_value → string.

Lemma handle_read_output_of_value
    (m : comprehensive_terminal_session_manager_with_background_support)
    (session_id : py_value) (now : Z) (window : timeout_window) :
  session_id ≠ PyNone →
  handle_read_output format_runtime readme_text float_as_int py_str unhashable_text
    m session_id now window
  = let read :=
      read_with_request_values format_runtime float_as_int py_str unhashable_text
        m session_id now window in
    (read.1,
     match read.2 with
     | inl e =>
         {| content := ["Error reading output from session "
                          +:+ str_of_value py_str session_id +:+ ": " +:+ e];
            isError := true;
            extra_fields := [] |}
     | inr (output, timeout_reached) => read_response py_str session_id output timeout_reached
     end).
Proof.
  intros Hvalue.
  assert (handle_read_output format_runtime readme_text float_as_int py_str
            unhashable_text m session_id now window
          = let '(m', result) :=
              read_output_functional format_runtime float_as_int py_str unhashable_text
                m session_id now window in
            match result with
            | ReadOutputOk _ output timeout_reached has_output =>
                (m', {| content :=
                          ["Output from session " +:+ str_of_value py_str session_id
                             +:+ ":" +:+ newline
                             +:+ (if has_output
                                  then output
                                         +:+ (if timeout_reached
                                              then newline +:+ "(timeout reached)"
                                              else "")
                                  else "No new output available"
                                         +:+ (if timeout_reached
                                              then " (timeout reached)" else ""))];
                        isError := false;
                        extra_fields :=
                          [("session_id", field_of_value session_id);
                           ("has_output", FieldBool has_output);
                           ("timeout_reached", FieldBool timeout_reached)] |})
            | ReadOutputFailed error _ =>
                (m', {| content := [error]; isError := true; extra_fields := [] |})
            end) as ->.
  { unfold handle_read_output, create_error_response, readme.
    destruct session_id; try done;
      destruct (read_output_functional _ _ _ _ _ _ _ _) as [m' [? output [] []|error ?]];
      by rewrite ?append_assoc, ?append_nil_r. }
  unfold read_output_functional, read_response.
  destruct (read_with_request_values _ _ _ _ _ _ _ _) as [m' [e|[output timeout_reached]]];
    by rewrite ?append_assoc.
Qed.

Lemma read_with_int_key
    (m : comprehensive_terminal_session_manager_with_background_support)
    (session_id : py_value) (id now : Z) (ticks : list tick) :
  key_of_value float_as_int unhashable_text session_id = KeyInt id →
  let read := read_new_output_from_session_with_timeout format_runtime m id now ticks in
  read_with_request_values format_runtime float_as_int py_str unhashable_text
    m session_id now (Window ticks)
  = (read.1,
     inr (if decide (active_terminal_sessions m !! id = None
                     ∧ completed_session_history m !! id = None)
          then ("No session found for ID " +:+ str_of_value py_str session_id, false)
          else read.2)).
Proof.
  intros Hkey read. subst read.
  unfold read_with_request_values, read_new_output_from_session_with_timeout,
    read_session_in_window.
  rewrite Hkey.
  case_decide as Hunknown.
  - destruct Hunknown as [Hact Harch]. by rewrite read_session_unknown.
  - pose proof (read_session_no_session m id now ticks) as Hno.
    destruct (read_session m id now ticks) as [m' ret]. simpl in *.
    destruct ret; try done. by destruct Hunknown, Hno.
Qed.

(** X10. [handle_read_output] reports an error in three cases only, with the
    manager unchanged: the request has no session id; the session id is a
    list or a dict, which line 537 cannot use as a key; or the timeout is a
    value that line 553 cannot divide and the id is that of an active session
    with nothing pending.  The text is [Missing required parameter:
    session_id] in the first case and [Error reading output from session
    <id>: <exception>] in the others.  In all other cases the response has
    [isError = False], even for an id no session has: its text is then the
    header followed by [No session found for ID <id>], with
    [has_output = True].  When the read timed out, the text is the header
    followed by [No new output available] and, on a new line,
    [(timeout reached)], again with [has_output = True]: the handler's own
    no-output branch is not taken on a timeout. *)
Theorem read_output_response_errors
    (m : comprehensive_terminal_session_manager_with_background_support)
    (session_id : py_value) (now : Z) (window : timeout_window) :
  let call :=
    handle_read_output format_runtime readme_text float_as_int py_str unhashable_text
      m session_id now window in
  let key := key_of_value float_as_int unhashable_text session_id in
  let shown := str_of_value py_str session_id in
  let header := "Output from session " +:+ shown +:+ ":" +:+ newline in
  let failure (text : string) :=
    {| content := [text]; isError := true; extra_fields := [] |} in
  (isError call.2 = true
   ↔ session_id = PyNone
     ∨ (∃ e, key = KeyRaises e)
     ∨ (∃ id e session,
          key = KeyInt id ∧ window = TimeoutRaises e
          ∧ active_terminal_sessions m !! id = Some session
          ∧ truthy (newly_available_output_since_last_read session) = false))
  ∧ (isError call.2 = true → call.1 = m)
  ∧ (session_id = PyNone →
     call.2 = failure "Missing required parameter: session_id")
  ∧ (∀ e, key = KeyRaises e →
          call.2 = failure ("Error reading output from session " +:+ shown
                              +:+ ": " +:+ e))
  ∧ (∀ id e session,
       key = KeyInt id → window = TimeoutRaises e →
       active_terminal_sessions m !! id = Some session →
       truthy (newly_available_output_since_last_read session) = false →
       call.2 = failure ("Error reading output from session " +:+ shown
                           +:+ ": " +:+ e))
  ∧ (session_id ≠ PyNone → key = KeyOfNoSession →
     call = (m, {| content := [header +:+ "No session found for ID " +:+ shown];
                   isError := false;
                   extra_fields :=
                     [("session_id", field_of_value session_id);
                      ("has_output", FieldBool true);
                      ("timeout_reached", FieldBool false)] |}))
  ∧ (∀ id ticks,
       key = KeyInt id → window = Window ticks →
       let read :=
         read_new_output_from_session_with_timeout format_runtime m id now ticks in
       call.1 = read.1
       ∧ (read.2.2 = true →
          call.2 = {| content :=
                        [header +:+ "No new output available" +:+ newline
                           +:+ "(timeout reached)"];
                      isError := false;
                      extra_fields :=
                        [("session_id", field_of_value session_id);
                         ("has_output", FieldBool true);
                         ("timeout_reached", FieldBool true)] |})
       ∧ (active_terminal_sessions m !! id = None →
          completed_session_history m !! id = None →
          call = (m, {| content := [header +:+ "No session found for ID " +:+ shown];
                        isError := false;
                        extra_fields :=
                          [("session_id", field_of_value session_id);
                           ("has_output", FieldBool true);
                           ("timeout_reached", FieldBool false)] |}))).
Proof.
  intros call key shown header failure.
  assert (session_id = PyNone ∨ session_id ≠ PyNone) as [->|Hvalue]
    by (destruct session_id; [by left|by right..]).
  { subst call key. simpl. unfold create_error_response, readme.
    rewrite append_nil_r. split_and!; try done. split; [by left|done]. }
  assert (call
          = let read :=
              read_with_request_values format_runtime float_as_int py_str
                unhashable_text m session_id now window in
            (read.1,
             match read.2 with
             | inl e =>
                 failure ("Error reading output from session " +:+ shown +:+ ": " +:+ e)
             | inr (output, timeout_reached) =>
                 read_response py_str session_id output timeout_reached
             end)) as Hcall
    by (by apply handle_read_output_of_value).
  clearbody call. subst call. unfold read_with_request_values. fold key.
  destruct key as [e| |id] eqn:Hkey; unfold key in Hkey; simpl.
  - split_and!; try done.
    + split; [intros _; right; left; by exists e|done].
    + by intros e' [= ->].
  - unfold read_response. rewrite no_session_text_nonblank.
    subst header shown. rewrite ?append_assoc, ?append_nil_r.
    split_and!; try done.
    split; [done|]. intros [?|[[e ?]|(id & e & session & ? & _)]]; done.
  - destruct window as [e|ticks].
    + unfold read_session_in_window.
      destruct (active_terminal_sessions m !! id) as [session|] eqn:Hact.
      * destruct (truthy (newly_available_output_since_last_read session)) eqn:Hpending.
        -- unfold read_session. rewrite Hact, Hpending. simpl.
           split_and!; try done.
           ++ split; [done|].
              intros [?|[[e' ?]|(id' & e' & session' & [= <-] & _ & Hact' & Hpending')]];
                [done|done|]. congruence.
           ++ intros id' e' session' [= <-] _ Hact' Hpending'. congruence.
        -- simpl. split_and!; try done.
           ++ split; [intros _|done]. right. right. by exists id, e, session.
           ++ by intros id' e' session' _ [= <-] _ _.
      * unfold read_session. rewrite Hact.
        assert (∀ output timeout_reached,
                  isError (read_response py_str session_id output timeout_reached) = false)
          as Hok by done.
        destruct (completed_session_history m !! id); simpl; rewrite ?Hok.
        all: split_and!; try done.
        all: try (split; [done|]).
        all: try (intros [?|[[e' ?]|(id' & e' & session' & [= <-] & _ & Hact' & _)]];
                  [done|done|congruence]).
        all: intros id' e' session' [= <-] _ Hact' _; congruence.
    + pose proof (read_with_int_key m session_id id now ticks Hkey) as Hread.
      unfold read_with_request_values in Hread. rewrite Hkey in Hread.
      cbv beta iota in Hread. rewrite Hread. clear Hread. simpl.
      pose proof (read_timeout_text format_runtime m id now ticks) as Htimeout.
      simpl in Htimeout.
      set (read := read_new_output_from_session_with_timeout format_runtime m id now ticks)
        in *.
      assert (∀ output timeout_reached,
                isError (read_response py_str session_id output timeout_reached) = false)
        as Hok by done.
      split_and!; try done.
      * case_decide; destruct read as [m' [output timeout_reached]]; simpl; rewrite ?Hok.
        all: split; [done|].
        all: intros [?|[[e' ?]|(id' & e' & session' & _ & ? & _)]]; done.
      * intros Herror. exfalso. revert Herror.
        case_decide; destruct read as [m' [output timeout_reached]]; simpl; by rewrite ?Hok.
      * intros id' ticks' [= <-] [= <-]. fold read. split_and!; [done| |].
        -- intros Htrue. specialize (Htimeout Htrue).
           case_decide as Hunknown.
           { destruct Hunknown as [Hact Harch]. subst read.
             revert Htrue.
             unfold read_new_output_from_session_with_timeout.
             by rewrite (read_session_unknown m id now ticks Hact Harch). }
           destruct read as [m' [output timeout_reached]]. simpl in *.
           destruct timeout_reached; [|done]. rewrite Htimeout.
           unfold read_response.
           rewrite bool_decide_eq_true_2 by (vm_compute; lia).
           subst header shown. by rewrite ?append_assoc.
        -- intros Hact Harch. rewrite decide_True by done.
           subst read. unfold read_new_output_from_session_with_timeout.
           rewrite (read_session_unknown m id now ticks Hact Harch). simpl.
           unfold read_response. rewrite no_session_text_nonblank.
           subst header shown. by rewrite ?append_assoc, ?append_nil_r.
Qed.

(** X11. Output that consists of white space only is lost in
    [handle_read_output]: whenever the manager's [read] returns a text that
    [strip()] empties (a blank line, for instance), the response says
    [No new output available] with [has_output = False], although the
    manager has handed the text out and will not return it again. *)
Theorem blank_output_is_reported_as_no_output
    (m : comprehensive_terminal_session_manager_with_background_support)
    (session_id now : Z) (ticks : list tick) :
  let read :=
    read_new_output_from_session_with_timeout format_runtime m session_id now ticks in
  let call :=
    handle_read_output format_runtime readme_text float_as_int py_str unhashable_text
      m (PyInt session_id) now (Window ticks) in
  strip read.2.1 = "" →
  call = (read.1,
          {| content :=
               ["Output from session " +:+ str_of_int session_id +:+ ":" +:+ newline
                  +:+ "No new output available"];
             isError := false;
             extra_fields :=
               [("session_id", FieldInt session_id);
                ("has_output", FieldBool false);
                ("timeout_reached", FieldBool false)] |}).
Proof.
  intros read call Hblank.
  pose proof (read_timeout_text format_runtime m session_id now ticks) as Htimeout.
  fold read in Htimeout.
  subst call. rewrite handle_read_output_of_value by done.
  rewrite (read_with_int_key m (PyInt session_id) session_id now ticks eq_refl).
  fold read. simpl.
  case_decide as Hunknown.
  { destruct Hunknown as [Hact Harch]. subst read. exfalso. revert Hblank.
    unfold read_new_output_from_session_with_timeout.
    rewrite (read_session_unknown m session_id now ticks Hact Harch). simpl.
    intros Hblank. pose proof (no_session_text_nonblank (str_of_int session_id)) as Hlen.
    rewrite Hblank in Hlen. by vm_compute in Hlen. }
  destruct read as [m' [output timeout_reached]]. simpl in *.
  unfold read_response. rewrite Hblank. simpl.
  destruct timeout_reached; [|by rewrite ?append_assoc, ?append_nil_r].
  rewrite Htimeout in Hblank by done. by vm_compute in Hblank.
Qed.

(** X12. [handle_force_terminate] reports an error whenever no session is
    terminated, with the manager unchanged.  The text is
    [Missing required parameter: session_id] when the request has no session
    id, [Error terminating session <id>: <exception>] when the session id is
    a list or a dict, which line 597 cannot use as a key, and
    [No active session found for ID <id>] in every other case: for an id that
    is not active, and also for an active session whose stop sequence raised,
    which is then still in the active map and still listed.  When the stop
    sequence of an active session completes, the response is the success text
    with the session id and the session is no longer active. *)
Theorem force_terminate_response
    (m : comprehensive_terminal_session_manager_with_background_support)
    (requested : py_value) (stop : stop_outcome) (now : Z) :
  let call :=
    handle_force_terminate readme_text float_as_int py_str unhashable_text
      m requested stop now in
  let key := key_of_value float_as_int unhashable_text requested in
  let shown := str_of_value py_str requested in
  let failure (text : string) :=
    {| content := [text]; isError := true; extra_fields := [] |} in
  (requested = PyNone →
   call = (m, failure "Missing required parameter: session_id"))
  ∧ (∀ e, key = KeyRaises e →
          call = (m, failure ("Error terminating session " +:+ shown +:+ ": " +:+ e)))
  ∧ (requested ≠ PyNone → key = KeyOfNoSession →
     call = (m, failure ("No active session found for ID " +:+ shown)))
  ∧ (∀ id,
       key = KeyInt id →
       (active_terminal_sessions m !! id = None →
        call = (m, failure ("No active session found for ID " +:+ shown)))
       ∧ (is_Some (active_terminal_sessions m !! id) → stop = StopRaises →
          call = (m, failure ("No active session found for ID " +:+ shown))
          ∧ ∀ current_time,
              id ∈ session_id
                     <$> get_list_of_all_active_sessions_with_status call.1 current_time)
       ∧ (is_Some (active_terminal_sessions m !! id) → stop = Stopped →
          call.2 = {| content := ["Successfully terminated session " +:+ shown];
                      isError := false;
                      extra_fields := [("session_id", field_of_value requested)] |}
          ∧ call.1 = _move_session_to_completed m id now
          ∧ active_terminal_sessions call.1 !! id = None)).
Proof.
  intros call key shown failure.
  assert (requested ≠ PyNone →
          call
          = let terminated :=
              terminate_with_request_value float_as_int unhashable_text
                m requested stop now in
            (terminated.1,
             match terminated.2 with
             | inr true =>
                 {| content := ["Successfully terminated session " +:+ shown];
                    isError := false;
                    extra_fields := [("session_id", field_of_value requested)] |}
             | inr false => failure ("No active session found for ID " +:+ shown)
             | inl e => failure ("Error terminating session " +:+ shown +:+ ": " +:+ e)
             end)) as Hcall.
  { intros Hvalue. subst call.
    unfold handle_force_terminate, force_terminate_functional, create_error_response,
      readme.
    destruct requested; try done;
      destruct (terminate_with_request_value _ _ _ _ _ _) as [m' [e|[]]];
      by rewrite ?append_assoc, ?append_nil_r. }
  unfold terminate_with_request_value in Hcall. fold key in Hcall.
  split_and!.
  - intros ->. subst call. simpl. unfold create_error_response, readme.
    by rewrite append_nil_r.
  - intros e Hkey. rewrite Hkey in Hcall. apply Hcall.
    intros ->. subst key. done.
  - intros Hvalue Hkey. rewrite Hkey in Hcall. by apply Hcall.
  - intros id Hkey. rewrite Hkey in Hcall.
    assert (requested ≠ PyNone) as Hvalue by (intros ->; subst key; done).
    specialize (Hcall Hvalue). clearbody call. subst call.
    unfold force_terminate_session_with_cleanup.
    split_and!.
    + intros ->. done.
    + intros [session Hact] ->. rewrite Hact. simpl. split; [done|].
      intros current_time.
      apply (list_entries_of_active_sessions m current_time). eauto.
    + intros [session Hact] ->. rewrite Hact. simpl. split_and!; [done|done|].
      by rewrite move_active_lookup, decide_True.
Qed.

End HandlersOfRequestValues.

Lemma read_output_response_errors_witness :
  let m := run [OpStart (inr counting) 0 (Window [])] in
  let unhashable :=
    handle_read_output two_decimals "" (λ _, None) (λ _, "[]")
      (λ _, "unhashable type: 'list'") m (PyList []) 1 (Window [got_item]) in
  let undivided :=
    handle_read_output two_decimals "" (λ _, None) (λ _, "[]")
      (λ _, "unhashable type: 'list'") m (PyInt 1) 1
      (timeout_window_of (PyStr "5000") [got_item]) in
  unhashable
  = (m, {| content :=
             ["Error reading output from session []: unhashable type: 'list'"];
           isError := true;
           extra_fields := [] |})
  ∧ undivided
    = (m, {| content :=
               ["Error reading output from session 1: "
                  +:+ "unsupported operand type(s) for /: 'str' and 'float'"];
             isError := true;
             extra_fields := [] |}).
Proof.
  intros m unhashable undivided.
  destruct (read_output_response_errors two_decimals "" (λ _, None) (λ _, "[]")
              (λ _, "unhashable type: 'list'") m (PyList []) 1 (Window [got_item]))
    as (Herror & Hsame & _ & Htext & _).
  destruct (read_output_response_errors two_decimals "" (λ _, None) (λ _, "[]")
              (λ _, "unhashable type: 'list'") m (PyInt 1) 1
              (timeout_window_of (PyStr "5000") [got_item]))
    as (Herror' & Hsame' & _ & _ & Htext' & _).
  split.
  - apply injective_projections; simpl.
    + apply Hsame, Herror. right. left. by eexists.
    + by apply (Htext "unhashable type: 'list'").
  - apply injective_projections; simpl.
    + apply Hsame', Herror'. right. right.
      exists 1, "unsupported operand type(s) for /: 'str' and 'float'",
        (new_session 1 counting 0).
      by vm_compute.
    + apply (Htext' 1 "unsupported operand type(s) for /: 'str' and 'float'"
               (new_session 1 counting 0)); by vm_compute.
Defined.

Lemma blank_output_is_reported_as_no_output_witness :
  let m :=
    (start_command_execution_with_timeout_and_background_support
       init (inr blank_line_first) 0 (Window [got_item])).1 in
  let read := read_new_output_from_session_with_timeout two_decimals m 1 1 [got_item] in
  let call :=
    handle_read_output two_decimals "" (λ _, None) (λ _, "[]")
      (λ _, "unhashable type: 'list'") m (PyInt 1) 1 (Window [got_item]) in
  read.2 = (newline, false)
  ∧ call = (read.1,
            {| content :=
                 ["Output from session 1:" +:+ newline +:+ "No new output available"];
               isError := false;
               extra_fields :=
                 [("session_id", FieldInt 1);
                  ("has_output", FieldBool false);
                  ("timeout_reached", FieldBool false)] |}).
Proof.
  split; [by vm_compute|].
  apply (blank_output_is_reported_as_no_output two_decimals "" (λ _, None) (λ _, "[]")
           (λ _, "unhashable type: 'list'")
           (start_command_execution_with_timeout_and_background_support
              init (inr blank_line_first) 0 (Window [got_item])).1 1 1 [got_item]).
  by vm_compute.
Defined.

Lemma force_terminate_response_witness :
  let m := run [OpStart (inr counting) 0 (Window [got_item])] in
  let handle :=
    handle_force_terminate "" (λ _, None) (λ _, "{}") (λ _, "unhashable type: 'dict'") in
  let failed := handle m (PyInt 1) StopRaises 1 in
  let stopped := handle m (PyInt 1) Stopped 2 in
  failed = (m, {| content := ["No active session found for ID 1"];
                  isError := true;
                  extra_fields := [] |})
  ∧ (∀ current_time,
       1 ∈ session_id <$> get_list_of_all_active_sessions_with_status failed.1 current_time)
  ∧ stopped.2 = {| content := ["Successfully terminated session 1"];
                   isError := false;
                   extra_fields := [("session_id", FieldInt 1)] |}
  ∧ handle stopped.1 (PyInt 1) Stopped 3
    = (stopped.1, {| content := ["No active session found for ID 1"];
                     isError := true;
                     extra_fields := [] |})
  ∧ handle m (PyDict []) Stopped 4
    = (m, {| content := ["Error terminating session {}: unhashable type: 'dict'"];
             isError := true;
             extra_fields := [] |})
  ∧ handle m (PyStr "1") Stopped 5
    = (m, {| content := ["No active session found for ID 1"];
             isError := true;
             extra_fields := [] |}).
Proof.
  intros m handle failed stopped.
  pose proof (force_terminate_response "" (λ _, None) (λ _, "{}")
                (λ _, "unhashable type: 'dict'")) as Hresponse.
  destruct (Hresponse m (PyInt 1) StopRaises 1) as (_ & _ & _ & Hint).
  destruct (Hint 1 eq_refl) as (_ & Hraises & _).
  destruct (Hresponse m (PyInt 1) Stopped 2) as (_ & _ & _ & Hint').
  destruct (Hint' 1 eq_refl) as (_ & _ & Hstopped).
  destruct (Hresponse stopped.1 (PyInt 1) Stopped 3) as (_ & _ & _ & Hint'').
  destruct (Hint'' 1 eq_refl) as (Hgone & _).
  destruct (Hresponse m (PyDict []) Stopped 4) as (_ & Hdict & _).
  destruct (Hresponse m (PyStr "1") Stopped 5) as (_ & _ & Hstr & _).
  destruct Hraises as [Hfailed Hlisted]; [vm_compute; by eexists|done|].
  destruct Hstopped as (Hok & _ & Hinactive); [vm_compute; by eexists|done|].
  split_and!;
    [exact Hfailed|exact Hlisted|exact Hok|exact (Hgone Hinactive)
    |exact (Hdict _ eq_refl)|by apply Hstr].
Defined.

Lemma foldl_append {A : Type} (f : A → string) (l : list A) (start : string) :
  foldl (λ text x, text +:+ f x) start l = start +:+ join (f <$> l).
Proof.
  revert start. induction l as [|x l IH]; intros start; simpl.
  - by rewrite append_nil_r.
  - by rewrite IH, append_assoc.
Qed.

(** X13. [handle_list_sessions] never fails and reports the active map: its
    [total_sessions] entry is the number of active sessions, its text is
    [No active command sessions] exactly when the active map is empty, and
    otherwise it is the header with that number followed by one line per
    listed session, in the order of the [sessions] entry. *)
Theorem list_sessions_response (readme_text : string)
    (format_runtime_seconds : Z → string)
    (m : comprehensive_terminal_session_manager_with_background_support)
    (current_time : Z) :
  let response := handle_list_sessions readme_text format_runtime_seconds m current_time in
  let sessions := get_list_of_all_active_sessions_with_status m current_time in
  isError response = false
  ∧ extra_fields response
    = [("total_sessions", FieldInt (Z.of_nat (size (active_terminal_sessions m))));
       ("sessions", FieldSessions sessions)]
  ∧ (content response = ["No active command sessions"]
     ↔ active_terminal_sessions m = ∅)
  ∧ (active_terminal_sessions m ≠ ∅ →
     content response
     = ["Active command sessions ("
          +:+ str_of_int (Z.of_nat (size (active_terminal_sessions m))) +:+ "):"
          +:+ newline +:+ newline
          +:+ join (session_line format_runtime_seconds <$> sessions)]).
Proof.
  intros response sessions.
  destruct (list_entries_of_active_sessions m current_time) as (Hlen & _).
  fold sessions in Hlen.
  subst response. unfold handle_list_sessions, list_sessions_functional.
  fold sessions. simpl. rewrite Hlen, foldl_append.
  split_and!; [done|done| |].
  - case_bool_decide as Hsize.
    + split; [intros _; by apply map_size_empty_iff|done].
    + split; [|intros Hempty; by rewrite Hempty, map_size_empty in Hsize].
      intros Htext. apply (f_equal (λ l, String.get 0 (default "" (head l)))) in Htext.
      by vm_compute in Htext.
  - intros Hne. rewrite bool_decide_eq_false_2; [by rewrite ?append_assoc|].
    by intros ?%map_size_empty_iff.
Qed.

(** ** Parameter validation *)

Lemma dict_get_Some key d value : dict_get key d = Some value → key ∈ d.*1.
Proof.
  induction d as [|[k v] d IH]; simpl; [done|].
  case_decide as Hk.
  - intros _. subst. apply list_elem_of_here.
  - intros Hget. apply list_elem_of_further. by apply IH.
Qed.

Lemma dict_get_None key d : dict_get key d = None ↔ key ∉ d.*1.
Proof.
  induction d as [|[k v] d IH]; simpl.
  - split; [intros _; apply not_elem_of_nil|done].
  - case_decide as Hk.
    + subst. split; [done|]. intros Hnot. destruct Hnot. apply list_elem_of_here.
    + rewrite IH, not_elem_of_cons. intuition congruence.
Qed.

Lemma dict_get_set key value d key' :
  dict_get key' (dict_set key value d) =
    if decide (key = key') then Some value else dict_get key' d.
Proof.
  induction d as [|[k v] d IH]; simpl.
  - by repeat case_decide.
  - destruct (decide (k = key)) as [->|Hk]; simpl.
    + by repeat case_decide.
    + rewrite IH. repeat case_decide; congruence.
Qed.

Lemma check_value_None param_name schema value :
  check_value param_name schema value = None ↔ value_fits schema value.
Proof.
  unfold check_value, value_fits, not_in_allowed.
  destruct (bool_decide (expected_type schema = "string")) eqn:Hstring;
    [apply bool_decide_eq_true in Hstring|apply bool_decide_eq_false in Hstring];
    (destruct (bool_decide (expected_type schema = "boolean")) eqn:Hboolean;
     [apply bool_decide_eq_true in Hboolean|apply bool_decide_eq_false in Hboolean]);
    destruct (enum schema) as [allowed_values|], value; simpl;
    try case_bool_decide; split; try done; try congruence;
    try (intros (Hs & Hb & He);
         try (destruct (Hs Hstring) as [? [=]]);
         try (destruct (Hb Hboolean) as [? [=]]);
         try (destruct (He _ eq_refl) as (? & [=] & ?)); subst; done);
    intros _; split_and!; intros; simplify_eq; try done; eauto.
Qed.

Lemma validate_properties_accepts required input_param properties acc :
  (∃ validated, validate_properties required input_param properties acc = inr validated) ↔
  (∀ name schema, (name, schema) ∈ properties →
     match dict_get name input_param with
     | Some value => value_fits schema value
     | None => name ∉ required
     end).
Proof.
  revert acc. induction properties as [|[name schema] properties IH]; intros acc; simpl.
  - split; [|by eauto]. intros _ name schema Hin. by apply elem_of_nil in Hin.
  - destruct (dict_get name input_param) as [value|] eqn:Hget.
    + destruct (check_value name schema value) as [e|] eqn:Hcheck.
      * split; [by intros [? [=]]|]. intros Hall.
        specialize (Hall name schema (list_elem_of_here _ _)). rewrite Hget in Hall.
        apply check_value_None with (param_name := name) in Hall. congruence.
      * rewrite IH. apply check_value_None in Hcheck. split.
        -- intros Hall n s [[= -> ->]|Hin]%elem_of_cons; [by rewrite Hget|by apply Hall].
        -- intros Hall n s Hin. apply Hall. by apply list_elem_of_further.
    + case_bool_decide as Hreq.
      * split; [by intros [? [=]]|]. intros Hall.
        specialize (Hall name schema (list_elem_of_here _ _)). by rewrite Hget in Hall.
      * assert ((∃ validated, match default_value schema with
                  | Some PyNone | None =>
                      validate_properties required input_param properties acc
                  | Some default =>
                      validate_properties required input_param properties
                        (dict_set name default acc)
                  end = inr validated) ↔
                 (∀ n s, (n, s) ∈ properties →
                    match dict_get n input_param with
                    | Some value => value_fits s value
                    | None => n ∉ required
                    end)) as ->.
        { destruct (default_value schema) as [[]|]; apply IH. }
        split.
        -- intros Hall n s [[= -> ->]|Hin]%elem_of_cons; [by rewrite Hget|by apply Hall].
        -- intros Hall n s Hin. apply Hall. by apply list_elem_of_further.
Qed.

Lemma defaults_of_names properties name value :
  dict_get name (defaults_of properties) = Some value → name ∈ properties.*1.
Proof.
  intros [[n v] [-> Hin]]%dict_get_Some%list_elem_of_fmap. simpl.
  apply list_elem_of_omap in Hin as ([n' s] & Hin & Hdef).
  assert (n' = n) as ->.
  { simpl in Hdef. destruct (default_value s) as [[]|]; congruence. }
  apply list_elem_of_fmap. by exists (n, s).
Qed.

Ltac elem_of_cons_absurd :=
  repeat match goal with
  | H : _ ∉ _ :: _ |- _ => apply not_elem_of_cons in H as [? ?]
  | H : _ ∈ _ :: _ |- _ => apply elem_of_cons in H as [?|?]
  end; congruence.

Lemma validate_properties_result required input_param properties acc validated :
  NoDup properties.*1 →
  validate_properties required input_param properties acc = inr validated →
  ∀ name,
    dict_get name validated =
      if decide (name ∈ properties.*1) then
        match dict_get name input_param with
        | Some value => Some value
        | None => from_option Some (dict_get name acc) (dict_get name (defaults_of properties))
        end
      else dict_get name acc.
Proof.
  revert acc. induction properties as [|[n schema] properties IH]; intros acc Hnodup.
  - intros [= <-] name. done.
  - rewrite fmap_cons in *. cbn [fst validate_properties].
    apply NoDup_cons in Hnodup as [Hfresh Hnodup].
    assert (∀ acc', validate_properties required input_param properties acc' = inr validated →
              ∀ name, dict_get name validated =
                if decide (name ∈ n :: properties.*1) then
                  if decide (n = name) then dict_get name acc'
                  else match dict_get name input_param with
                       | Some value => Some value
                       | None => from_option Some (dict_get name acc')
                                   (dict_get name (defaults_of properties))
                       end
                else dict_get name acc') as Hrest.
    { intros acc' Hrun name. rewrite (IH _ Hnodup Hrun name).
      destruct (decide (n = name)) as [<-|Hne].
      - rewrite decide_False by done. by rewrite decide_True by apply list_elem_of_here.
      - destruct (decide (name ∈ properties.*1)) as [Hin|Hnot].
        + by rewrite decide_True by by apply list_elem_of_further.
        + rewrite decide_False; [done|]. rewrite not_elem_of_cons. naive_solver. }
    assert (dict_get n (defaults_of properties) = None) as Hnone.
    { destruct (dict_get n (defaults_of properties)) eqn:Hd; [|done].
      by apply defaults_of_names in Hd. }
    assert (∀ name, name ≠ n →
              dict_get name (defaults_of ((n, schema) :: properties)) =
              dict_get name (defaults_of properties)) as Hother.
    { intros name Hne. unfold defaults_of. cbn [omap list_omap snd fst].
      destruct (default_value schema) as [[]|]; simpl; by rewrite ?decide_False by done. }
    assert (dict_get n (defaults_of ((n, schema) :: properties)) =
              match default_value schema with
              | Some PyNone | None => None
              | Some default => Some default
              end) as Hhere.
    { unfold defaults_of in *. cbn [omap list_omap snd fst].
      destruct (default_value schema) as [[]|]; simpl; by rewrite ?decide_True by done. }
    destruct (dict_get n input_param) as [value|] eqn:Hget.
    + destruct (check_value n schema value); [done|].
      intros Hrun name. rewrite (Hrest _ Hrun name), dict_get_set.
      repeat case_decide; simplify_eq; rewrite ?Hget, ?Hother by done; try done.
      all: by elem_of_cons_absurd.
    + case_bool_decide; [done|].
      destruct (default_value schema) as [[]|]; intros Hrun name;
        rewrite (Hrest _ Hrun name), ?dict_get_set;
        repeat case_decide; simplify_eq; rewrite ?Hget, ?Hhere, ?Hother by done; try done.
      all: by elem_of_cons_absurd.
Qed.



Lemma filter_nil_iff {A} (P : A → Prop) `{∀ x, Decision (P x)} (l : list A) :
  filter P l = [] ↔ ∀ x, x ∈ l → ¬ P x.
Proof.
  split.
  - intros Hnil x Hin HP. by apply (filter_nil_not_elem_of P l x).
  - intros Hall. destruct (filter P l) as [|y rest] eqn:Hfilter; [done|].
    assert (y ∈ filter P l) as [HP Hin]%list_elem_of_filter
      by (rewrite Hfilter; apply list_elem_of_here).
    by destruct (Hall y Hin).
Qed.

Lemma dict_get_is_Some key d : is_Some (dict_get key d) ↔ key ∈ d.*1.
Proof.
  destruct (dict_get key d) as [value|] eqn:Hget.
  - split; [intros _; by eapply dict_get_Some|by eauto].
  - apply dict_get_None in Hget. split; [by intros [? [=]]|done].
Qed.

(** When validation reaches the loop: nothing unexpected, nothing required
    missing. *)
Lemma validate_against_loop properties required input_param :
  let required' :=
    if is_str "readme" (dict_get "operation" input_param)
    then ["operation"] else required in
  (∀ name, name ∈ input_param.*1 → name ∈ properties.*1) →
  (∀ name, name ∈ required' → name ∈ input_param.*1) →
  validate_against properties required input_param =
    validate_properties required' input_param properties [].
Proof.
  intros required' Hexpected Hrequired. unfold validate_against. fold required'.
  rewrite bool_decide_eq_false_2.
  - rewrite bool_decide_eq_false_2; [done|].
    intros Hne. apply Hne, filter_nil_iff. intros name Hin Hnot. by apply Hnot, Hrequired.
  - intros Hne. apply Hne, filter_nil_iff. intros name Hin Hnot. by apply Hnot, Hexpected.
Qed.

Lemma validate_against_inr properties required input_param validated :
  let required' :=
    if is_str "readme" (dict_get "operation" input_param)
    then ["operation"] else required in
  validate_against properties required input_param = inr validated →
  (∀ name, name ∈ input_param.*1 → name ∈ properties.*1) ∧
  (∀ name, name ∈ required' → name ∈ input_param.*1) ∧
  validate_properties required' input_param properties [] = inr validated.
Proof.
  intros required'. unfold validate_against. fold required'.
  case_bool_decide as Hunexpected; [done|].
  case_bool_decide as Hmissing; [done|].
  intros Hloop. split_and!; [| |done].
  - intros name Hin. destruct (decide (name ∈ properties.*1)) as [|Hnot]; [done|].
    by destruct (filter_nil_not_elem_of _ _ name Hunexpected Hnot).
  - intros name Hin. destruct (decide (name ∈ input_param.*1)) as [|Hnot]; [done|].
    by destruct (filter_nil_not_elem_of _ _ name Hmissing Hnot).
Qed.

(** X14. [validate_parameters] accepts a request exactly when every key it
    carries is a declared parameter, every required parameter is present
    (only ["operation"] for a readme request), and each declared parameter
    that is present passes the three checks: a ["string"] parameter holds a
    string, a ["boolean"] one a boolean, and one with an ["enum"] holds one
    of its strings.  Nothing else is checked: an ["integer"] or ["array"]
    parameter is accepted with a value of any type. *)
Theorem validation_accepts_exactly properties required input_param :
  (∃ validated, validate_against properties required input_param = inr validated) ↔
  (∀ name, name ∈ input_param.*1 → name ∈ properties.*1) ∧
  (∀ name,
     name ∈ (if is_str "readme" (dict_get "operation" input_param)
             then ["operation"] else required) →
     name ∈ input_param.*1) ∧
  (∀ name schema value,
     (name, schema) ∈ properties → dict_get name input_param = Some value →
     value_fits schema value).
Proof.
  split.
  - intros [validated (Hexpected & Hrequired & Hloop)%validate_against_inr].
    split_and!; [done..|].
    intros name schema value Hin Hget.
    pose proof (proj1 (validate_properties_accepts _ _ _ _) (ex_intro _ _ Hloop)
                  name schema Hin) as Hfits.
    by rewrite Hget in Hfits.
  - intros (Hexpected & Hrequired & Hfits).
    rewrite validate_against_loop by done.
    apply validate_properties_accepts. intros name schema Hin.
    destruct (dict_get name input_param) as [value|] eqn:Hget; [by eapply Hfits|].
    intros Hreq. apply Hrequired, dict_get_is_Some in Hreq as [value Hvalue]. congruence.
Qed.

Lemma real_parameters_NoDup : NoDup real_parameters_properties.*1.
Proof. apply (bool_decide_unpack _). by vm_compute. Qed.

(** X15. The parameters [validate_parameters] hands on are the request's
    own, each with the value given, plus the schema's default for these five
    when the request leaves them out: [include_all] and [request_focus]
    false, [button] "left", [detail] "summary", [timeout_ms] 30000. *)
Theorem validated_parameters_are_input_plus_defaults py_str repr_list input_param
    validated :
  validate_parameters py_str repr_list input_param = (None, validated) →
  ∀ name,
    dict_get name validated =
      match dict_get name input_param with
      | Some value => Some value
      | None =>
          dict_get name
            [("include_all", PyBool false); ("request_focus", PyBool false);
             ("button", PyStr "left"); ("detail", PyStr "summary");
             ("timeout_ms", PyInt 30000)]
      end.
Proof.
  unfold validate_parameters.
  destruct (validate_against _ _ _) as [e|validated'] eqn:Hvalidate; [done|].
  intros [= ->] name.
  apply validate_against_inr in Hvalidate as (Hexpected & _ & Hloop).
  rewrite (validate_properties_result _ _ _ _ _ real_parameters_NoDup Hloop name).
  change [("include_all", PyBool false); ("request_focus", PyBool false);
          ("button", PyStr "left"); ("detail", PyStr "summary");
          ("timeout_ms", PyInt 30000)]
    with (defaults_of real_parameters_properties).
  case_decide as Hname.
  - destruct (dict_get name (defaults_of real_parameters_properties));
      by destruct (dict_get name input_param).
  - destruct (dict_get name input_param) as [value|] eqn:Hget.
    + by apply dict_get_Some, Hexpected in Hget.
    + destruct (dict_get name (defaults_of _)) eqn:Hdefault; [|done].
      by apply defaults_of_names in Hdefault.
Qed.

Lemma validated_parameters_are_input_plus_defaults_witness :
  let input_param :=
    [("operation", PyStr "execute_command"); ("tool_unlock_token", PyStr "a1b2");
     ("command", PyStr "dir"); ("timeout_ms", PyInt 500)] in
  let validated := (validate_parameters (λ _, "") (λ _, "") input_param).2 in
  dict_get "timeout_ms" validated = Some (PyInt 500) ∧
  dict_get "button" validated = Some (PyStr "left") ∧
  dict_get "shell" validated = None.
Proof.
  intros input_param validated.
  assert (validate_parameters (λ _, "") (λ _, "") input_param = (None, validated)) as Hok
    by by vm_compute.
  rewrite !(validated_parameters_are_input_plus_defaults _ _ _ _ Hok). by vm_compute.
Defined.

Lemma validate_properties_never_missing required input_param properties acc :
  (∀ name, name ∈ required → name ∈ input_param.*1) →
  match validate_properties required input_param properties acc with
  | inl (RequiredParameterMissing _) => False
  | _ => True
  end.
Proof.
  intros Hrequired. revert acc.
  induction properties as [|[name schema] properties IH]; intros acc; simpl; [done|].
  destruct (dict_get name input_param) as [value|] eqn:Hget.
  - destruct (check_value name schema value) as [e|] eqn:Hcheck; [|apply IH].
    unfold check_value in Hcheck.
    repeat (case_match; simplify_eq; try done).
  - case_bool_decide as Hreq.
    + apply Hrequired, dict_get_is_Some in Hreq as [value Hvalue]. congruence.
    + destruct (default_value schema) as [[]|]; apply IH.
Qed.

(** X16. [validate_parameters] never returns "Required parameter '...' is
    missing": a required parameter that is absent has already been reported
    by "Missing required parameters: ..." before the loop that holds this
    [return]. *)
Theorem required_parameter_missing_is_never_returned properties required input_param :
  match validate_against properties required input_param with
  | inl (RequiredParameterMissing _) => False
  | _ => True
  end.
Proof.
  unfold validate_against.
  case_bool_decide as Hunexpected; [done|].
  case_bool_decide as Hmissing; [done|].
  apply validate_properties_never_missing. intros name Hin.
  destruct (decide (name ∈ input_param.*1)) as [|Hnot]; [done|].
  by destruct (filter_nil_not_elem_of _ _ name Hmissing Hnot).
Qed.

(** ** Dispatch *)

Lemma error_text_truthy py_str repr_list e : truthy (error_text py_str repr_list e) = true.
Proof. by destruct e. Qed.

Lemma is_str_true text value : is_str text value = true ↔ value = Some (PyStr text).
Proof.
  destruct value as [[]|]; simpl; try by split.
  rewrite bool_decide_eq_true. split; [by intros ->|by intros [= ->]].
Qed.

(** X17. Without the module's token no handler runs: a request that does not
    carry [TOOL_UNLOCK_TOKEN] as its ["tool_unlock_token"] gets a response
    that [handle_system] builds itself, whatever the handlers are, and the
    machine is left as it was.  The response is an error, except for a readme
    request, which is answered with the documentation. *)
Theorem handle_system_without_token {World Response}
    (handle_operation handle_operation' :
       string → list (string * py_value) → World → World * handler_outcome Response)
    TOOL_UNLOCK_TOKEN readme_text py_str repr_list pop_exception_text input_param w :
  (∀ entries request,
     input_param = PyDict entries → unwrapped_input entries = PyDict request →
     is_str TOOL_UNLOCK_TOKEN (dict_get "tool_unlock_token" request) = false) →
  handle_system World Response handle_operation TOOL_UNLOCK_TOKEN readme_text py_str
      repr_list pop_exception_text input_param w =
    handle_system World Response handle_operation' TOOL_UNLOCK_TOKEN readme_text py_str
      repr_list pop_exception_text input_param w ∧
  ∃ response,
    handle_system World Response handle_operation TOOL_UNLOCK_TOKEN readme_text py_str
      repr_list pop_exception_text input_param w = (w, inl response) ∧
    (isError response = false → response = readme_response readme_text).
Proof.
  intros Htoken. unfold handle_system.
  assert (∀ response : tool_response,
            (isError response = false → response = readme_response readme_text) →
            (w, inl response) = (w, @inl _ Response response) ∧
            ∃ response', (w, @inl _ Response response) = (w, inl response') ∧
              (isError response' = false → response' = readme_response readme_text))
    as Hown by eauto.
  destruct input_param as [|b|z|r|s|items|entries]; try by apply Hown.
  destruct (unwrapped_input entries) as [|b|z|r|s|items|request] eqn:Hinner;
    try by apply Hown.
  destruct (is_str "readme" _); [by apply Hown|].
  rewrite (Htoken entries request eq_refl Hinner). by apply Hown.
Qed.

Lemma handle_system_without_token_witness :
  let handle_operation :=
    λ (operation : string) (params : list (string * py_value)) (w : nat),
      (S w, HandlerReturned operation) in
  let input_param :=
    PyDict [("handler_info", PyDict []);
            ("input", PyDict [("operation", PyStr "list_sessions");
                              ("tool_unlock_token", PyStr "guess")])] in
  ∃ response,
    handle_system nat string handle_operation "a1b2" "doc" (λ _, "") (λ _, "") (λ _, "")
      input_param 0%nat = (0%nat, inl response) ∧
    isError response = true.
Proof.
  intros handle_operation input_param.
  destruct (handle_system_without_token handle_operation handle_operation
              "a1b2" "doc" (λ _, "") (λ _, "") (λ _, "") input_param 0%nat)
    as (_ & response & Hresponse & _).
  { intros entries request [= <-]. vm_compute. by intros [= <-]. }
  exists response. split; [done|].
  vm_compute in Hresponse. by injection Hresponse as <-.
Defined.

(** X18. A request that carries the token and is no readme request is
    validated and then dispatched: if validation fails the caller gets the
    validation message as an error and the machine is left as it was;
    otherwise the request names one of the seventeen operations with a
    handler, and [handle_system] returns what that handler returns on the
    validated parameters (or reports the exception it raises).  The "Unknown
    operation" response is never produced. *)
Theorem handle_system_dispatches_validated_request {World Response}
    (handle_operation :
       string → list (string * py_value) → World → World * handler_outcome Response)
    TOOL_UNLOCK_TOKEN readme_text py_str repr_list pop_exception_text entries request w :
  unwrapped_input entries = PyDict request →
  is_str "readme" (dict_get "operation" request) = false →
  is_str TOOL_UNLOCK_TOKEN (dict_get "tool_unlock_token" request) = true →
  match validate_against real_parameters_properties real_parameters_required request with
  | inl e =>
      handle_system World Response handle_operation TOOL_UNLOCK_TOKEN readme_text py_str
        repr_list pop_exception_text (PyDict entries) w =
      (w, inl (create_error_response readme_text (error_text py_str repr_list e) true))
  | inr validated =>
      ∃ operation,
        dict_get "operation" request = Some (PyStr operation) ∧
        operation ∈ dispatched_operations ∧
        handle_system World Response handle_operation TOOL_UNLOCK_TOKEN readme_text py_str
          repr_list pop_exception_text (PyDict entries) w =
        match handle_operation operation validated w with
        | (w', HandlerReturned response) => (w', inr response)
        | (w', HandlerRaised exception_text) =>
            (w', inl (create_error_response readme_text
                        ("Error in system operation: " +:+ exception_text) true))
        end
  end.
Proof.
  intros Hinner Hreadme Htoken. unfold handle_system. rewrite Hinner, Hreadme, Htoken.
  cbn [negb]. unfold validate_parameters.
  destruct (validate_against _ _ request) as [e|validated] eqn:Hvalidate.
  - cbn [default]. by rewrite error_text_truthy.
  - pose proof Hvalidate as (Hexpected & Hrequired & Hloop)%validate_against_inr.
    rewrite Hreadme in Hrequired, Hloop.
    assert (is_Some (dict_get "operation" request)) as [value Hvalue].
    { apply dict_get_is_Some, Hrequired. apply list_elem_of_here. }
    pose proof (proj1 (validate_properties_accepts _ _ _ _) (ex_intro _ _ Hloop)
                  "operation" _ (list_elem_of_here _ _)) as Hfits.
    rewrite Hvalue in Hfits. destruct Hfits as (_ & _ & Henum).
    destruct (Henum _ eq_refl) as (operation & -> & Hin).
    assert (operation ∈ dispatched_operations) as Hdispatched.
    { change valid_operations with ("readme" :: dispatched_operations) in Hin.
      apply elem_of_cons in Hin as [->|Hin]; [|done].
      by rewrite Hvalue in Hreadme. }
    exists operation. split_and!; [done..|].
    rewrite (validate_properties_result _ _ _ _ _ real_parameters_NoDup Hloop "operation").
    rewrite decide_True by apply list_elem_of_here. rewrite Hvalue.
    rewrite bool_decide_eq_true_2 by done.
    by destruct (handle_operation operation validated w) as [w' []].
Qed.

Lemma handle_system_dispatches_validated_request_witness :
  let handle_operation :=
    λ (operation : string) (params : list (string * py_value)) (w : nat),
      (S w, HandlerReturned operation) in
  let request :=
    [("operation", PyStr "list_sessions"); ("tool_unlock_token", PyStr "a1b2")] in
  handle_system nat string handle_operation "a1b2" "doc" (λ _, "") (λ _, "") (λ _, "")
    (PyDict request) 0%nat = (1%nat, inr "list_sessions").
Proof.
  intros handle_operation request.
  pose proof (handle_system_dispatches_validated_request handle_operation
                "a1b2" "doc" (λ _, "") (λ _, "") (λ _, "") request request 0%nat
                eq_refl eq_refl eq_refl) as Hrun.
  destruct (validate_against _ _ request) as [e|validated] eqn:Hvalidate;
    [by vm_compute in Hvalidate|].
  destruct Hrun as (operation & [= <-] & _ & ->). reflexivity.
Defined.

(** ** Moving windows *)

Section MoveWindowFacts.

Context {World : Type}.
Variable move_window_functional :
  py_value → py_value → py_value → py_value → py_value → World → World * move_outcome.
Variable format_08X : Z → string.
Variable py_str : py_value → string.
Variable check_mark cross_mark : string.
Variable readme_text : string.

Lemma process_move_index i move w : move_index (process_move World move_window_functional format_08X py_str i move w).2 = i + 1.
Proof.
  unfold process_move.
  repeat (case_match; simplify_eq; try done).
Qed.

Lemma count_successful_app results results' :
  count_successful (results ++ results') =
    count_successful results + count_successful results'.
Proof. unfold count_successful. rewrite filter_app, length_app. lia. Qed.

Lemma count_failed_app results results' :
  count_failed (results ++ results') = count_failed results + count_failed results'.
Proof. unfold count_failed. rewrite filter_app, length_app. lia. Qed.

Lemma count_successful_cons result results :
  count_successful (result :: results) =
    (if success result then 1 else 0) + count_successful results.
Proof.
  unfold count_successful. rewrite filter_cons.
  destruct (success result); case_decide; try done; simpl length; lia.
Qed.

Lemma count_failed_cons result results :
  count_failed (result :: results) =
    (if success result then 0 else 1) + count_failed results.
Proof.
  unfold count_failed. rewrite filter_cons.
  destruct (success result); case_decide; try done; simpl length; lia.
Qed.

Lemma batch_loop_spec i moves w results successful_moves failed_moves :
  ∃ new,
    (batch_loop World move_window_functional format_08X py_str i moves w results
       successful_moves failed_moves).2 =
      (results ++ new, successful_moves + count_successful new,
       failed_moves + count_failed new) ∧
    length new = length moves ∧
    ∀ (k : nat) result, new !! k = Some result → move_index result = i + Z.of_nat k + 1.
Proof.
  revert i w results successful_moves failed_moves.
  induction moves as [|move moves IH]; intros i w results successful_moves failed_moves.
  - exists []. simpl. rewrite app_nil_r.
    split_and!; [f_equal; [f_equal|]; unfold count_successful, count_failed; simpl; lia
                |done|done].
  - cbn [batch_loop].
    pose proof (process_move_index i move w) as Hindex.
    destruct (process_move World move_window_functional format_08X py_str i move w) as [w1 result]. cbn [snd] in Hindex.
    assert (∀ new, length new = length moves →
              (∀ (k : nat) r, new !! k = Some r → move_index r = i + 1 + Z.of_nat k + 1) →
              length (result :: new) = length (move :: moves) ∧
              ∀ (k : nat) r, (result :: new) !! k = Some r → move_index r = i + Z.of_nat k + 1)
      as Hshape.
    { intros new Hlen Hnew. split; [simpl; lia|].
      intros [|k] r; simpl.
      - intros [= <-]. lia.
      - intros Hr. rewrite (Hnew k r Hr). lia. }
    destruct (success result) eqn:Hsuccess.
    + destruct (IH (i + 1) w1 (results ++ [result]) (successful_moves + 1) failed_moves)
        as (new & -> & Hlen & Hnew).
      exists (result :: new). split; [|by apply Hshape].
      rewrite <- app_assoc, count_successful_cons, count_failed_cons, Hsuccess.
      apply pair_equal_spec; split; [apply pair_equal_spec; split; [done|lia]|lia].
    + destruct (IH (i + 1) w1 (results ++ [result]) successful_moves (failed_moves + 1))
        as (new & -> & Hlen & Hnew).
      exists (result :: new). split; [|by apply Hshape].
      rewrite <- app_assoc, count_successful_cons, count_failed_cons, Hsuccess.
      apply pair_equal_spec; split; [apply pair_equal_spec; split; [done|lia]|lia].
Qed.

Lemma count_failed_zero results :
  bool_decide (count_failed results = 0) = forallb success results.
Proof.
  induction results as [|result results IH]; [done|].
  rewrite count_failed_cons. cbn [forallb]. destruct (success result); cbn [andb].
  - rewrite <- IH. apply bool_decide_ext. lia.
  - apply bool_decide_eq_false. unfold count_failed. lia.
Qed.

Lemma batch_loop_in_turn i moves w results successful_moves failed_moves :
  batch_loop World move_window_functional format_08X py_str i moves w results
    successful_moves failed_moves
  = let turn := moves_in_turn move_window_functional format_08X py_str i moves w in
    (turn.1, (results ++ turn.2, successful_moves + count_successful turn.2,
              failed_moves + count_failed turn.2)).
Proof.
  revert i w results successful_moves failed_moves.
  induction moves as [|move moves IH]; intros i w results successful_moves failed_moves.
  - simpl. rewrite app_nil_r. unfold count_successful, count_failed. simpl.
    by rewrite !Z.add_0_r.
  - cbn [batch_loop moves_in_turn].
    destruct (process_move World move_window_functional format_08X py_str i move w)
      as [w1 result].
    destruct (success result) eqn:Hsuccess; rewrite IH;
      destruct (moves_in_turn move_window_functional format_08X py_str (i + 1) moves w1)
        as [w2 rest]; cbn [fst snd];
      rewrite <- app_assoc, count_successful_cons, count_failed_cons, Hsuccess;
      (apply pair_equal_spec; split; [done|]);
      (apply pair_equal_spec; split; [apply pair_equal_spec; split; [done|lia]|lia]).
Qed.

Lemma move_windows_batch_functional_shape moves w :
  let batch :=
    move_windows_batch_functional World move_window_functional format_08X py_str moves w in
  let turn := moves_in_turn move_window_functional format_08X py_str 0 moves w in
  let results := batch.2.2 in
  batch.1 = turn.1
  ∧ results = turn.2
  ∧ length results = length moves
  ∧ (∀ (k : nat) result, results !! k = Some result → move_index result = Z.of_nat k + 1)
  ∧ batch.2.1.1 = forallb success results
  ∧ batch.2.1.2
    = "Batch move completed: " +:+ str_of_int (count_successful results) +:+ " successful, "
        +:+ str_of_int (count_failed results) +:+ " failed out of "
        +:+ str_of_int (Z.of_nat (length results)) +:+ " total moves".
Proof.
  intros batch turn results. subst batch turn results.
  unfold move_windows_batch_functional.
  destruct (batch_loop_spec 0 moves w [] 0 0) as (new & Hloop & Hlen & Hindex).
  pose proof (batch_loop_in_turn 0 moves w [] 0 0) as Hturn.
  destruct (batch_loop _ _ _ _ _ _ _ _ _ _) as [w' [[results successful_moves] failed_moves]].
  cbn [snd app] in Hloop. injection Hloop as -> -> ->.
  cbn [fst snd]. cbn zeta in Hturn. injection Hturn as -> Hnew _ _.
  rewrite !Z.add_0_l, Hlen.
  split_and!; [done|done|done| |apply count_failed_zero|done].
  intros k result Hresult. rewrite (Hindex k result Hresult). lia.
Qed.

(** A move that lacks one of the five fields: line 3528 or one of lines
    3534-3537 raises [KeyError] for the first field that is absent. *)
Lemma process_move_missing_field i move w field :
  field ∈ ["hwnd"; "x"; "y"; "width"; "height"] → dict_get field move = None →
  let processed := process_move World move_window_functional format_08X py_str i move w in
  processed.1 = w
  ∧ success processed.2 = false
  ∧ ∃ missing,
      head (filter (λ field, field ∉ move.*1) ["hwnd"; "x"; "y"; "width"; "height"])
      = Some missing
      ∧ message processed.2 = "Error processing move: '" +:+ missing +:+ "'".
Proof.
  intros Hfield Hnone processed. subst processed. unfold process_move.
  assert (∀ key rest,
            dict_get key move = None →
            head (filter (λ field, field ∉ move.*1) (key :: rest)) = Some key) as Habsent.
  { intros key rest Hkey. apply dict_get_None in Hkey.
    by rewrite filter_cons, decide_True. }
  assert (∀ key rest value,
            dict_get key move = Some value →
            filter (λ field, field ∉ move.*1) (key :: rest)
            = filter (λ field, field ∉ move.*1) rest) as Hpresent.
  { intros key rest value Hkey. apply dict_get_Some in Hkey.
    rewrite filter_cons, decide_False; [done|]. by intros Hnot. }
  destruct (dict_get "hwnd" move) as [hwnd_value|] eqn:Hhwnd.
  2:{ split_and!; [done|done|]. exists "hwnd". split; [by apply Habsent|done]. }
  rewrite (Hpresent _ _ _ Hhwnd).
  destruct (dict_get "x" move) as [x|] eqn:Hx.
  2:{ split_and!; [done|done|]. exists "x". split; [by apply Habsent|done]. }
  rewrite (Hpresent _ _ _ Hx).
  destruct (dict_get "y" move) as [y|] eqn:Hy.
  2:{ split_and!; [done|done|]. exists "y". split; [by apply Habsent|done]. }
  rewrite (Hpresent _ _ _ Hy).
  destruct (dict_get "width" move) as [width|] eqn:Hwidth.
  2:{ split_and!; [done|done|]. exists "width". split; [by apply Habsent|done]. }
  rewrite (Hpresent _ _ _ Hwidth).
  destruct (dict_get "height" move) as [height|] eqn:Hheight.
  2:{ split_and!; [done|done|]. exists "height". split; [by apply Habsent|done]. }
  exfalso.
  repeat (apply elem_of_cons in Hfield as [->|Hfield]); try congruence.
  by apply elem_of_nil in Hfield.
Qed.

(** A move with the five fields: the platform's function is called with
    them, and the entry records what the call returned, or a failure with
    the text of the exception when the call raised. *)
Lemma process_move_complete i move w hwnd_value x y width height :
  dict_get "hwnd" move = Some hwnd_value → dict_get "x" move = Some x →
  dict_get "y" move = Some y → dict_get "width" move = Some width →
  dict_get "height" move = Some height →
  let hwnd_str :=
    match int_value hwnd_value with
    | Some z => "0x" +:+ format_08X z
    | None => format_value py_str hwnd_value
    end in
  let call := move_window_functional (PyStr hwnd_str) x y width height w in
  let processed := process_move World move_window_functional format_08X py_str i move w in
  processed.1 = call.1
  ∧ move_index processed.2 = i + 1
  ∧ target_position processed.2 = (x, y, width, height)
  ∧ match call.2 with
    | MoveReturned returned_success returned_message =>
        success processed.2 = returned_success
        ∧ message processed.2 = returned_message
        ∧ hwnd processed.2 = PyStr hwnd_str
    | MoveRaised _ exception_text =>
        success processed.2 = false
        ∧ message processed.2 = "Error processing move: " +:+ exception_text
        ∧ hwnd processed.2 = hwnd_value
    end.
Proof.
  intros Hhwnd Hx Hy Hwidth Hheight hwnd_str call processed.
  subst processed. unfold process_move. rewrite Hhwnd, Hx, Hy, Hwidth, Hheight.
  fold hwnd_str. fold call.
  destruct call as [w' [returned_success returned_message|is_value_error exception_text]];
    cbn [fst snd]; [done|].
  unfold failed_move, dict_get_or_None. rewrite Hhwnd, Hx, Hy, Hwidth, Hheight. done.
Qed.

(** X19. The results of a batch move are those of its moves, taken in turn:
    each move is processed in the state the moves before it have left, there
    is one result per move, in order and numbered from 1.  A move that lacks
    one of the five fields touches no window and counts as failed, with the
    text [Error processing move: '<field>'] for the first field that is
    absent; a move with the five fields is handed to the platform's function
    and succeeds exactly when that call returns success, with the message the
    call returned; a call that raises counts as failed, with the text
    [Error processing move: <exception>].  The summary reports how many of
    the results succeeded, how many failed and how many there are, and the
    batch counts as a success exactly when every result does. *)
Theorem batch_summary_agrees_with_results moves w :
  let batch :=
    move_windows_batch_functional World move_window_functional format_08X py_str moves w in
  let turn := moves_in_turn move_window_functional format_08X py_str 0 moves w in
  let results := batch.2.2 in
  (batch.1 = turn.1
   ∧ results = turn.2
   ∧ length results = length moves
   ∧ (∀ (k : nat) result, results !! k = Some result → move_index result = Z.of_nat k + 1)
   ∧ batch.2.1.1 = forallb success results
   ∧ batch.2.1.2
     = "Batch move completed: " +:+ str_of_int (count_successful results)
         +:+ " successful, "
         +:+ str_of_int (count_failed results) +:+ " failed out of "
         +:+ str_of_int (Z.of_nat (length results)) +:+ " total moves")
  ∧ (∀ i move w field,
       field ∈ ["hwnd"; "x"; "y"; "width"; "height"] → dict_get field move = None →
       let processed :=
         process_move World move_window_functional format_08X py_str i move w in
       processed.1 = w
       ∧ success processed.2 = false
       ∧ ∃ missing,
           head (filter (λ field, field ∉ move.*1) ["hwnd"; "x"; "y"; "width"; "height"])
           = Some missing
           ∧ message processed.2 = "Error processing move: '" +:+ missing +:+ "'")
  ∧ (∀ i move w hwnd_value x y width height,
       dict_get "hwnd" move = Some hwnd_value → dict_get "x" move = Some x →
       dict_get "y" move = Some y → dict_get "width" move = Some width →
       dict_get "height" move = Some height →
       let hwnd_str :=
         match int_value hwnd_value with
         | Some z => "0x" +:+ format_08X z
         | None => format_value py_str hwnd_value
         end in
       let call := move_window_functional (PyStr hwnd_str) x y width height w in
       let processed :=
         process_move World move_window_functional format_08X py_str i move w in
       processed.1 = call.1
       ∧ move_index processed.2 = i + 1
       ∧ target_position processed.2 = (x, y, width, height)
       ∧ match call.2 with
         | MoveReturned returned_success returned_message =>
             success processed.2 = returned_success
             ∧ message processed.2 = returned_message
             ∧ hwnd processed.2 = PyStr hwnd_str
         | MoveRaised _ exception_text =>
             success processed.2 = false
             ∧ message processed.2 = "Error processing move: " +:+ exception_text
             ∧ hwnd processed.2 = hwnd_value
         end).
Proof.
  intros batch turn results. split; [|split].
  - apply move_windows_batch_functional_shape.
  - apply process_move_missing_field.
  - apply process_move_complete.
Qed.

Lemma first_invalid_move_None i moves :
  first_invalid_move i moves = None ↔ Forall valid_move moves.
Proof.
  revert i. induction moves as [|move moves IH]; intros i; simpl.
  - split; [by constructor|done].
  - rewrite Forall_cons. destruct move as [|b|z|r|s|items|entries];
      try (split; [done|]; by intros [(entries & [=] & _) _]).
    destruct (filter _ _) as [|field fields] eqn:Hfilter.
    + rewrite IH. split; [|by intros [_ ?]]. intros Hvalid. split; [|done].
      exists entries. split; [done|]. intros field Hfield.
      destruct (decide (field ∈ entries.*1)) as [|Hnot]; [done|].
      by destruct (filter_nil_not_elem_of _ _ field Hfilter Hnot).
    + split; [done|]. intros [(entries' & [= <-] & Hall) _].
      assert (field ∈ filter (λ field, field ∉ entries.*1)
                        ["hwnd"; "x"; "y"; "width"; "height"])
        as [Hnot Hfield]%list_elem_of_filter
        by (rewrite Hfilter; apply list_elem_of_here).
      by destruct (Hnot (Hall field Hfield)).
Qed.

(** X20. A batch is validated as a whole before any window is touched: if
    one move of the list, wherever it stands, is not an object or lacks one
    of [hwnd], [x], [y], [width] and [height], [handle_move_window] returns
    an error and no window has been moved, not even by the well-formed moves
    before it. *)
Theorem malformed_batch_moves_no_window params moves w :
  dict_get "moves" params = Some (PyList moves) →
  (∃ move, move ∈ moves ∧ ¬ valid_move move) →
  ∃ response,
    handle_move_window World move_window_functional format_08X py_str check_mark
      cross_mark readme_text params w = (w, response) ∧
    isError response = true.
Proof.
  intros Hmoves (move & Hin & Hinvalid). unfold handle_move_window, dict_get_or_None.
  rewrite Hmoves. unfold default. cbn [from_option id py_truthy].
  destruct moves as [|move0 moves]; [by apply elem_of_nil in Hin|].
  destruct (first_invalid_move 0 (move0 :: moves)) as [error_msg|] eqn:Hfirst.
  { eexists. split; reflexivity. }
  apply first_invalid_move_None in Hfirst.
  by destruct (Hinvalid (proj1 (Forall_forall _ _) Hfirst move Hin)).
Qed.

Lemma dicts_of_length moves :
  Forall valid_move moves → length (dicts_of moves) = length moves.
Proof.
  induction 1 as [|move moves (entries & -> & _) _ IH]; [done|].
  change (S (length (dicts_of moves)) = S (length moves)). by rewrite IH.
Qed.

Lemma valid_move_fields entries field :
  valid_move (PyDict entries) → field ∈ ["hwnd"; "x"; "y"; "width"; "height"] →
  is_Some (dict_get field entries).
Proof.
  intros (entries' & [= <-] & Hall) Hfield.
  destruct (dict_get field entries) eqn:Hget; [eauto|].
  apply dict_get_None in Hget. by destruct (Hget (Hall field Hfield)).
Qed.

Lemma elem_of_dicts_of entries moves :
  entries ∈ dicts_of moves → Forall valid_move moves → valid_move (PyDict entries).
Proof.
  unfold dicts_of. intros (move & Hmove & Hentries)%list_elem_of_omap Hvalid.
  rewrite Forall_forall in Hvalid. specialize (Hvalid move Hmove).
  destruct move; by simplify_eq.
Qed.

Lemma forallb_success_false results :
  negb (forallb success results) = true
  ↔ ∃ result, result ∈ results ∧ success result = false.
Proof.
  induction results as [|result results IH]; simpl.
  - split; [done|]. intros (result & Hin & _). by apply elem_of_nil in Hin.
  - destruct (success result) eqn:Hsuccess; simpl.
    + rewrite IH. split.
      * intros (r & Hin & Hr). exists r. split; [by apply list_elem_of_further|done].
      * intros (r & [->|Hin]%elem_of_cons & Hr); [congruence|eauto].
    + split; [intros _|done]. exists result. split; [apply list_elem_of_here|done].
Qed.

(** X21. For a batch of well-formed moves [handle_move_window] runs
    [move_windows_batch_functional] on the moves and answers with its summary
    followed by one line per move, and with the same summary, flag and
    results under ["batch_results"].  Each move reaches the platform's
    function, in the state the moves before it have left, and its result is
    a success exactly when that call returned success.  The response is an
    error exactly when at least one of the results is a failure. *)
Theorem valid_batch_reports_every_move params moves w :
  dict_get "moves" params = Some (PyList moves) →
  moves ≠ [] →
  Forall valid_move moves →
  let batch :=
    move_windows_batch_functional World move_window_functional format_08X py_str
      (dicts_of moves) w in
  let turn :=
    moves_in_turn move_window_functional format_08X py_str 0 (dicts_of moves) w in
  let results := batch.2.2 in
  let call :=
    handle_move_window World move_window_functional format_08X py_str check_mark
      cross_mark readme_text params w in
  call = (batch.1,
          {| content :=
               batch.2.1.2 :: (detail_text py_str check_mark cross_mark <$> results);
             isError := negb batch.2.1.1;
             extra_fields :=
               [("batch_results", FieldBatch batch.2.1.2 batch.2.1.1 results)] |})
  ∧ batch.1 = turn.1
  ∧ results = turn.2
  ∧ length results = length moves
  ∧ (isError call.2 = true ↔ ∃ result, result ∈ results ∧ success result = false)
  ∧ ∀ entries i w,
      entries ∈ dicts_of moves →
      ∃ hwnd_value x y width height,
        dict_get "hwnd" entries = Some hwnd_value ∧ dict_get "x" entries = Some x
        ∧ dict_get "y" entries = Some y ∧ dict_get "width" entries = Some width
        ∧ dict_get "height" entries = Some height
        ∧ let hwnd_str :=
            match int_value hwnd_value with
            | Some z => "0x" +:+ format_08X z
            | None => format_value py_str hwnd_value
            end in
          let outcome := move_window_functional (PyStr hwnd_str) x y width height w in
          let processed :=
            process_move World move_window_functional format_08X py_str i entries w in
          processed.1 = outcome.1
          ∧ match outcome.2 with
            | MoveReturned returned_success returned_message =>
                success processed.2 = returned_success
                ∧ message processed.2 = returned_message
            | MoveRaised _ exception_text =>
                success processed.2 = false
                ∧ message processed.2 = "Error processing move: " +:+ exception_text
            end.
Proof.
  intros Hmoves Hnonempty Hvalid batch turn results call.
  assert (call = (batch.1,
                  {| content :=
                       batch.2.1.2
                         :: (detail_text py_str check_mark cross_mark <$> results);
                     isError := negb batch.2.1.1;
                     extra_fields :=
                       [("batch_results", FieldBatch batch.2.1.2 batch.2.1.1 results)] |}))
    as Hcall.
  { subst call results. unfold handle_move_window, dict_get_or_None.
    rewrite Hmoves. unfold default. cbn [from_option id py_truthy].
    destruct moves as [|move0 moves]; [done|].
    rewrite (proj2 (first_invalid_move_None 0 _) Hvalid).
    fold batch. by destruct batch as [w' [[overall_success summary] results]]. }
  destruct (move_windows_batch_functional_shape (dicts_of moves) w)
    as (Hworld & Hresults & Hlen & _ & Hflag & _).
  fold batch turn results in Hworld, Hresults, Hlen, Hflag.
  split_and!; [done|done|done|by rewrite Hlen, dicts_of_length| |].
  - rewrite Hcall. cbn [snd isError]. rewrite Hflag. apply forallb_success_false.
  - intros entries i w0 Hentries.
    pose proof (elem_of_dicts_of entries moves Hentries Hvalid) as Hmove.
    assert (∀ field, field ∈ ["hwnd"; "x"; "y"; "width"; "height"] →
                     is_Some (dict_get field entries)) as Hfields
      by (intros field; by apply valid_move_fields).
    destruct (Hfields "hwnd") as [hwnd_value Hhwnd]; [set_solver|].
    destruct (Hfields "x") as [x Hx]; [set_solver|].
    destruct (Hfields "y") as [y Hy]; [set_solver|].
    destruct (Hfields "width") as [width Hwidth]; [set_solver|].
    destruct (Hfields "height") as [height Hheight]; [set_solver|].
    exists hwnd_value, x, y, width, height.
    destruct (process_move_complete i entries w0 hwnd_value x y width height
                Hhwnd Hx Hy Hwidth Hheight) as (Hw & _ & _ & Hcase).
    split_and!; try done. cbv zeta. split; [done|].
    destruct (move_window_functional _ _ _ _ _ _) as [w1 [? ?|? ?]]; cbn [snd] in *;
      by destruct Hcase as (? & ? & _).
Qed.

End MoveWindowFacts.

Lemma malformed_batch_moves_no_window_witness :
  let move_window_functional :=
    λ (hwnd_str x y width height : py_value) (w : nat), (S w, MoveReturned true "moved") in
  let good :=
    PyDict [("hwnd", PyInt 132136); ("x", PyInt 0); ("y", PyInt 0);
            ("width", PyInt 800); ("height", PyInt 600)] in
  let bad := PyDict [("hwnd", PyInt 132136); ("x", PyInt 0); ("y", PyInt 0)] in
  ∃ response,
    handle_move_window nat move_window_functional (λ _, "") (λ _, "") "+" "-" "doc"
      [("operation", PyStr "move_window"); ("moves", PyList [good; bad])] 0%nat =
      (0%nat, response) ∧
    isError response = true.
Proof.
  intros move_window_functional good bad.
  apply (malformed_batch_moves_no_window move_window_functional (λ _, "") (λ _, "")
           "+" "-" "doc" _ [good; bad]); [reflexivity|].
  exists bad. split; [apply list_elem_of_further, list_elem_of_here|].
  intros (entries & [= <-] & Hall).
  specialize (Hall "width"). vm_compute in Hall.
  assert ("width" ∈ ["hwnd"; "x"; "y"]) as Hwidth.
  { apply Hall. do 3 apply list_elem_of_further. apply list_elem_of_here. }
  repeat (apply elem_of_cons in Hwidth as [[=]|Hwidth]). by apply elem_of_nil in Hwidth.
Defined.

Lemma valid_batch_reports_every_move_witness :
  let move_window_functional :=
    λ (hwnd_str x y width height : py_value) (w : nat),
      (S w, if bool_decide (w = 0%nat) then MoveReturned true "done"
            else MoveRaised false "window is gone") in
  let move :=
    PyDict [("hwnd", PyInt 132264); ("x", PyInt 0); ("y", PyInt 0);
            ("width", PyInt 800); ("height", PyInt 600)] in
  let params := [("operation", PyStr "move_window"); ("moves", PyList [move; move])] in
  let py_str := λ value, match value with PyInt z => str_of_int z | _ => "" end in
  let call :=
    handle_move_window nat move_window_functional (λ _, "000204A8") py_str "+" "-"
      "doc" params 0%nat in
  call.1 = 2%nat
  ∧ isError call.2 = true
  ∧ content call.2
    = ["Batch move completed: 1 successful, 1 failed out of 2 total moves";
       "+ Move 1: 0x000204A8 -> (0, 0, 800x600) - done";
       "- Move 2: 132264 -> (0, 0, 800x600) - Error processing move: window is gone"].
Proof.
  intros move_window_functional move params py_str call.
  assert (valid_move move) as Hmove.
  { eexists. split; [reflexivity|]. intros field Hfield.
    repeat (apply elem_of_cons in Hfield as [->|Hfield]);
      [..|by apply elem_of_nil in Hfield]; vm_compute.
    - apply list_elem_of_here.
    - do 1 apply list_elem_of_further. apply list_elem_of_here.
    - do 2 apply list_elem_of_further. apply list_elem_of_here.
    - do 3 apply list_elem_of_further. apply list_elem_of_here.
    - do 4 apply list_elem_of_further. apply list_elem_of_here. }
  destruct (valid_batch_reports_every_move move_window_functional (λ _, "000204A8")
              py_str "+" "-" "doc" params [move; move] 0%nat)
    as (Hcall & _); [reflexivity|done|by repeat constructor|].
  fold call in Hcall. rewrite Hcall. by vm_compute.
Defined.
